(** * NFL parlay generator: projection, parlay-building and analytics core

    A shallow embedding of [NFL_pre.py] (projection engine and
    correlated-parlay builder) and of [advanced_analytics.py] (significant
    pair discovery, parlay simulation, Kelly sizing, adversarial validation,
    calibration metrics), with the properties of the specification stated
    and settled against it.

    Numbers.  Python [float]s are read as exact rationals ([Q], compared
    with [==]); rounding error of the binary representation, infinities and
    NaN are not modelled.  [round(x, n)] is exact round-half-to-even on the
    decimal digits.  The significance test of [find_significant_pairs] needs
    a logarithm, a square root and the normal distribution function, and is
    stated over the real numbers, with [norm.cdf] defined by the integral of
    the density.

    Effects.  Code that raises returns a [Py.result].  The random generator
    and the matrix factorisation behind the Monte Carlo simulator, and the
    cross-validated classifier behind the adversarial validator, are
    parameters of the model.  The data frames that the validator writes to
    live in a heap keyed by address, so that the caller's view of its own
    objects after a call can be stated.

    Layout.  The model of the two source files comes first, then the
    concrete inputs and the notions used in the statements, then the
    proofs: for each source file the properties of the specification (C1
    to C10), followed by further properties of the same code (X1 to X30):
    what it returns and when it raises, ranges and orderings of its
    results, and how its functions compose. *)

From Stdlib Require Import Reals Lra.
From stdpp Require Import gmap strings.
From Stdlib Require Import QArith Qround Qabs Qminmax ZArith List String Bool.
From Stdlib Require Import Lia Lqa Sorting.Sorted Sorting.Permutation.
Import ListNotations.

Local Open Scope Q_scope.

(** ** Python values shared by both source files *)

Module Py.

(** Exceptions the modelled code raises. *)
Inductive exn : Type :=
| ValueError (msg : string)
| ZeroDivisionError
| AttributeError.

(** A computation either returns or raises. *)
Inductive result (A : Type) : Type :=
| Ok (a : A)
| Raise (e : exn).
Arguments Ok {A} a.
Arguments Raise {A} e.

Definition bind {A B : Type} (m : result A) (k : A -> result B) : result B :=
  match m with
  | Ok a => k a
  | Raise e => Raise e
  end.

Definition Qltb (x y : Q) : bool := negb (Qle_bool y x).

(** [a / b] on floats: a zero divisor raises. *)
Definition div (a b : Q) : result Q :=
  if Qeq_bool b 0 then Raise ZeroDivisionError else Ok (a / b).

(** Nearest integer, ties to the even neighbour. *)
Definition round_half_even (x : Q) : Z :=
  let f := Qfloor x in
  match ((x - inject_Z f) ?= (1 # 2))%Q with
  | Lt => f
  | Gt => (f + 1)%Z
  | Eq => if Z.even f then f else (f + 1)%Z
  end.

Definition pow10 (ndigits : nat) : Q := inject_Z (10 ^ Z.of_nat ndigits).

(** [round(x, ndigits)]. *)
Definition round (x : Q) (ndigits : nat) : Q :=
  inject_Z (round_half_even (x * pow10 ndigits)) / pow10 ndigits.

(** Python's two-argument [max]: the first argument unless the second is
    strictly larger. *)
Definition max2 (a b : Q) : Q := if Qltb a b then b else a.

(** Python's two-argument [min]: the first argument unless the second is
    strictly smaller. *)
Definition min2 (a b : Q) : Q := if Qltb b a then b else a.

(** [sum(xs)]: a left fold from 0. *)
Definition sum (xs : list Q) : Q := fold_left Qplus xs 0.

(** [max(xs, key=key)] on a non-empty list [x :: xs]: the first element
    whose key is maximal. *)
Definition max_by_key {A : Type} (key : A -> Q) (x : A) (xs : list A) : A :=
  fold_left (fun best y => if Qltb (key best) (key y) then y else best) xs x.

End Py.

Notation "x <- m ;; k" := (Py.bind m (fun x => k))
  (at level 100, m at next level, right associativity).

(** ** NFL_pre.py *)

Module NFL_pre.
Import Py.

(** *** Configuration constants ([class Config]) *)

Module Config.
Definition LAST_5_WEIGHT : Q := 65 # 100.
Definition SEASON_AVG_WEIGHT : Q := 35 # 100.
Definition ELITE_DEFENSE_THRESHOLD : Z * Z := (1, 5)%Z.
Definition ELITE_DEFENSE_DAMPER : Q := 88 # 100.
Definition POOR_DEFENSE_THRESHOLD : Z * Z := (28, 32)%Z.
Definition POOR_DEFENSE_BOOST : Q := 112 # 100.
Definition QB_EPA_THRESHOLD : Q := 20 # 100.
Definition QB_EPA_BOOST : Q := 105 # 100.
Definition WR_TARGET_SHARE_THRESHOLD : Q := 28.
Definition WR_VOLUME_FLOOR_BOOST : Q := 108 # 100.
Definition TRAILING_SCRIPT_SPREAD : Q := 65 # 10.
Definition LEADING_SCRIPT_SPREAD : Q := - (65 # 10).
Definition EXPLOSIVE_TOTAL_THRESHOLD : Q := 495 # 10.
Definition MIN_EDGE_FOR_CONFIDENCE : Q := 2.
Definition MAX_EDGE_FOR_CONFIDENCE : Q := 15.
End Config.

(** *** Enumerations *)

Inductive Position : Type := QB | RB | WR | TE.
Inductive BetType : Type := OVER | UNDER.
Inductive GameScript : Type := TRAILING | LEADING | EXPLOSIVE | NEUTRAL.

Definition Position_eqb (a b : Position) : bool :=
  match a, b with
  | QB, QB | RB, RB | WR, WR | TE, TE => true
  | _, _ => false
  end.

Definition BetType_eqb (a b : BetType) : bool :=
  match a, b with
  | OVER, OVER | UNDER, UNDER => true
  | _, _ => false
  end.

(** *** Data models *)

Record GameContext : Type := {
  team : string;
  opponent : string;
  spread : Q;
  total : Q;
  implied_team_total : Q;
  opponent_rank : Z
}.

Module QBStats.
Record t : Type := {
  passing_yards_l5_avg : Q;
  passing_yards_season_total : Q;
  rush_yards_l5_avg : Q;
  rush_yards_season_total : Q;
  epa_per_play : Q;
  cpoe : Q;
  pass_attempts_l5_avg : Q;
  pass_attempts_season_total : Q;
  games_played : Z
}.
End QBStats.

Module RBStats.
Record t : Type := {
  rush_yards_l5_avg : Q;
  rush_yards_season_total : Q;
  opportunity_share_pct : Q;
  yco_per_att : Q;
  rush_attempts_l5_avg : Q;
  rush_attempts_season_total : Q;
  games_played : Z
}.
End RBStats.

Module WRTEStats.
Record t : Type := {
  rec_yards_l5_avg : Q;
  rec_yards_season_total : Q;
  target_share_pct : Q;
  adot : Q;
  air_yards_share : Q;
  receptions_l5_avg : Q;
  receptions_season_total : Q;
  games_played : Z
}.
End WRTEStats.

(** [QBStats | RBStats | WRTEStats] *)
Inductive Stats : Type :=
| OfQB (s : QBStats.t)
| OfRB (s : RBStats.t)
| OfWRTE (s : WRTEStats.t).

Module MarketLines.
Record t : Type := {
  player_name : string;
  position : Position;
  passing_yards : option Q;
  rush_yards : option Q;
  rec_yards : option Q;
  receptions : option Q;
  pass_attempts : option Q;
  rush_attempts : option Q
}.
End MarketLines.

Module PlayerData.
Record t : Type := {
  name : string;
  position : Position;
  stats : Stats;
  market_lines : MarketLines.t
}.
End PlayerData.

Module Projection.
Record t : Type := {
  player_name : string;
  position : Position;
  stat_type : string;
  projected_value : Q;
  market_line : Q;
  edge : Q;
  recommendation : BetType;
  confidence : Q
}.
End Projection.

Module ParlayLeg.
Record t : Type := {
  player_name : string;
  stat_type : string;
  line : Q;
  direction : BetType;
  edge : Q
}.
End ParlayLeg.

Module CorrelatedParlay.
Record t : Type := {
  game_script : GameScript;
  legs : list ParlayLeg.t;
  combined_confidence : Q;
  correlation_strength : string
}.
End CorrelatedParlay.

(** *** Prediction strategy *)

Class PredictionStrategy : Type := {
  calculate_base_projection : Q -> Q -> Q;
  apply_dvoa_modifier : Q -> Z -> Q
}.

#[export] Instance StandardPredictionStrategy : PredictionStrategy := {
  calculate_base_projection last_5_avg season_avg :=
    last_5_avg * Config.LAST_5_WEIGHT + season_avg * Config.SEASON_AVG_WEIGHT;
  apply_dvoa_modifier value opponent_rank :=
    let '(elite_min, elite_max) := Config.ELITE_DEFENSE_THRESHOLD in
    let '(poor_min, poor_max) := Config.POOR_DEFENSE_THRESHOLD in
    if ((elite_min <=? opponent_rank) && (opponent_rank <=? elite_max))%Z
    then value * Config.ELITE_DEFENSE_DAMPER
    else if ((poor_min <=? opponent_rank) && (opponent_rank <=? poor_max))%Z
    then value * Config.POOR_DEFENSE_BOOST
    else value
}.

(** *** Prediction engine *)

(** [PredictionEngine._calculate_confidence] *)
Definition _calculate_confidence (edge_magnitude : Q) : Q :=
  if Qltb edge_magnitude Config.MIN_EDGE_FOR_CONFIDENCE then
    35 + (edge_magnitude / Config.MIN_EDGE_FOR_CONFIDENCE) * 15
  else if Qltb Config.MAX_EDGE_FOR_CONFIDENCE edge_magnitude then
    95
  else
    let normalized :=
      (edge_magnitude - Config.MIN_EDGE_FOR_CONFIDENCE) /
      (Config.MAX_EDGE_FOR_CONFIDENCE - Config.MIN_EDGE_FOR_CONFIDENCE) in
    50 + normalized * 45.

(** [PredictionEngine._create_projection] *)
Definition _create_projection (player : PlayerData.t) (stat_type : string)
    (projected line : Q) : result Projection.t :=
  ratio <- div (projected - line) line ;;
  let edge := ratio * 100 in
  let recommendation := if Qltb line projected then OVER else UNDER in
  let confidence := _calculate_confidence (Qabs edge) in
  Ok {| Projection.player_name := PlayerData.name player;
        Projection.position := PlayerData.position player;
        Projection.stat_type := stat_type;
        Projection.projected_value := round projected 1;
        Projection.market_line := line;
        Projection.edge := round edge 2;
        Projection.recommendation := recommendation;
        Projection.confidence := round confidence 1 |}.

Record PredictionEngine : Type := {
  strategy : PredictionStrategy;
  game_context : option GameContext
}.

(** One optional block of a [_project_*] method: runs only when the market
    line is posted, and appends its projection. *)
Definition with_line (projections : list Projection.t) (line : option Q)
    (block : Q -> result Projection.t) : result (list Projection.t) :=
  match line with
  | Some l => p <- block l ;; Ok (projections ++ [p])
  | None => Ok projections
  end.

(** [PredictionEngine._project_qb] *)
Definition _project_qb (S : PredictionStrategy) (ctx : GameContext)
    (player : PlayerData.t) (stats : QBStats.t) : result (list Projection.t) :=
  let lines := PlayerData.market_lines player in
  let games := inject_Z (QBStats.games_played stats) in
  season_pass_avg <- div (QBStats.passing_yards_season_total stats) games ;;
  season_rush_avg <- div (QBStats.rush_yards_season_total stats) games ;;
  season_attempts_avg <- div (QBStats.pass_attempts_season_total stats) games ;;
  projections <- with_line [] (MarketLines.passing_yards lines) (fun line =>
    let base_pass :=
      calculate_base_projection (QBStats.passing_yards_l5_avg stats) season_pass_avg in
    let adjusted_pass := apply_dvoa_modifier base_pass (opponent_rank ctx) in
    let adjusted_pass :=
      if Qltb Config.QB_EPA_THRESHOLD (QBStats.epa_per_play stats)
      then adjusted_pass * Config.QB_EPA_BOOST else adjusted_pass in
    _create_projection player "Passing Yards" adjusted_pass line) ;;
  projections <- with_line projections (MarketLines.rush_yards lines) (fun line =>
    let base_rush :=
      calculate_base_projection (QBStats.rush_yards_l5_avg stats) season_rush_avg in
    let adjusted_rush := apply_dvoa_modifier base_rush (opponent_rank ctx) in
    _create_projection player "Rush Yards" adjusted_rush line) ;;
  with_line projections (MarketLines.pass_attempts lines) (fun line =>
    let base_attempts :=
      calculate_base_projection (QBStats.pass_attempts_l5_avg stats) season_attempts_avg in
    let base_attempts :=
      if Qltb Config.TRAILING_SCRIPT_SPREAD (spread ctx) then base_attempts * (108 # 100)
      else if Qltb (spread ctx) Config.LEADING_SCRIPT_SPREAD then base_attempts * (92 # 100)
      else base_attempts in
    _create_projection player "Pass Attempts" base_attempts line).

(** [PredictionEngine._project_rb] *)
Definition _project_rb (S : PredictionStrategy) (ctx : GameContext)
    (player : PlayerData.t) (stats : RBStats.t) : result (list Projection.t) :=
  let lines := PlayerData.market_lines player in
  let games := inject_Z (RBStats.games_played stats) in
  season_rush_avg <- div (RBStats.rush_yards_season_total stats) games ;;
  season_attempts_avg <- div (RBStats.rush_attempts_season_total stats) games ;;
  projections <- with_line [] (MarketLines.rush_yards lines) (fun line =>
    let base_rush :=
      calculate_base_projection (RBStats.rush_yards_l5_avg stats) season_rush_avg in
    let adjusted_rush := apply_dvoa_modifier base_rush (opponent_rank ctx) in
    let adjusted_rush :=
      if Qltb 70 (RBStats.opportunity_share_pct stats)
      then adjusted_rush * (105 # 100) else adjusted_rush in
    let adjusted_rush :=
      if Qltb (spread ctx) Config.LEADING_SCRIPT_SPREAD then adjusted_rush * (110 # 100)
      else if Qltb Config.TRAILING_SCRIPT_SPREAD (spread ctx) then adjusted_rush * (88 # 100)
      else adjusted_rush in
    _create_projection player "Rush Yards" adjusted_rush line) ;;
  with_line projections (MarketLines.rush_attempts lines) (fun line =>
    let base_attempts :=
      calculate_base_projection (RBStats.rush_attempts_l5_avg stats) season_attempts_avg in
    let base_attempts :=
      if Qltb (spread ctx) Config.LEADING_SCRIPT_SPREAD then base_attempts * (112 # 100)
      else if Qltb Config.TRAILING_SCRIPT_SPREAD (spread ctx) then base_attempts * (85 # 100)
      else base_attempts in
    _create_projection player "Rush Attempts" base_attempts line).

(** [PredictionEngine._project_wr_te] *)
Definition _project_wr_te (S : PredictionStrategy) (ctx : GameContext)
    (player : PlayerData.t) (stats : WRTEStats.t) : result (list Projection.t) :=
  let lines := PlayerData.market_lines player in
  let games := inject_Z (WRTEStats.games_played stats) in
  season_rec_yards_avg <- div (WRTEStats.rec_yards_season_total stats) games ;;
  season_receptions_avg <- div (WRTEStats.receptions_season_total stats) games ;;
  projections <- with_line [] (MarketLines.rec_yards lines) (fun line =>
    let base_rec :=
      calculate_base_projection (WRTEStats.rec_yards_l5_avg stats) season_rec_yards_avg in
    let adjusted_rec := apply_dvoa_modifier base_rec (opponent_rank ctx) in
    let adjusted_rec :=
      if Qltb Config.WR_TARGET_SHARE_THRESHOLD (WRTEStats.target_share_pct stats) then
        let min_projection := line * (95 # 100) in
        max2 (adjusted_rec * Config.WR_VOLUME_FLOOR_BOOST) min_projection
      else adjusted_rec in
    _create_projection player "Rec Yards" adjusted_rec line) ;;
  with_line projections (MarketLines.receptions lines) (fun line =>
    let base_rec :=
      calculate_base_projection (WRTEStats.receptions_l5_avg stats) season_receptions_avg in
    let base_rec :=
      if Qltb 25 (WRTEStats.target_share_pct stats)
      then base_rec * (105 # 100) else base_rec in
    _create_projection player "Receptions" base_rec line).

(** [PredictionEngine.generate_projections].  The [_project_*] methods read
    [player.stats] as the record of the position; a record of another
    variant has none of the attributes they read. *)
Definition generate_projections (self : PredictionEngine) (player : PlayerData.t)
    : result (list Projection.t) :=
  match game_context self with
  | None => Raise (ValueError "Game context must be set before generating projections")
  | Some ctx =>
      match PlayerData.position player, PlayerData.stats player with
      | QB, OfQB stats => _project_qb (strategy self) ctx player stats
      | RB, OfRB stats => _project_rb (strategy self) ctx player stats
      | (WR | TE), OfWRTE stats => _project_wr_te (strategy self) ctx player stats
      | _, _ => Raise AttributeError
      end
  end.

(** *** Correlation engine *)

Record CorrelationEngine : Type := { ce_game_context : GameContext }.

(** [CorrelationEngine.determine_game_script] *)
Definition determine_game_script (self : CorrelationEngine) : GameScript :=
  if Qltb Config.TRAILING_SCRIPT_SPREAD (spread (ce_game_context self)) then TRAILING
  else if Qltb (spread (ce_game_context self)) Config.LEADING_SCRIPT_SPREAD then LEADING
  else if Qltb Config.EXPLOSIVE_TOTAL_THRESHOLD (total (ce_game_context self)) then EXPLOSIVE
  else NEUTRAL.

(** [CorrelationEngine._find_projection]: the first match. *)
Definition _find_projection (projections : list Projection.t)
    (position : Position) (stat_type : string) : option Projection.t :=
  find (fun proj => Position_eqb (Projection.position proj) position
                    && String.eqb (Projection.stat_type proj) stat_type) projections.

(** [CorrelationEngine._find_best_projection] *)
Definition _find_best_projection (projections : list Projection.t)
    (positions : list Position) (stat_type : string)
    (preferred_direction : BetType) : option Projection.t :=
  let candidates :=
    filter (fun p => existsb (Position_eqb (Projection.position p)) positions
                     && String.eqb (Projection.stat_type p) stat_type) projections in
  match candidates with
  | [] => None
  | c :: cs =>
      let matching :=
        filter (fun c => BetType_eqb (Projection.recommendation c) preferred_direction)
               candidates in
      match matching with
      | m :: ms => Some (max_by_key (fun p => Qabs (Projection.edge p)) m ms)
      | [] => Some (max_by_key (fun p => Qabs (Projection.edge p)) c cs)
      end
  end.

(** [CorrelationEngine._calculate_parlay_confidence] *)
Definition _calculate_parlay_confidence (legs : list ParlayLeg.t) : Q :=
  match legs with
  | [] => 0
  | _ =>
      let total_edge := sum (map ParlayLeg.edge legs) in
      let avg_edge := total_edge / inject_Z (Z.of_nat (List.length legs)) in
      let base := 50 + min2 (avg_edge * 2) 30 in
      let positive_legs :=
        List.length (filter (fun leg => Qltb 0 (ParlayLeg.edge leg)) legs) in
      let bonus := inject_Z (Z.of_nat positive_legs) * 5 in
      min2 (base + bonus) 95
  end.

(** A leg taken from a projection, bet in [direction]: the edge keeps its
    sign when [keep] is the projection's own recommendation, and is negated
    otherwise. *)
Definition leg_of (proj : Projection.t) (stat_type : string)
    (direction keep : BetType) : ParlayLeg.t :=
  {| ParlayLeg.player_name := Projection.player_name proj;
     ParlayLeg.stat_type := stat_type;
     ParlayLeg.line := Projection.market_line proj;
     ParlayLeg.direction := direction;
     ParlayLeg.edge :=
       if BetType_eqb (Projection.recommendation proj) keep
       then Projection.edge proj else - Projection.edge proj |}.

(** [legs.append(...)] guarded by [if proj:]. *)
Definition add_leg (legs : list ParlayLeg.t) (found : option Projection.t)
    (stat_type : string) (direction keep : BetType) : list ParlayLeg.t :=
  match found with
  | Some proj => legs ++ [leg_of proj stat_type direction keep]
  | None => legs
  end.

(** [CorrelationEngine._build_trailing_parlay] *)
Definition _build_trailing_parlay (projections : list Projection.t)
    : option CorrelatedParlay.t :=
  let legs := [] in
  let legs := add_leg legs (_find_projection projections QB "Pass Attempts")
                      "Pass Attempts" OVER OVER in
  let legs := add_leg legs (_find_best_projection projections [WR; TE] "Receptions" OVER)
                      "Receptions" OVER OVER in
  let legs := add_leg legs (_find_projection projections RB "Rush Yards")
                      "Rush Yards" UNDER UNDER in
  if (2 <=? List.length legs)%nat then
    Some {| CorrelatedParlay.game_script := TRAILING;
            CorrelatedParlay.legs := legs;
            CorrelatedParlay.combined_confidence := _calculate_parlay_confidence legs;
            CorrelatedParlay.correlation_strength :=
              if (List.length legs =? 3)%nat then "Strong" else "Moderate" |}
  else None.

(** [CorrelationEngine._build_leading_parlay] *)
Definition _build_leading_parlay (projections : list Projection.t)
    : option CorrelatedParlay.t :=
  let legs := [] in
  let legs := add_leg legs (_find_projection projections RB "Rush Attempts")
                      "Rush Attempts" OVER OVER in
  let legs := add_leg legs (_find_projection projections RB "Rush Yards")
                      "Rush Yards" OVER OVER in
  let legs := add_leg legs (_find_projection projections QB "Pass Attempts")
                      "Pass Attempts" UNDER UNDER in
  if (2 <=? List.length legs)%nat then
    Some {| CorrelatedParlay.game_script := LEADING;
            CorrelatedParlay.legs := legs;
            CorrelatedParlay.combined_confidence := _calculate_parlay_confidence legs;
            CorrelatedParlay.correlation_strength :=
              if (List.length legs =? 3)%nat then "Strong" else "Moderate" |}
  else None.

(** [CorrelationEngine._build_explosive_parlay] *)
Definition _build_explosive_parlay (projections : list Projection.t)
    : option CorrelatedParlay.t :=
  let legs := [] in
  let legs := add_leg legs (_find_projection projections QB "Passing Yards")
                      "Passing Yards" OVER OVER in
  let legs := add_leg legs (_find_best_projection projections [WR; TE] "Rec Yards" OVER)
                      "Rec Yards" OVER OVER in
  if (2 <=? List.length legs)%nat then
    Some {| CorrelatedParlay.game_script := EXPLOSIVE;
            CorrelatedParlay.legs := legs;
            CorrelatedParlay.combined_confidence := _calculate_parlay_confidence legs;
            CorrelatedParlay.correlation_strength := "Strong" |}
  else None.

(** [parlays.append(parlay)] guarded by [if parlay:]. *)
Definition add_parlay (parlays : list CorrelatedParlay.t)
    (parlay : option CorrelatedParlay.t) : list CorrelatedParlay.t :=
  match parlay with
  | Some p => parlays ++ [p]
  | None => parlays
  end.

Definition is_explosive (g : GameScript) : bool :=
  match g with EXPLOSIVE => true | _ => false end.

(** [CorrelationEngine.find_correlated_parlays] *)
Definition find_correlated_parlays (self : CorrelationEngine)
    (projections : list Projection.t) : list CorrelatedParlay.t :=
  let game_script := determine_game_script self in
  let parlays := [] in
  let parlays :=
    match game_script with
    | TRAILING => add_parlay parlays (_build_trailing_parlay projections)
    | LEADING => add_parlay parlays (_build_leading_parlay projections)
    | EXPLOSIVE => add_parlay parlays (_build_explosive_parlay projections)
    | NEUTRAL => parlays
    end in
  if negb (is_explosive game_script) && Qltb 47 (total (ce_game_context self))
  then add_parlay parlays (_build_explosive_parlay projections)
  else parlays.

(** *** The analysis run of the application *)

(** [PredictionEngine()] *)
Definition new_engine : PredictionEngine :=
  {| strategy := StandardPredictionStrategy; game_context := None |}.

(** [PredictionEngine.set_game_context] *)
Definition set_game_context (self : PredictionEngine) (context : GameContext)
    : PredictionEngine :=
  {| strategy := strategy self; game_context := Some context |}.

(** The loop of [_run_analysis] over the players: their projections, in
    order. *)
Fixpoint project_players (engine : PredictionEngine) (players : list PlayerData.t)
    : result (list Projection.t) :=
  match players with
  | [] => Ok []
  | player :: rest =>
      player_projections <- generate_projections engine player ;;
      projections <- project_players engine rest ;;
      Ok (player_projections ++ projections)
  end.

(** [NFLAnalyticsApp._run_analysis], without the rendering: the parlays
    found for a game context and its players. *)
Definition _run_analysis (game_context : GameContext) (players : list PlayerData.t)
    : result (list CorrelatedParlay.t) :=
  let prediction_engine := set_game_context new_engine game_context in
  projections <- project_players prediction_engine players ;;
  let correlation_engine := {| ce_game_context := game_context |} in
  Ok (find_correlated_parlays correlation_engine projections).

End NFL_pre.

(** ** advanced_analytics.py *)

Module advanced_analytics.
Import Py.

(** *** Data structures *)

Module PropProjection.
Record t : Type := {
  player_name : string;
  stat_type : string;
  mean : Q;
  std : Q;
  line : Q;
  confidence_interval : Q * Q;
  p_over : Q;
  brier_score : option Q
}.
End PropProjection.

(** *** Kelly criterion *)

Module KellyCriterion.

(** The default of the [fractional_kelly] argument. *)
Definition default_fractional_kelly : Q := 25 # 100.

(** [KellyCriterion.calculate_kelly_fraction] *)
Definition calculate_kelly_fraction
    (true_probability decimal_odds fractional_kelly : Q) : result Q :=
  if negb (Qltb 0 true_probability && Qltb true_probability 1) then
    Raise (ValueError "Probability must be between 0 and 1")
  else if Qle_bool decimal_odds 1 then
    Raise (ValueError "Decimal odds must be > 1.0")
  else
    let b := decimal_odds - 1 in
    let p := true_probability in
    let q := 1 - p in
    kelly_full <- div (b * p - q) b ;;
    if Qle_bool kelly_full 0 then Ok 0
    else
      let kelly_fraction := kelly_full * fractional_kelly in
      Ok (min2 kelly_fraction (20 # 100)).

(** [KellyCriterion.american_to_decimal] *)
Definition american_to_decimal (american_odds : Z) : result Q :=
  if (0 <? american_odds)%Z then
    Ok (1 + inject_Z american_odds / 100)
  else
    quotient <- div 100 (inject_Z (Z.abs american_odds)) ;;
    Ok (1 + quotient).

(** The default of the [stake] argument. *)
Definition default_stake : Q := 1.

(** [KellyCriterion.calculate_expected_value] *)
Definition calculate_expected_value (true_probability decimal_odds stake : Q) : Q :=
  let win_amount := stake * decimal_odds in
  let loss_amount := stake in
  let ev := true_probability * win_amount - (1 - true_probability) * loss_amount in
  ev.

(** The default of the [confidence_std] argument. *)
Definition default_confidence_std : Q := 5 # 100.

(** [KellyCriterion.minimum_edge_required] *)
Definition minimum_edge_required (decimal_odds confidence_std : Q) : result Q :=
  implied_prob <- div 1 decimal_odds ;;
  let min_edge := 2 * confidence_std in
  Ok min_edge.

End KellyCriterion.

(** *** numpy arrays *)

Definition matrix : Type := list (list Q).

Definition shape_error {A : Type} : result A :=
  Raise (ValueError "operands could not be broadcast together").

(** An elementwise operation of a row with a vector of the same length. *)
Definition broadcast {C : Type} (f : Q -> Q -> C) (row v : list Q) : result (list C) :=
  if (List.length row =? List.length v)%nat then Ok (zip_with f row v) else shape_error.

Fixpoint map_result {A B : Type} (f : A -> result B) (xs : list A) : result (list B) :=
  match xs with
  | [] => Ok []
  | x :: rest =>
      y <- f x ;;
      ys <- map_result f rest ;;
      Ok (y :: ys)
  end.

(** [np.mean] of a float array. *)
Definition np_mean (xs : list Q) : Q := sum xs / inject_Z (Z.of_nat (List.length xs)).

(** A boolean read as a condition. *)
Definition holds (b : bool) : bool := b.

Definition count_true (bs : list bool) : nat := List.length (filter holds bs).

(** [np.mean] of a boolean array: the fraction of [True]. *)
Definition np_mean_bool (bs : list bool) : Q :=
  inject_Z (Z.of_nat (count_true bs)) / inject_Z (Z.of_nat (List.length bs)).

Definition bool_to_Q (b : bool) : Q := if b then 1 else 0.

(** [np.mean(m, axis=0)] of an [n x k] boolean array: the rows are added up
    column by column and divided by their number. *)
Definition np_mean_axis0 (k : nat) (m : list (list bool)) : list Q :=
  let totals := fold_left (zip_with Qplus) (map (map bool_to_Q) m) (repeat 0 k) in
  map (fun t => t / inject_Z (Z.of_nat (List.length m))) totals.

(** [np.prod] *)
Definition np_prod (xs : list Q) : Q := fold_left Qmult xs 1.

(** [np.eye(n)] *)
Definition np_eye (n : nat) : matrix :=
  map (fun i => map (fun j => if (i =? j)%nat then 1 else 0) (seq 0 n)) (seq 0 n).

Definition dot (u v : list Q) : Q := sum (zip_with Qmult u v).

(** [a @ b.T]: entry (i, j) is the inner product of row i of [a] with row j
    of [b]; rows of different lengths do not multiply. *)
Definition matmul_T (a b : matrix) : result matrix :=
  map_result (fun u =>
    map_result (fun v =>
      if (List.length u =? List.length v)%nat then Ok (dot u v) else shape_error) b) a.

(** *** Model evaluation *)

Module ModelEvaluator.

(** [np.linspace(0, 1, n_bins + 1)] *)
Definition bin_edges (n_bins : nat) : list Q :=
  map (fun i => inject_Z (Z.of_nat i) / inject_Z (Z.of_nat n_bins)) (seq 0 (n_bins + 1)).

(** [np.digitize(x, bins)] for increasing [bins]: the number of edges at or
    below [x], so that [bins[i-1] <= x < bins[i]]. *)
Definition digitize (bins : list Q) (x : Q) : nat :=
  List.length (filter (fun b => Qle_bool b x) bins).

(** [np.digitize(predicted_probs, bins) - 1] *)
Definition bin_indices (predicted_probs : list Q) (n_bins : nat) : list Z :=
  map (fun x => (Z.of_nat (digitize (bin_edges n_bins) x) - 1)%Z) predicted_probs.

(** [bin_indices == i] *)
Definition bin_mask (indices : list Z) (i : nat) : list bool :=
  map (fun b => (b =? Z.of_nat i)%Z) indices.

(** [values[mask]] *)
Definition select {A : Type} (mask : list bool) (values : list A) : list A :=
  map snd (filter (fun bv => fst bv) (combine mask values)).

(** [ModelEvaluator.calibration_curve] *)
Definition calibration_curve (true_outcomes predicted_probs : list Q) (n_bins : nat)
    : list Q * list Q :=
  let indices := bin_indices predicted_probs n_bins in
  fold_left (fun '(bin_means, true_freqs) i =>
               let mask := bin_mask indices i in
               if (0 <? count_true mask)%nat then
                 (bin_means ++ [np_mean (select mask predicted_probs)],
                  true_freqs ++ [np_mean (select mask true_outcomes)])
               else (bin_means, true_freqs))
            (seq 0 n_bins) ([], []).

(** [ModelEvaluator.expected_calibration_error] *)
Definition expected_calibration_error (true_outcomes predicted_probs : list Q)
    (n_bins : nat) : Q :=
  let indices := bin_indices predicted_probs n_bins in
  let n_total := List.length predicted_probs in
  fold_left (fun ece i =>
               let mask := bin_mask indices i in
               let n_bin := count_true mask in
               if (0 <? n_bin)%nat then
                 let bin_acc := np_mean (select mask true_outcomes) in
                 let bin_conf := np_mean (select mask predicted_probs) in
                 ece + (inject_Z (Z.of_nat n_bin) / inject_Z (Z.of_nat n_total))
                       * Qabs (bin_acc - bin_conf)
               else ece)
            (seq 0 n_bins) 0.

End ModelEvaluator.

(** *** Monte Carlo simulation *)

Module MonteCarloSimulator.
Section Simulator.

(** The generator state behind [self.rng], one standard-normal draw that
    advances it, and the matrix factor that [np.linalg] returns for a
    correlation matrix (the Cholesky factor, or the eigenvalue-floored factor
    when that fails). *)
Context {RNG : Type}.
Variable next_normal : RNG -> Q * RNG.
Variable linalg_factor : matrix -> matrix.

Record t : Type := {
  n_simulations : nat;
  rng : RNG
}.

Fixpoint draw_row (k : nat) (g : RNG) : list Q * RNG :=
  match k with
  | O => ([], g)
  | S k' =>
      let '(x, g) := next_normal g in
      let '(xs, g) := draw_row k' g in
      (x :: xs, g)
  end.

(** [rng.standard_normal((n, k))] *)
Fixpoint standard_normal (n k : nat) (g : RNG) : matrix * RNG :=
  match n with
  | O => ([], g)
  | S n' =>
      let '(row, g) := draw_row k g in
      let '(rows, g) := standard_normal n' k g in
      (row :: rows, g)
  end.

(** [MonteCarloSimulator.simulate_correlated_props] *)
Definition simulate_correlated_props (self : t) (means stds : list Q)
    (correlation_matrix : matrix) : result (matrix * t) :=
  let n_props := List.length means in
  let '(uncorrelated, g) := standard_normal (n_simulations self) n_props (rng self) in
  let self := {| n_simulations := n_simulations self; rng := g |} in
  let L := linalg_factor correlation_matrix in
  correlated <- matmul_T uncorrelated L ;;
  scaled <- map_result (fun row =>
              r <- broadcast Qmult row stds ;;
              broadcast Qplus r means) correlated ;;
  let scaled := map (map (fun x => max2 x 0)) scaled in
  Ok (scaled, self).

Record ParlayStats : Type := {
  true_probability : Q;
  independent_probability : Q;
  correlation_advantage : Q;
  individual_probabilities : list Q
}.

(** [simulated > lines] *)
Definition exceeds (simulated : matrix) (lines : list Q) : result (list (list bool)) :=
  map_result (fun row => broadcast (fun x l => Qltb l x) row lines) simulated.

(** [MonteCarloSimulator.simulate_parlay] *)
Definition simulate_parlay (self : t) (props : list PropProjection.t)
    (correlation_matrix : option matrix) : result (ParlayStats * t) :=
  let n_props := List.length props in
  let correlation_matrix :=
    match correlation_matrix with
    | Some m => m
    | None => np_eye n_props
    end in
  let means := map PropProjection.mean props in
  let stds := map PropProjection.std props in
  let lines := map PropProjection.line props in
  drawn <- simulate_correlated_props self means stds correlation_matrix ;;
  let '(simulated, self) := drawn in
  hits <- exceeds simulated lines ;;
  let all_legs_hit := map (forallb holds) hits in
  let parlay_probability := np_mean_bool all_legs_hit in
  let individual_probs := np_mean_axis0 n_props hits in
  let independent_prob := np_prod individual_probs in
  Ok ({| true_probability := parlay_probability;
         independent_probability := independent_prob;
         correlation_advantage := parlay_probability - independent_prob;
         individual_probabilities := individual_probs |}, self).

(** [MonteCarloSimulator.calculate_probability_over] *)
Definition calculate_probability_over (self : t) (simulated_values : list Q)
    (line : Q) : Q :=
  np_mean_bool (map (fun x => Qltb line x) simulated_values).

End Simulator.
End MonteCarloSimulator.

(** *** Adversarial validation *)

(** A pandas column of floats; [None] is NaN. *)
Abbreviation column := (list (option Q)).

Module DataFrame.
Record t : Type := {
  nrows : nat;
  columns : gmap string column
}.

(** [df[name] = value]: the column is created or overwritten, one value per
    row. *)
Definition set_scalar (df : t) (name : string) (value : Q) : t :=
  {| nrows := nrows df;
     columns := <[name := repeat (Some value) (nrows df)]> (columns df) |}.

(** [df.drop(name, axis=1)] *)
Definition drop (df : t) (name : string) : t :=
  {| nrows := nrows df; columns := delete name (columns df) |}.

(** [pd.concat([a, b], ignore_index=True)]: rows of [a] then rows of [b],
    over the union of the columns, NaN where a frame lacks a column. *)
Definition concat (a b : t) : t :=
  {| nrows := nrows a + nrows b;
     columns :=
       merge (fun ca cb =>
                match ca, cb with
                | None, None => None
                | _, _ => Some (default (repeat None (nrows a)) ca ++
                                default (repeat None (nrows b)) cb)%list
                end) (columns a) (columns b) |}.
End DataFrame.

Module AdversarialValidator.

(** The objects the caller holds, by address. *)
Abbreviation heap := (gmap nat DataFrame.t).

(** scikit-learn and numpy, as the validator uses them: the per-fold AUC of
    the cross-validated forest on features [X] and labels [y], and
    [np.std]. *)
Class Sklearn : Type := {
  cross_validated_aucs : nat -> Z -> DataFrame.t -> option column -> list Q;
  np_std : list Q -> Q
}.

Record t : Type := {
  n_folds : nat;
  random_state : Z
}.

Record Report : Type := {
  mean_auc : Q;
  std_auc : Q;
  warning : string;
  passed : bool
}.

(** [frame[name] = value] on the object at [address]. *)
Definition assign (h : heap) (address : nat) (name : string) (value : Q) : result heap :=
  match h !! address with
  | Some df => Ok (<[address := DataFrame.set_scalar df name value]> h)
  | None => Raise AttributeError
  end.

Definition deref (h : heap) (address : nat) : result DataFrame.t :=
  match h !! address with
  | Some df => Ok df
  | None => Raise AttributeError
  end.

(** [AdversarialValidator.validate]; the two arguments are the addresses of
    the caller's frames, and the heap after the call is returned with the
    report. *)
Definition validate `{Sklearn} (self : t) (h : heap)
    (train_features test_features : nat) : result (Report * heap) :=
  h <- assign h train_features "is_test" 0 ;;
  h <- assign h test_features "is_test" 1 ;;
  train <- deref h train_features ;;
  test <- deref h test_features ;;
  let combined := DataFrame.concat train test in
  let X := DataFrame.drop combined "is_test" in
  let y := DataFrame.columns combined !! "is_test" in
  let aucs := cross_validated_aucs (n_folds self) (random_state self) X y in
  let mean_auc := np_mean aucs in
  let std_auc := np_std aucs in
  let warning :=
    if Qltb (7 # 10) mean_auc then
      "HIGH RISK: Significant covariate shift detected. Model may not generalize."
    else if Qltb (6 # 10) mean_auc then
      "MODERATE RISK: Some distribution shift present. Use caution."
    else "LOW RISK: Train and test distributions are similar." in
  Ok ({| mean_auc := mean_auc; std_auc := std_auc; warning := warning;
         passed := Qltb mean_auc (7 # 10) |}, h).

End AdversarialValidator.

(** *** Significant-pair discovery (over the real numbers) *)

Module Normal.
Local Open Scope R_scope.

(** The integrand of the standard normal distribution, without its
    constant. *)
Definition gauss (t : R) : R := exp (- (t * t) / 2).

Lemma gauss_continuity : continuity gauss.
Proof.
  unfold gauss. intro x. reg.
Qed.

Definition gauss_integrable (a b : R) : Riemann_integrable gauss a b :=
  match Rle_dec a b with
  | left Hab =>
      continuity_implies_RiemannInt Hab (fun x _ => gauss_continuity x)
  | right Hba =>
      RiemannInt_P1
        (continuity_implies_RiemannInt (Rlt_le _ _ (Rnot_le_lt _ _ Hba))
           (fun x _ => gauss_continuity x))
  end.

(** [scipy.stats.norm.cdf]: one half plus the integral of the density from
    0 to [x]. *)
Definition norm_cdf (x : R) : R :=
  1 / 2 + RiemannInt (gauss_integrable 0 x) / sqrt (2 * PI).

End Normal.

Module PropCorrelationEngine.
Local Open Scope R_scope.

(** Historical per-game data: one series per prop, one entry per game. *)
Record HistoricalData : Type := {
  n_games : nat;
  series : gmap string (list R)
}.

(** A labelled square matrix, read with [.loc[a, b]]. *)
Record Matrix : Type := {
  labels : list string;
  loc : string -> string -> R
}.

Record CorrelatedPair : Type := {
  prop1 : string;
  prop2 : string;
  correlation : R;
  covariance : R;
  p_value : R;
  sample_size : Z
}.

Record t : Type := {
  min_sample_size : Z;
  significance_level : R;
  correlation_matrix : option Matrix;
  covariance_matrix : option Matrix
}.

(** [PropCorrelationEngine(min_sample_size, significance_level)] *)
Definition init (min_sample_size : Z) (significance_level : R) : t :=
  {| min_sample_size := min_sample_size;
     significance_level := significance_level;
     correlation_matrix := None;
     covariance_matrix := None |}.

(** The defaults of the constructor and of [min_correlation]. *)
Definition default_min_sample_size : Z := 30.
Definition default_significance_level : R := 5 / 100.
Definition default_min_correlation : R := 3 / 10.

Definition Rsum (xs : list R) : R := fold_right Rplus 0 xs.

Definition Rmean (xs : list R) : R := Rsum xs / INR (List.length xs).

(** Sample covariance, as [DataFrame.cov] computes it. *)
Definition sample_cov (xs ys : list R) : R :=
  Rsum (zip_with (fun x y => (x - Rmean xs) * (y - Rmean ys)) xs ys)
  / (INR (List.length xs) - 1).

(** Pearson correlation, as [DataFrame.corr(method='pearson')] computes
    it. *)
Definition pearson (xs ys : list R) : R :=
  sample_cov xs ys / (sqrt (sample_cov xs xs) * sqrt (sample_cov ys ys)).

Definition column_of (data : HistoricalData) (prop : string) : list R :=
  default [] (series data !! prop).

(** [PropCorrelationEngine.calculate_prop_correlations]; returns the matrix,
    the engine with both matrices stored, and the warnings emitted (their
    text without the two numbers it quotes). *)
Definition calculate_prop_correlations (self : t) (historical_data : HistoricalData)
    (props : list string) : Py.result (Matrix * t * list string) :=
  let available_props :=
    filter (fun p => bool_decide (is_Some (series historical_data !! p))) props in
  if (List.length available_props <? 2)%nat then
    Py.Raise (Py.ValueError "Need at least 2 props to calculate correlations")
  else
    let n_samples := Z.of_nat (n_games historical_data) in
    let warnings :=
      if (n_samples <? min_sample_size self)%Z
      then ["Sample size below minimum. Correlations may be unreliable."]
      else [] in
    let corr :=
      {| labels := available_props;
         loc := fun a b => pearson (column_of historical_data a)
                                   (column_of historical_data b) |} in
    let cov :=
      {| labels := available_props;
         loc := fun a b => sample_cov (column_of historical_data a)
                                      (column_of historical_data b) |} in
    let self :=
      {| min_sample_size := min_sample_size self;
         significance_level := significance_level self;
         correlation_matrix := Some corr;
         covariance_matrix := Some cov |} in
    Py.Ok (corr, self, warnings).

(** [for i, prop1 in enumerate(props): for prop2 in props[i+1:]] *)
Fixpoint unique_pairs (props : list string) : list (string * string) :=
  match props with
  | [] => []
  | prop1 :: rest => (map (pair prop1) rest ++ unique_pairs rest)%list
  end.

(** The Fisher transformation of a correlation. *)
Definition fisher_z (corr : R) : R := (5 / 10) * ln ((1 + corr) / (1 - corr)).

(** The two-tailed p-value of a correlation over a sample of [n]. *)
Definition fisher_p_value (n : Z) (corr : R) : R :=
  let z := fisher_z corr in
  let se := 1 / sqrt (IZR n - 3) in
  2 * (1 - Normal.norm_cdf (Rabs z / se)).

(** The body of the double loop for one pair: the pairs it appends. *)
Definition test_pair (self : t) (m : Matrix) (min_correlation : R)
    (props : string * string) : list CorrelatedPair :=
  let '(prop1, prop2) := props in
  let corr := loc m prop1 prop2 in
  if Rlt_dec (Rabs corr) min_correlation then []
  else
    let n := min_sample_size self in
    let p_value := fisher_p_value n corr in
    if Rlt_dec p_value (significance_level self) then
      let cov :=
        match covariance_matrix self with
        | Some c => loc c prop1 prop2
        | None => 0
        end in
      [ {| prop1 := prop1; prop2 := prop2; correlation := corr;
           covariance := cov; p_value := p_value; sample_size := n |} ]
    else [].

(** One step of a stable sort by decreasing key. *)
Fixpoint insert_desc {A : Type} (key : A -> R) (x : A) (l : list A) : list A :=
  match l with
  | [] => [x]
  | y :: rest =>
      if Rlt_dec (key x) (key y) then y :: insert_desc key x rest
      else x :: y :: rest
  end.

(** [l.sort(key=key, reverse=True)]: decreasing keys, equal keys in their
    original order. *)
Definition sort_desc {A : Type} (key : A -> R) (l : list A) : list A :=
  fold_right (insert_desc key) [] l.

(** [PropCorrelationEngine.find_significant_pairs] *)
Definition find_significant_pairs (self : t) (correlation_matrix_arg : option Matrix)
    (min_correlation : R) : Py.result (list CorrelatedPair) :=
  let matrix :=
    match correlation_matrix_arg with
    | Some m => Some m
    | None => correlation_matrix self
    end in
  match matrix with
  | None =>
      Py.Raise (Py.ValueError
        "No correlation matrix available. Run calculate_prop_correlations first.")
  | Some m =>
      let significant_pairs :=
        flat_map (test_pair self m min_correlation) (unique_pairs (labels m)) in
      Py.Ok (sort_desc (fun x => Rabs (correlation x)) significant_pairs)
  end.

End PropCorrelationEngine.

End advanced_analytics.

(** ** Concrete inputs used below *)

Module Examples.
Import Py NFL_pre.
Local Open Scope string_scope.

(** A passer averaging 30 attempts and 250 passing yards over 17 games. *)
Definition passer_stats : QBStats.t :=
  {| QBStats.passing_yards_l5_avg := 280;
     QBStats.passing_yards_season_total := 4250;
     QBStats.rush_yards_l5_avg := 10;
     QBStats.rush_yards_season_total := 170;
     QBStats.epa_per_play := 1 # 10;
     QBStats.cpoe := 0;
     QBStats.pass_attempts_l5_avg := 30;
     QBStats.pass_attempts_season_total := 510;
     QBStats.games_played := 17 |}.

Definition passer : PlayerData.t :=
  {| PlayerData.name := "Passer"; PlayerData.position := QB;
     PlayerData.stats := OfQB passer_stats;
     PlayerData.market_lines :=
       {| MarketLines.player_name := "Passer"; MarketLines.position := QB;
          MarketLines.passing_yards := Some (2455 # 10);
          MarketLines.rush_yards := None;
          MarketLines.rec_yards := None; MarketLines.receptions := None;
          MarketLines.pass_attempts := Some (325 # 10);
          MarketLines.rush_attempts := None |} |}.

(** A ball carrier averaging 100 rushing yards, with a rush-yards line of 55. *)
Definition carrier_stats : RBStats.t :=
  {| RBStats.rush_yards_l5_avg := 100;
     RBStats.rush_yards_season_total := 1700;
     RBStats.opportunity_share_pct := 50;
     RBStats.yco_per_att := 3;
     RBStats.rush_attempts_l5_avg := 20;
     RBStats.rush_attempts_season_total := 340;
     RBStats.games_played := 17 |}.

Definition carrier : PlayerData.t :=
  {| PlayerData.name := "Carrier"; PlayerData.position := RB;
     PlayerData.stats := OfRB carrier_stats;
     PlayerData.market_lines :=
       {| MarketLines.player_name := "Carrier"; MarketLines.position := RB;
          MarketLines.passing_yards := None;
          MarketLines.rush_yards := Some 55;
          MarketLines.rec_yards := None; MarketLines.receptions := None;
          MarketLines.pass_attempts := None;
          MarketLines.rush_attempts := None |} |}.

(** A receiver averaging 80 receiving yards, with a line of 75.5. *)
Definition receiver_stats : WRTEStats.t :=
  {| WRTEStats.rec_yards_l5_avg := 80;
     WRTEStats.rec_yards_season_total := 1360;
     WRTEStats.target_share_pct := 24;
     WRTEStats.adot := 10;
     WRTEStats.air_yards_share := 30;
     WRTEStats.receptions_l5_avg := 6;
     WRTEStats.receptions_season_total := 102;
     WRTEStats.games_played := 17 |}.

Definition receiver : PlayerData.t :=
  {| PlayerData.name := "Receiver"; PlayerData.position := WR;
     PlayerData.stats := OfWRTE receiver_stats;
     PlayerData.market_lines :=
       {| MarketLines.player_name := "Receiver"; MarketLines.position := WR;
          MarketLines.passing_yards := None; MarketLines.rush_yards := None;
          MarketLines.rec_yards := Some (755 # 10);
          MarketLines.receptions := None;
          MarketLines.pass_attempts := None;
          MarketLines.rush_attempts := None |} |}.

(** A high-volume receiver (target share 30%) averaging 40 receiving yards,
    with a line of 75.5. *)
Definition volume_receiver_stats : WRTEStats.t :=
  {| WRTEStats.rec_yards_l5_avg := 40;
     WRTEStats.rec_yards_season_total := 680;
     WRTEStats.target_share_pct := 30;
     WRTEStats.adot := 10;
     WRTEStats.air_yards_share := 30;
     WRTEStats.receptions_l5_avg := 6;
     WRTEStats.receptions_season_total := 102;
     WRTEStats.games_played := 17 |}.

Definition volume_receiver : PlayerData.t :=
  {| PlayerData.name := "Volume Receiver"; PlayerData.position := WR;
     PlayerData.stats := OfWRTE volume_receiver_stats;
     PlayerData.market_lines :=
       {| MarketLines.player_name := "Volume Receiver"; MarketLines.position := WR;
          MarketLines.passing_yards := None; MarketLines.rush_yards := None;
          MarketLines.rec_yards := Some (755 # 10);
          MarketLines.receptions := None;
          MarketLines.pass_attempts := None;
          MarketLines.rush_attempts := None |} |}.

Definition context (spread total : Q) (rank : Z) : GameContext :=
  {| team := "Denver Broncos"; opponent := "Washington Commanders";
     spread := spread; total := total;
     implied_team_total := 24; opponent_rank := rank |}.

(** Three projections as the engine stores them: the passer's attempts
    slightly under the line, the receiver's receptions over it, the
    carrier's rushing yards far over it. *)
Definition trailing_projections : list Projection.t :=
  [ {| Projection.player_name := "Passer"; Projection.position := QB;
       Projection.stat_type := "Pass Attempts";
       Projection.projected_value := 324 # 10; Projection.market_line := 325 # 10;
       Projection.edge := - (31 # 100); Projection.recommendation := UNDER;
       Projection.confidence := 373 # 10 |};
    {| Projection.player_name := "Receiver"; Projection.position := WR;
       Projection.stat_type := "Receptions";
       Projection.projected_value := 63 # 10; Projection.market_line := 6;
       Projection.edge := 5; Projection.recommendation := OVER;
       Projection.confidence := 604 # 10 |};
    {| Projection.player_name := "Carrier"; Projection.position := RB;
       Projection.stat_type := "Rush Yards";
       Projection.projected_value := 88; Projection.market_line := 55;
       Projection.edge := 60; Projection.recommendation := OVER;
       Projection.confidence := 95 |} ].

(** A deterministic stand-in for the generator: draw number [g] is [g - 3]. *)
Definition counting_normal (g : nat) : Q * nat :=
  (inject_Z (Z.of_nat g) - 3, S g).

(** The factor of the identity correlation matrix is the identity. *)
Definition identity_factor (m : advanced_analytics.matrix) : advanced_analytics.matrix := m.

Definition prop_of (name stat : string) (mean std line : Q)
    : advanced_analytics.PropProjection.t :=
  {| advanced_analytics.PropProjection.player_name := name;
     advanced_analytics.PropProjection.stat_type := stat;
     advanced_analytics.PropProjection.mean := mean;
     advanced_analytics.PropProjection.std := std;
     advanced_analytics.PropProjection.line := line;
     advanced_analytics.PropProjection.confidence_interval := (mean - std, mean + std);
     advanced_analytics.PropProjection.p_over := 1 # 2;
     advanced_analytics.PropProjection.brier_score := None |}.

Definition two_props : list advanced_analytics.PropProjection.t :=
  [ prop_of "Passer" "Passing Yards" 250 10 245;
    prop_of "Receiver" "Rec Yards" 80 5 82 ].

Definition small_simulator : advanced_analytics.MonteCarloSimulator.t :=
  {| advanced_analytics.MonteCarloSimulator.n_simulations := 6;
     advanced_analytics.MonteCarloSimulator.rng := 0%nat |}.

(** A discriminator that scores 0.5 on every fold. *)
Definition coin_flip : advanced_analytics.AdversarialValidator.Sklearn :=
  {| advanced_analytics.AdversarialValidator.cross_validated_aucs :=
       fun n_folds _ _ _ => repeat (1 # 2) n_folds;
     advanced_analytics.AdversarialValidator.np_std := fun _ => 0 |}.

Definition validator : advanced_analytics.AdversarialValidator.t :=
  {| advanced_analytics.AdversarialValidator.n_folds := 5;
     advanced_analytics.AdversarialValidator.random_state := 42 |}.

(** Training features: one column over two rows. *)
Definition train_frame : advanced_analytics.DataFrame.t :=
  {| advanced_analytics.DataFrame.nrows := 2;
     advanced_analytics.DataFrame.columns := {[ "x" := [Some 1; Some 2] ]} |}.

(** Candidate features: the same column over one row. *)
Definition candidate_frame : advanced_analytics.DataFrame.t :=
  {| advanced_analytics.DataFrame.nrows := 1;
     advanced_analytics.DataFrame.columns := {[ "x" := [Some 3] ]} |}.

(** The caller's heap: the training frame at address 0, the candidate
    frame at address 1. *)
Definition caller_heap : advanced_analytics.AdversarialValidator.heap :=
  <[ 0%nat := train_frame ]> (<[ 1%nat := candidate_frame ]> ∅).

(** Four games of two props: the series have correlation 1/2. *)
Definition four_games : advanced_analytics.PropCorrelationEngine.HistoricalData :=
  {| advanced_analytics.PropCorrelationEngine.n_games := 4;
     advanced_analytics.PropCorrelationEngine.series :=
       {[ "QB_Pass_Yards" := [0; 1; 2; 1]%R; "WR1_Rec_Yards" := [0; 1; 1; 2]%R ]} |}.

(** The engine with the defaults of its constructor. *)
Definition default_engine : advanced_analytics.PropCorrelationEngine.t :=
  advanced_analytics.PropCorrelationEngine.init
    advanced_analytics.PropCorrelationEngine.default_min_sample_size
    advanced_analytics.PropCorrelationEngine.default_significance_level.

Section FourGamesRun.
Import advanced_analytics.PropCorrelationEngine.
Local Open Scope R_scope.

(** The run of the engine on the four games, with its own defaults. *)
Definition four_games_matrix : Matrix :=
  {| labels := ["QB_Pass_Yards"; "WR1_Rec_Yards"];
     loc := fun a b => pearson (column_of four_games a)
                               (column_of four_games b) |}.

Definition four_games_covariance : Matrix :=
  {| labels := ["QB_Pass_Yards"; "WR1_Rec_Yards"];
     loc := fun a b => sample_cov (column_of four_games a)
                                  (column_of four_games b) |}.

Definition four_games_engine : t :=
  {| min_sample_size := 30;
     significance_level := 5 / 100;
     correlation_matrix := Some four_games_matrix;
     covariance_matrix := Some four_games_covariance |}.

Definition four_games_pair : CorrelatedPair :=
  {| prop1 := "QB_Pass_Yards"; prop2 := "WR1_Rec_Yards";
     correlation := loc four_games_matrix "QB_Pass_Yards" "WR1_Rec_Yards";
     covariance := loc four_games_covariance "QB_Pass_Yards" "WR1_Rec_Yards";
     p_value :=
       fisher_p_value 30 (loc four_games_matrix "QB_Pass_Yards" "WR1_Rec_Yards");
     sample_size := 30 |}.

End FourGamesRun.

End Examples.

(** ** Notions used to state the properties *)

Module Notions.
Import Py NFL_pre advanced_analytics.
Local Open Scope string_scope.

(** *** Projections and parlays *)

(** [p] is what [_create_projection] builds for this player from some stat
    type, projected value and line. *)
Definition created_for (player : PlayerData.t) (p : Projection.t) : Prop :=
  exists stat_type projected line,
    _create_projection player stat_type projected line = Ok p.

(** The number of legs a lookup contributes: one if it found a projection. *)
Definition found_count {A : Type} (found : option A) : nat :=
  match found with Some _ => 1 | None => 0 end.

(** What a correctly labelled three-template parlay looks like. *)
Definition labelled_by_leg_count (parlay : CorrelatedParlay.t) : Prop :=
  let n := List.length (CorrelatedParlay.legs parlay) in
  (n = 2%nat \/ n = 3%nat) /\
  (n = 3%nat -> CorrelatedParlay.correlation_strength parlay = "Strong") /\
  (n = 2%nat -> CorrelatedParlay.correlation_strength parlay = "Moderate").

(** A posted line, with the stat type its projection is filed under. *)
Definition posted (stat_type : string) (line : option Q) : list (string * Q) :=
  match line with
  | Some l => [(stat_type, l)]
  | None => []
  end.

(** The posted lines that a player's position reads, in the order in which
    the [_project_*] methods read them. *)
Definition posted_lines (player : PlayerData.t) : list (string * Q) :=
  let lines := PlayerData.market_lines player in
  match PlayerData.position player with
  | QB =>
      (posted "Passing Yards" (MarketLines.passing_yards lines) ++
       posted "Rush Yards" (MarketLines.rush_yards lines) ++
       posted "Pass Attempts" (MarketLines.pass_attempts lines))%list
  | RB =>
      (posted "Rush Yards" (MarketLines.rush_yards lines) ++
       posted "Rush Attempts" (MarketLines.rush_attempts lines))%list
  | WR | TE =>
      (posted "Rec Yards" (MarketLines.rec_yards lines) ++
       posted "Receptions" (MarketLines.receptions lines))%list
  end.

(** The stats record is the one of the player's position. *)
Definition stats_fit (player : PlayerData.t) : bool :=
  match PlayerData.position player, PlayerData.stats player with
  | QB, OfQB _ | RB, OfRB _ | WR, OfWRTE _ | TE, OfWRTE _ => true
  | _, _ => false
  end.

Definition games_played_of (stats : Stats) : Z :=
  match stats with
  | OfQB s => QBStats.games_played s
  | OfRB s => RBStats.games_played s
  | OfWRTE s => WRTEStats.games_played s
  end.

(** The stored edge has the sign of the recommendation. *)
Definition edge_agrees (p : Projection.t) : Prop :=
  match Projection.recommendation p with
  | OVER => 0 <= Projection.edge p
  | UNDER => Projection.edge p <= 0
  end.

(** The edge of a leg has the sign of its direction. *)
Definition leg_edge_signed (leg : ParlayLeg.t) : Prop :=
  match ParlayLeg.direction leg with
  | OVER => 0 <= ParlayLeg.edge leg
  | UNDER => ParlayLeg.edge leg <= 0
  end.

(** The legs each script asks for, in order. *)
Definition template (script : GameScript) : list (string * BetType) :=
  match script with
  | TRAILING => [("Pass Attempts", OVER); ("Receptions", OVER); ("Rush Yards", UNDER)]
  | LEADING => [("Rush Attempts", OVER); ("Rush Yards", OVER); ("Pass Attempts", UNDER)]
  | EXPLOSIVE => [("Passing Yards", OVER); ("Rec Yards", OVER)]
  | NEUTRAL => []
  end.

(** The leg was taken from a projection of the list: the player, the stat
    type and the line are the projection's, and so is the magnitude of the
    edge. *)
Definition taken_from (projections : list Projection.t) (leg : ParlayLeg.t) : Prop :=
  exists proj,
    In proj projections /\
    ParlayLeg.player_name leg = Projection.player_name proj /\
    ParlayLeg.stat_type leg = Projection.stat_type proj /\
    ParlayLeg.line leg = Projection.market_line proj /\
    Qabs (ParlayLeg.edge leg) == Qabs (Projection.edge proj).

(** A projection qualifies for a lookup by position and stat type. *)
Definition matches (position : Position) (stat_type : string)
    (p : Projection.t) : Prop :=
  Projection.position p = position /\ Projection.stat_type p = stat_type.

(** A projection qualifies for a lookup by a set of positions and a stat
    type. *)
Definition candidate (positions : list Position) (stat_type : string)
    (p : Projection.t) : Prop :=
  In (Projection.position p) positions /\ Projection.stat_type p = stat_type.

(** *** Sample matrices of a parlay simulation (one row per draw, one
    column per leg) *)

(** Leg [j] of a draw strictly exceeds its line. *)
Definition leg_hits (lines row : list Q) (j : nat) : bool :=
  Qltb (nth j lines 0) (nth j row 0).

(** Every leg of a draw strictly exceeds its line. *)
Definition all_legs_hit (lines row : list Q) : bool :=
  forallb (leg_hits lines row) (seq 0 (List.length lines)).

(** The fraction of the draws that satisfy [f]. *)
Definition fraction_of_draws (f : list Q -> bool) (simulated : matrix) : Q :=
  inject_Z (Z.of_nat (List.length (filter f simulated)))
  / inject_Z (Z.of_nat (List.length simulated)).

(** The marginal over-probability of leg [j]. *)
Definition marginal (simulated : matrix) (lines : list Q) (j : nat) : Q :=
  fraction_of_draws (fun row => leg_hits lines row j) simulated.

(** The product of the marginal over-probabilities of all legs. *)
Definition product_of_marginals (simulated : matrix) (lines : list Q) : Q :=
  fold_right Qmult 1 (map (marginal simulated lines) (seq 0 (List.length lines))).

(** The fraction of the draws in which every leg exceeds its line. *)
Definition joint_frequency (simulated : matrix) (lines : list Q) : Q :=
  fraction_of_draws (all_legs_hit lines) simulated.

(** The comparison [simulated > lines], row by row. *)
Definition hit_row (lines row : list Q) : list bool :=
  zip_with (fun x l => Qltb l x) row lines.

(** A bin number below [m], so one that the loop over [range(m)] visits. *)
Definition below (m : nat) (b : Z) : bool := (0 <=? b)%Z && (b <? Z.of_nat m)%Z.

(** Column totals of [np.mean(..., axis=0)]. *)
Definition column_sum (j : nat) (rows : matrix) : Q :=
  fold_right (fun r s => nth j r 0 + s) 0 rows.

(** *** Real analysis for the normal distribution, and sorted results *)

Section Reals.
Import PropCorrelationEngine.
Local Open Scope R_scope.

(** [u^k / k!] *)
Fixpoint term (k : nat) (u : R) : R :=
  match k with
  | O => 1
  | S k' => term k' u * u / INR (S k')
  end.

(** The partial sum of the exponential series up to degree [n]. *)
Fixpoint taylor (n : nat) (u : R) : R :=
  match n with
  | O => 1
  | S n' => taylor n' u + term (S n') u
  end.

(** The derivative of [term k]. *)
Definition dterm (k : nat) (u : R) : R :=
  match k with
  | O => 0
  | S k' => term k' u
  end.

(** A polynomial by its coefficients, lowest degree first. *)
Fixpoint poly (cs : list R) (x : R) : R :=
  match cs with
  | [] => 0
  | c :: q => c + x * poly q x
  end.

(** The derivative of [poly cs], on the same coefficients. *)
Fixpoint dpoly (cs : list R) (x : R) : R :=
  match cs with
  | [] => 0
  | c :: q => poly q x + x * dpoly q x
  end.

(** An antiderivative of [taylor 7 (- t^2 / 2)] that vanishes at 0. *)
Definition gauss_lower_coefficients : list R :=
  [0; 1; 0; - / 6; 0; / 40; 0; - / 336; 0; / 3456; 0; - / 42240;
   0; / 599040; 0; - / 9676800].

(** Decreasing order of a key. *)
Definition decreasing {A : Type} (key : A -> R) (a b : A) : Prop := key b <= key a.

(** What the loop body records for a pair it keeps. *)
Definition retained (self : t) (m : Matrix) (min_correlation : R)
    (pr : CorrelatedPair) : Prop :=
  In (prop1 pr, prop2 pr) (unique_pairs (labels m)) /\
  correlation pr = loc m (prop1 pr) (prop2 pr) /\
  min_correlation <= Rabs (correlation pr) /\
  p_value pr = fisher_p_value (min_sample_size self) (correlation pr) /\
  p_value pr < significance_level self /\
  sample_size pr = min_sample_size self.

End Reals.

End Notions.

(** ** Facts about the Python primitives *)

Module PyFacts.
Import Py.

Lemma Qltb_true (x y : Q) : Qltb x y = true <-> x < y.
Proof.
  unfold Qltb. rewrite negb_true_iff.
  split; intro H.
  - apply Qnot_le_lt. intro Hle. apply Qle_bool_iff in Hle. congruence.
  - apply not_true_is_false. intro Hle. apply Qle_bool_iff in Hle.
    apply (Qlt_not_le _ _ H Hle).
Qed.

Lemma Qltb_false (x y : Q) : Qltb x y = false <-> y <= x.
Proof.
  unfold Qltb. rewrite negb_false_iff. apply Qle_bool_iff.
Qed.

(** Case analysis on a comparison, leaving the order fact in the context. *)
Lemma Qltb_cases (x y : Q) :
  (Qltb x y = true /\ x < y) \/ (Qltb x y = false /\ y <= x).
Proof.
  destruct (Qltb x y) eqn:E.
  - left. split; [reflexivity | now apply Qltb_true].
  - right. split; [reflexivity | now apply Qltb_false].
Qed.

Ltac case_Qltb x y :=
  let H := fresh "Hcmp" in
  let E := fresh "Ecmp" in
  destruct (Qltb_cases x y) as [[E H] | [E H]]; rewrite ?E in *.

Lemma div_ok (a b : Q) : ~ b == 0 -> div a b = Ok (a / b).
Proof.
  intro Hb. unfold div. destruct (Qeq_bool b 0) eqn:E; [|reflexivity].
  apply Qeq_bool_iff in E. contradiction.
Qed.

Lemma div_inv (a b q : Q) : div a b = Ok q -> ~ b == 0 /\ q = a / b.
Proof.
  unfold div. destruct (Qeq_bool b 0) eqn:E; [discriminate|].
  intro H. injection H as <-. split; [|reflexivity].
  intro Hb. apply Qeq_bool_iff in Hb. congruence.
Qed.

(** The nearest integer is at most one half away. *)
Lemma round_half_even_near (x : Q) :
  Qabs (inject_Z (round_half_even x) - x) <= 1 # 2.
Proof.
  unfold round_half_even.
  pose proof (Qfloor_le x) as Hlo.
  pose proof (Qlt_floor x) as Hhi.
  rewrite inject_Z_plus in Hhi. change (inject_Z 1) with 1 in Hhi.
  set (f := Qfloor x) in *.
  assert (Hdown : Qabs (inject_Z f - x) == x - inject_Z f).
  { rewrite Qabs_neg by lra. lra. }
  assert (Hup : Qabs (inject_Z (f + 1) - x) == inject_Z f + 1 - x).
  { rewrite inject_Z_plus. change (inject_Z 1) with 1.
    rewrite Qabs_pos by lra. lra. }
  destruct (x - inject_Z f ?= 1 # 2) eqn:E.
  - apply Qeq_alt in E.
    destruct (Z.even f); [rewrite Hdown | rewrite Hup]; lra.
  - apply Qlt_alt in E. rewrite Hdown. lra.
  - apply Qgt_alt in E. rewrite Hup. lra.
Qed.

Lemma pow10_pos (n : nat) : 0 < pow10 n.
Proof.
  unfold pow10. change 0 with (inject_Z 0). rewrite <- Zlt_Qlt.
  apply Z.pow_pos_nonneg; lia.
Qed.

(** [round(x, n)] moves [x] by at most half a unit of the last digit. *)
Lemma round_near (x : Q) (n : nat) :
  Qabs (round x n - x) <= (1 # 2) / pow10 n.
Proof.
  unfold round.
  pose proof (pow10_pos n) as Hp.
  pose proof (round_half_even_near (x * pow10 n)) as H.
  set (r := inject_Z (round_half_even (x * pow10 n))) in *.
  assert (E : r / pow10 n - x == (r - x * pow10 n) / pow10 n).
  { field. lra. }
  rewrite E. unfold Qdiv at 1. rewrite Qabs_Qmult.
  rewrite (Qabs_pos (/ pow10 n)).
  - unfold Qdiv. apply Qmult_le_compat_r; [exact H|].
    apply Qlt_le_weak, Qinv_lt_0_compat, Hp.
  - apply Qlt_le_weak, Qinv_lt_0_compat, Hp.
Qed.

End PyFacts.

(** ** Properties of NFL_pre.py *)

Module NFL_pre_spec.
Import Py PyFacts NFL_pre Notions.
Local Open Scope string_scope.

Ltac unfold_config :=
  unfold Config.MIN_EDGE_FOR_CONFIDENCE, Config.MAX_EDGE_FOR_CONFIDENCE,
    Config.TRAILING_SCRIPT_SPREAD, Config.LEADING_SCRIPT_SPREAD,
    Config.EXPLOSIVE_TOTAL_THRESHOLD in *.

(** *** Projections: edge and recommendation *)

(** What [_create_projection] stores, for a non-zero line. *)
Lemma create_projection_fields (player : PlayerData.t) (stat_type : string)
    (projected line : Q) :
  ~ line == 0 ->
  exists p,
    _create_projection player stat_type projected line = Ok p /\
    Projection.market_line p = line /\
    Projection.projected_value p = round projected 1 /\
    Projection.edge p = round ((projected - line) / line * 100) 2 /\
    Projection.recommendation p = (if Qltb line projected then OVER else UNDER) /\
    Projection.confidence p =
      round (_calculate_confidence (Qabs ((projected - line) / line * 100))) 1.
Proof.
  intro Hline. unfold _create_projection. rewrite (div_ok _ _ Hline). simpl.
  eexists. split; [reflexivity|]. simpl. repeat split.
Qed.

(** A zero line makes the edge computation raise. *)
Lemma create_projection_zero_line (player : PlayerData.t) (stat_type : string)
    (projected line : Q) :
  line == 0 ->
  _create_projection player stat_type projected line = Raise ZeroDivisionError.
Proof.
  intro Hline. unfold _create_projection, div.
  apply Qeq_bool_iff in Hline. rewrite Hline. reflexivity.
Qed.

(** C1, as stated, fails: the stored edge is the exact percentage rounded to
    two decimals.  With projected 237.16 against a line of 245.5 the exact
    edge is -3.3971...; the projection stores -3.4. *)
Lemma create_projection_edge_not_exact :
  exists p,
    _create_projection Examples.passer "Passing Yards" (23716 # 100) (2455 # 10) = Ok p /\
    Projection.edge p == - (34 # 10) /\
    ~ Projection.edge p == ((23716 # 100) - (2455 # 10)) / (2455 # 10) * 100.
Proof.
  eexists. split; [reflexivity|]. split.
  - vm_compute. reflexivity.
  - vm_compute. discriminate.
Qed.

(** C1 (amended): for a non-zero line, [_create_projection] returns a
    projection whose stored edge is (projected - line) / line * 100 rounded
    to two decimals, hence within 0.005 of the exact percentage, and whose
    recommendation is Over exactly when the unrounded projected value
    exceeds the line. *)
Theorem create_projection_edge_rounded (player : PlayerData.t) (stat_type : string)
    (projected line : Q) :
  ~ line == 0 ->
  exists p,
    _create_projection player stat_type projected line = Ok p /\
    Projection.edge p = round ((projected - line) / line * 100) 2 /\
    Qabs (Projection.edge p - (projected - line) / line * 100) <= 5 # 1000 /\
    (Projection.recommendation p = OVER <-> line < projected) /\
    (Projection.recommendation p = UNDER <-> projected <= line).
Proof.
  intro Hline.
  destruct (create_projection_fields player stat_type projected line Hline)
    as (p & Hp & _ & _ & Hedge & Hrec & _).
  exists p. split; [exact Hp|]. split; [exact Hedge|]. split.
  - rewrite Hedge.
    pose proof (round_near ((projected - line) / line * 100) 2) as H.
    change ((1 # 2) / pow10 2) with ((1 # 2) / 100) in H.
    assert (E : (1 # 2) / 100 == 5 # 1000) by reflexivity.
    rewrite E in H. exact H.
  - rewrite Hrec. case_Qltb line projected; split; split; intro H;
      try reflexivity; try discriminate; try assumption; lra.
Qed.

Lemma create_projection_edge_rounded_witness :
  exists p,
    _create_projection Examples.passer "Passing Yards" (23716 # 100) (2455 # 10) = Ok p /\
    Projection.edge p = round (((23716 # 100) - (2455 # 10)) / (2455 # 10) * 100) 2 /\
    Qabs (Projection.edge p - ((23716 # 100) - (2455 # 10)) / (2455 # 10) * 100) <= 5 # 1000 /\
    (Projection.recommendation p = OVER <-> (2455 # 10) < (23716 # 100)) /\
    (Projection.recommendation p = UNDER <-> (23716 # 100) <= (2455 # 10)).
Proof.
  apply (create_projection_edge_rounded Examples.passer "Passing Yards"
           (23716 # 100) (2455 # 10)).
  intro H. discriminate H.
Defined.

Lemma with_line_created (player : PlayerData.t) (acc : list Projection.t)
    (line : option Q) (block : Q -> result Projection.t) (ps : list Projection.t) :
  (forall l p, block l = Ok p -> created_for player p) ->
  Forall (created_for player) acc ->
  with_line acc line block = Ok ps ->
  Forall (created_for player) ps.
Proof.
  intros Hblock Hacc. unfold with_line. destruct line as [l|].
  - destruct (block l) as [p|e] eqn:E; simpl; [|discriminate].
    intro H. injection H as <-. apply Forall_app. split; [exact Hacc|].
    constructor; [|constructor]. exact (Hblock l p E).
  - intro H. injection H as <-. exact Hacc.
Qed.

Ltac bind_inv H :=
  match type of H with
  | bind ?m _ = Ok _ =>
      let E := fresh "E" in
      destruct m eqn:E; simpl in H; [|discriminate H]
  end.

Ltac created_block :=
  let l := fresh "l" in
  let p := fresh "p" in
  let H := fresh "H" in
  intros l p H; eexists _, _, _; exact H.

Lemma generate_projections_created (self : PredictionEngine)
    (player : PlayerData.t) (ps : list Projection.t) :
  generate_projections self player = Ok ps ->
  Forall (created_for player) ps.
Proof.
  unfold generate_projections.
  destruct (game_context self) as [ctx|]; [|discriminate].
  destruct (PlayerData.position player), (PlayerData.stats player);
    try discriminate; intro H.
  - unfold _project_qb in H. repeat bind_inv H.
    eapply with_line_created; [| |exact H]; [created_block|].
    eapply with_line_created; [| |eassumption]; [created_block|].
    eapply with_line_created; [| |eassumption]; [created_block|constructor].
  - unfold _project_rb in H. repeat bind_inv H.
    eapply with_line_created; [| |exact H]; [created_block|].
    eapply with_line_created; [| |eassumption]; [created_block|constructor].
  - unfold _project_wr_te in H. repeat bind_inv H.
    eapply with_line_created; [| |exact H]; [created_block|].
    eapply with_line_created; [| |eassumption]; [created_block|constructor].
  - unfold _project_wr_te in H. repeat bind_inv H.
    eapply with_line_created; [| |exact H]; [created_block|].
    eapply with_line_created; [| |eassumption]; [created_block|constructor].
Qed.

(** Hence every generated projection has a non-zero line, an edge within
    0.005 of the exact percentage of some projected value, and the
    recommendation that compares that value with the line. *)
Lemma generated_projection_edge (self : PredictionEngine)
    (player : PlayerData.t) (ps : list Projection.t) (p : Projection.t) :
  generate_projections self player = Ok ps ->
  In p ps ->
  exists projected,
    let line := Projection.market_line p in
    ~ line == 0 /\
    Projection.projected_value p = round projected 1 /\
    Projection.edge p = round ((projected - line) / line * 100) 2 /\
    Projection.recommendation p = (if Qltb line projected then OVER else UNDER).
Proof.
  intros Hgen Hin.
  pose proof (generate_projections_created self player ps Hgen) as Hall.
  rewrite Forall_forall in Hall.
  destruct (Hall p Hin) as (stat_type & projected & line & Hp).
  exists projected.
  destruct (Qeq_dec line 0) as [Hz|Hnz].
  - rewrite (create_projection_zero_line _ _ _ _ Hz) in Hp. discriminate.
  - destruct (create_projection_fields player stat_type projected line Hnz)
      as (q & Hq & Hl & Hv & He & Hr & _).
    rewrite Hq in Hp. injection Hp as <-.
    cbv zeta. rewrite Hl. repeat split; assumption.
Qed.

(** *** Per-stat confidence *)

Lemma calculate_confidence_low (e : Q) :
  e < 2 -> _calculate_confidence e = 35 + e / 2 * 15.
Proof.
  intro H. unfold _calculate_confidence. unfold_config.
  apply Qltb_true in H. rewrite H. reflexivity.
Qed.

Lemma calculate_confidence_mid (e : Q) :
  2 <= e -> e <= 15 -> _calculate_confidence e = 50 + (e - 2) / (15 - 2) * 45.
Proof.
  intros H2 H15. unfold _calculate_confidence. unfold_config.
  apply Qltb_false in H2. apply Qltb_false in H15. rewrite H2, H15. reflexivity.
Qed.

Lemma calculate_confidence_high (e : Q) :
  15 < e -> _calculate_confidence e = 95.
Proof.
  intro H. unfold _calculate_confidence. unfold_config.
  assert (H2 : Qltb e 2 = false) by (apply Qltb_false; lra).
  apply Qltb_true in H. rewrite H2, H. reflexivity.
Qed.

(** The three branches, as one case split on the edge magnitude, with the
    quotients by constants multiplied out. *)
Lemma calculate_confidence_cases (e : Q) :
  (e < 2 /\ _calculate_confidence e == 35 + (15 # 2) * e) \/
  (2 <= e /\ e <= 15 /\ _calculate_confidence e == 50 + (45 # 13) * (e - 2)) \/
  (15 < e /\ _calculate_confidence e == 95).
Proof.
  destruct (Qlt_le_dec e 2) as [H|H].
  - left. split; [exact H|]. rewrite (calculate_confidence_low e H). field.
  - destruct (Qlt_le_dec 15 e) as [H'|H'].
    + right. right. split; [exact H'|].
      rewrite (calculate_confidence_high e H'). reflexivity.
    + right. left. split; [exact H|]. split; [exact H'|].
      rewrite (calculate_confidence_mid e H H'). field.
Qed.

Lemma calculate_confidence_range (e : Q) :
  0 <= e -> 35 <= _calculate_confidence e /\ _calculate_confidence e <= 95.
Proof.
  intro H0.
  destruct (calculate_confidence_cases e) as [[H E]|[(H & H' & E)|[H E]]];
    rewrite E; split; lra.
Qed.

Lemma calculate_confidence_monotone (e1 e2 : Q) :
  0 <= e1 -> e1 <= e2 -> _calculate_confidence e1 <= _calculate_confidence e2.
Proof.
  intros H0 Hle.
  destruct (calculate_confidence_cases e1) as [[H1 E1]|[(H1 & H1' & E1)|[H1 E1]]];
  destruct (calculate_confidence_cases e2) as [[H2 E2]|[(H2 & H2' & E2)|[H2 E2]]];
    rewrite E1, E2; lra.
Qed.

(** C2: for an edge magnitude [e >= 0] the per-stat confidence is
    35 + (e/2)*15 below 2, 50 + ((e-2)/13)*45 from 2 to 15, and 95 at or
    above 15; it lies in [35, 95] and is non-decreasing in [e]. *)
Theorem calculate_confidence_piecewise (e : Q) :
  0 <= e ->
  (e < 2 -> _calculate_confidence e == 35 + e / 2 * 15) /\
  (2 <= e -> e <= 15 -> _calculate_confidence e == 50 + (e - 2) / 13 * 45) /\
  (15 <= e -> _calculate_confidence e == 95) /\
  (35 <= _calculate_confidence e /\ _calculate_confidence e <= 95) /\
  (forall e', e <= e' -> _calculate_confidence e <= _calculate_confidence e').
Proof.
  intro H0. repeat split.
  - intro H. rewrite (calculate_confidence_low e H). reflexivity.
  - intros H H'. rewrite (calculate_confidence_mid e H H'). field.
  - intro H.
    destruct (calculate_confidence_cases e) as [[H1 E]|[(H1 & H1' & E)|[H1 E]]];
      rewrite E; lra.
  - apply calculate_confidence_range, H0.
  - apply calculate_confidence_range, H0.
  - intros e' Hle. apply calculate_confidence_monotone; assumption.
Qed.

Lemma calculate_confidence_piecewise_witness :
  (1 < 2 -> _calculate_confidence 1 == 35 + 1 / 2 * 15) /\
  (2 <= 1 -> 1 <= 15 -> _calculate_confidence 1 == 50 + (1 - 2) / 13 * 45) /\
  (15 <= 1 -> _calculate_confidence 1 == 95) /\
  (35 <= _calculate_confidence 1 /\ _calculate_confidence 1 <= 95) /\
  (forall e', 1 <= e' -> _calculate_confidence 1 <= _calculate_confidence e').
Proof.
  apply (calculate_confidence_piecewise 1). discriminate.
Defined.

(** The branches at sample magnitudes: 1 gives 42.5, 2 gives 50, 8.5 gives
    72.5, 15 gives 95 and 40 gives 95. *)
Example calculate_confidence_samples :
  _calculate_confidence 1 == 425 # 10 /\
  _calculate_confidence 2 == 50 /\
  _calculate_confidence (85 # 10) == 725 # 10 /\
  _calculate_confidence 15 == 95 /\
  _calculate_confidence 40 == 95.
Proof. repeat split. Qed.

(** *** Game script *)

(** C3: the game script is Trailing when spread > 6.5, Leading when
    spread < -6.5, otherwise Explosive when total > 49.5, otherwise Neutral;
    spread 8 gives Trailing, spread -8 Leading, spread 0 with total 52
    Explosive and spread 0 with total 44 Neutral. *)
Theorem determine_game_script_rule :
  (forall self : CorrelationEngine,
     let s := spread (ce_game_context self) in
     let t := total (ce_game_context self) in
     (65 # 10 < s -> determine_game_script self = TRAILING) /\
     (s < - (65 # 10) -> determine_game_script self = LEADING) /\
     (- (65 # 10) <= s -> s <= 65 # 10 -> 495 # 10 < t ->
        determine_game_script self = EXPLOSIVE) /\
     (- (65 # 10) <= s -> s <= 65 # 10 -> t <= 495 # 10 ->
        determine_game_script self = NEUTRAL)) /\
  (forall t rank,
     determine_game_script {| ce_game_context := Examples.context 8 t rank |} = TRAILING /\
     determine_game_script {| ce_game_context := Examples.context (-8) t rank |} = LEADING) /\
  (forall rank,
     determine_game_script {| ce_game_context := Examples.context 0 52 rank |} = EXPLOSIVE /\
     determine_game_script {| ce_game_context := Examples.context 0 44 rank |} = NEUTRAL).
Proof.
  split; [|split].
  - intros self s t. unfold determine_game_script. unfold_config.
    fold s t. repeat split.
    + intro H. apply Qltb_true in H. rewrite H. reflexivity.
    + intro H.
      assert (H1 : Qltb (65 # 10) s = false) by (apply Qltb_false; lra).
      apply Qltb_true in H. rewrite H1, H. reflexivity.
    + intros Hlo Hhi Ht. apply Qltb_false in Hlo, Hhi. apply Qltb_true in Ht.
      rewrite Hhi, Hlo, Ht. reflexivity.
    + intros Hlo Hhi Ht. apply Qltb_false in Hlo, Hhi, Ht.
      rewrite Hhi, Hlo, Ht. reflexivity.
  - intros t rank. split; reflexivity.
  - intros rank. split; reflexivity.
Qed.

(** *** Parlay labels *)

Lemma found_count_le_1 {A : Type} (found : option A) : (found_count found <= 1)%nat.
Proof. destruct found; simpl; lia. Qed.

Lemma add_leg_length (legs : list ParlayLeg.t) (found : option Projection.t)
    (stat_type : string) (direction keep : BetType) :
  List.length (add_leg legs found stat_type direction keep) =
  (List.length legs + found_count found)%nat.
Proof.
  destruct found; simpl; [|lia]. rewrite length_app. reflexivity.
Qed.

Ltac bound_found_counts :=
  repeat match goal with
         | |- context [found_count ?o] =>
             let H := fresh "Hfound" in
             pose proof (found_count_le_1 o) as H;
             generalize dependent (found_count o); intros
         end.

Lemma build_trailing_parlay_label (projections : list Projection.t)
    (parlay : CorrelatedParlay.t) :
  _build_trailing_parlay projections = Some parlay ->
  CorrelatedParlay.game_script parlay = TRAILING /\ labelled_by_leg_count parlay.
Proof.
  unfold _build_trailing_parlay, labelled_by_leg_count.
  set (legs := add_leg _ _ _ _ _).
  assert (Hlen : (List.length legs <= 3)%nat).
  { unfold legs. rewrite !add_leg_length. simpl.
    bound_found_counts; lia. }
  destruct (2 <=? List.length legs)%nat eqn:E; [|discriminate].
  apply Nat.leb_le in E. intro H. injection H as <-. simpl.
  split; [reflexivity|]. split; [lia|]. split; intro Hn; rewrite Hn; reflexivity.
Qed.

Lemma build_leading_parlay_label (projections : list Projection.t)
    (parlay : CorrelatedParlay.t) :
  _build_leading_parlay projections = Some parlay ->
  CorrelatedParlay.game_script parlay = LEADING /\ labelled_by_leg_count parlay.
Proof.
  unfold _build_leading_parlay, labelled_by_leg_count.
  set (legs := add_leg _ _ _ _ _).
  assert (Hlen : (List.length legs <= 3)%nat).
  { unfold legs. rewrite !add_leg_length. simpl.
    bound_found_counts; lia. }
  destruct (2 <=? List.length legs)%nat eqn:E; [|discriminate].
  apply Nat.leb_le in E. intro H. injection H as <-. simpl.
  split; [reflexivity|]. split; [lia|]. split; intro Hn; rewrite Hn; reflexivity.
Qed.

Lemma build_explosive_parlay_label (projections : list Projection.t)
    (parlay : CorrelatedParlay.t) :
  _build_explosive_parlay projections = Some parlay ->
  CorrelatedParlay.game_script parlay = EXPLOSIVE /\
  List.length (CorrelatedParlay.legs parlay) = 2%nat /\
  CorrelatedParlay.correlation_strength parlay = "Strong".
Proof.
  unfold _build_explosive_parlay.
  set (legs := add_leg _ _ _ _ _).
  assert (Hlen : (List.length legs <= 2)%nat).
  { unfold legs. rewrite !add_leg_length. simpl.
    bound_found_counts; lia. }
  destruct (2 <=? List.length legs)%nat eqn:E; [|discriminate].
  apply Nat.leb_le in E. intro H. injection H as <-. simpl.
  split; [reflexivity|]. split; [lia|reflexivity].
Qed.

Lemma in_add_parlay (parlays : list CorrelatedParlay.t)
    (built : option CorrelatedParlay.t) (parlay : CorrelatedParlay.t) :
  In parlay (add_parlay parlays built) ->
  In parlay parlays \/ built = Some parlay.
Proof.
  destruct built as [q|]; simpl; [|tauto].
  intro H. apply in_app_or in H. destruct H as [H|[H|[]]]; [tauto|].
  right. congruence.
Qed.

(** Every parlay of [find_correlated_parlays] comes from one of the three
    builders. *)
Lemma find_correlated_parlays_built (self : CorrelationEngine)
    (projections : list Projection.t) (parlay : CorrelatedParlay.t) :
  In parlay (find_correlated_parlays self projections) ->
  _build_trailing_parlay projections = Some parlay \/
  _build_leading_parlay projections = Some parlay \/
  _build_explosive_parlay projections = Some parlay.
Proof.
  unfold find_correlated_parlays.
  destruct (negb _ && _); destruct (determine_game_script self); intro H;
    repeat (apply in_add_parlay in H; destruct H as [H|H]);
    try contradiction; tauto.
Qed.

(** C5, as stated, fails: with spread 0 and total 52 the passer and the
    receiver give one Explosive parlay, which has two legs and is labelled
    "Strong". *)
Lemma explosive_parlay_two_legs_strong :
  exists parlay,
    _run_analysis (Examples.context 0 52 16)
      [Examples.passer; Examples.receiver] = Ok [parlay] /\
    CorrelatedParlay.game_script parlay = EXPLOSIVE /\
    List.length (CorrelatedParlay.legs parlay) = 2%nat /\
    CorrelatedParlay.correlation_strength parlay = "Strong" /\
    CorrelatedParlay.correlation_strength parlay <> "Moderate".
Proof.
  eexists. split; [vm_compute; reflexivity|].
  repeat split. discriminate.
Qed.

(** C5 (amended): every Trailing or Leading parlay has two or three legs and
    is labelled "Strong" with three legs and "Moderate" with two; every
    Explosive parlay has exactly two legs and is labelled "Strong". *)
Theorem correlation_strength_label (self : CorrelationEngine)
    (projections : list Projection.t) (parlay : CorrelatedParlay.t) :
  In parlay (find_correlated_parlays self projections) ->
  let n := List.length (CorrelatedParlay.legs parlay) in
  let label := CorrelatedParlay.correlation_strength parlay in
  match CorrelatedParlay.game_script parlay with
  | TRAILING | LEADING =>
      (n = 2%nat \/ n = 3%nat) /\
      (n = 3%nat -> label = "Strong") /\ (n = 2%nat -> label = "Moderate")
  | EXPLOSIVE => n = 2%nat /\ label = "Strong"
  | NEUTRAL => False
  end.
Proof.
  intro Hin.
  destruct (find_correlated_parlays_built self projections parlay Hin)
    as [H|[H|H]].
  - apply build_trailing_parlay_label in H. destruct H as [-> H]. exact H.
  - apply build_leading_parlay_label in H. destruct H as [-> H]. exact H.
  - apply build_explosive_parlay_label in H. destruct H as (-> & H). exact H.
Qed.

Lemma correlation_strength_label_witness :
  let parlays :=
    find_correlated_parlays {| ce_game_context := Examples.context 8 44 16 |}
      Examples.trailing_projections in
  List.length parlays = 1%nat /\
  Forall (fun parlay =>
            CorrelatedParlay.game_script parlay = TRAILING /\
            List.length (CorrelatedParlay.legs parlay) = 3%nat /\
            CorrelatedParlay.correlation_strength parlay = "Strong") parlays.
Proof.
  split; [reflexivity|].
  apply Forall_forall. intros parlay Hin.
  pose proof (correlation_strength_label
                {| ce_game_context := Examples.context 8 44 16 |}
                Examples.trailing_projections parlay Hin) as H.
  cbv zeta in H.
  destruct Hin as [<-|[]]. split; [reflexivity|]. split; [reflexivity|].
  apply H. reflexivity.
Defined.

(** *** Confidence ranges *)

Lemma min2_le_r (a b : Q) : min2 a b <= b.
Proof. unfold min2. case_Qltb b a; lra. Qed.

Lemma min2_le_l (a b : Q) : min2 a b <= a.
Proof. unfold min2. case_Qltb b a; lra. Qed.

(** The cap: no combined confidence exceeds 95. *)
Lemma calculate_parlay_confidence_upper (legs : list ParlayLeg.t) :
  _calculate_parlay_confidence legs <= 95.
Proof.
  unfold _calculate_parlay_confidence. destruct legs as [|leg legs].
  - discriminate.
  - apply min2_le_r.
Qed.

(** Rounding to an integer stays between integer bounds. *)
Lemma round_half_even_between (lo hi : Z) (x : Q) :
  inject_Z lo <= x -> x <= inject_Z hi ->
  (lo <= round_half_even x <= hi)%Z.
Proof.
  intros Hlo Hhi. unfold round_half_even.
  pose proof (Qfloor_le x) as Hfl.
  pose proof (Qlt_floor x) as Hfu.
  assert (Hf1 : (lo <= Qfloor x)%Z).
  { rewrite <- (Qfloor_Z lo). apply Qfloor_resp_le, Hlo. }
  assert (Hf2 : (Qfloor x <= hi)%Z).
  { rewrite <- (Qfloor_Z hi). apply Qfloor_resp_le, Hhi. }
  assert (Hup : inject_Z (Qfloor x) < x -> (Qfloor x + 1 <= hi)%Z).
  { intro Hlt. apply Z.le_succ_l. rewrite Zlt_Qlt. lra. }
  set (f := Qfloor x) in *.
  destruct (x - inject_Z f ?= 1 # 2)%Q eqn:E.
  - apply Qeq_alt in E. destruct (Z.even f); [lia|].
    assert (inject_Z f < x) by lra. specialize (Hup H). lia.
  - lia.
  - apply Qgt_alt in E. assert (inject_Z f < x) by lra. specialize (Hup H). lia.
Qed.

(** The stored per-stat confidence, rounded to one decimal, is within
    [35, 95]. *)
Lemma stored_confidence_range (e : Q) :
  0 <= e ->
  35 <= round (_calculate_confidence e) 1 /\ round (_calculate_confidence e) 1 <= 95.
Proof.
  intro H0. destruct (calculate_confidence_range e H0) as [Hlo Hhi].
  unfold round. change (pow10 1) with 10.
  destruct (round_half_even_between 350 950 (_calculate_confidence e * 10))
    as [Hl Hh].
  - change (inject_Z 350) with 350. lra.
  - change (inject_Z 950) with 950. lra.
  - rewrite Zle_Qle in Hl, Hh.
    change (inject_Z 350) with 350 in Hl. change (inject_Z 950) with 950 in Hh.
    set (r := inject_Z (round_half_even (_calculate_confidence e * 10))) in *.
    split.
    + apply Qle_shift_div_l; lra.
    + apply Qle_shift_div_r; lra.
Qed.

(** Every projection built by [_create_projection] carries a confidence in
    [35, 95], so in [0, 100]. *)
Lemma projection_confidence_range (player : PlayerData.t) (stat_type : string)
    (projected line : Q) (p : Projection.t) :
  _create_projection player stat_type projected line = Ok p ->
  35 <= Projection.confidence p /\ Projection.confidence p <= 95.
Proof.
  intro Hp. destruct (Qeq_dec line 0) as [Hz|Hnz].
  - rewrite (create_projection_zero_line _ _ _ _ Hz) in Hp. discriminate.
  - destruct (create_projection_fields player stat_type projected line Hnz)
      as (q & Hq & _ & _ & _ & _ & Hc).
    rewrite Hq in Hp. injection Hp as <-. rewrite Hc.
    apply stored_confidence_range, Qabs_nonneg.
Qed.

(** C4 fails on the code at its lower bound.  Spread 8 is a Trailing
    script; the passer's attempts (32.4 projected, line 32.5) enter as an
    Over leg with edge +0.31 and the carrier's rushing yards (88 projected,
    line 55) as the forced Under leg with edge -60.  The combined
    confidence is 50 + 2 * (-29.845) + 5 = -4.69, below 0. *)
Theorem parlay_confidence_below_zero :
  exists parlay,
    _run_analysis (Examples.context 8 44 16)
      [Examples.passer; Examples.carrier] = Ok [parlay] /\
    Forall2 Qeq (map ParlayLeg.edge (CorrelatedParlay.legs parlay)) [31 # 100; - (60 # 1)] /\
    CorrelatedParlay.combined_confidence parlay == - (469 # 100) /\
    CorrelatedParlay.combined_confidence parlay < 0.
Proof.
  eexists. split; [vm_compute; reflexivity|].
  split; [|split]; [repeat constructor| |]; vm_compute; reflexivity.
Qed.


(** *** The strategy: blend and matchup modifier *)


(** X2: the matchup modifier scales a value by 0.88 against a defense ranked
    1 to 5, by 1.12 against one ranked 28 to 32, and returns it unchanged
    for every other rank (ranks outside 1..32 included); a non-negative
    value therefore stays within 12% of itself. *)
Theorem dvoa_modifier_factor (value : Q) (rank : Z) :
  let modified := @apply_dvoa_modifier StandardPredictionStrategy value rank in
  ((1 <= rank <= 5)%Z -> modified = value * (88 # 100)) /\
  ((28 <= rank <= 32)%Z -> modified = value * (112 # 100)) /\
  ((rank < 1 \/ 5 < rank < 28 \/ 32 < rank)%Z -> modified = value) /\
  (0 <= value -> value * (88 # 100) <= modified /\ modified <= value * (112 # 100)).
Proof.
  cbn [apply_dvoa_modifier StandardPredictionStrategy].
  unfold Config.ELITE_DEFENSE_THRESHOLD, Config.POOR_DEFENSE_THRESHOLD,
    Config.ELITE_DEFENSE_DAMPER, Config.POOR_DEFENSE_BOOST.
  destruct (1 <=? rank)%Z eqn:E1; destruct (rank <=? 5)%Z eqn:E5;
  destruct (28 <=? rank)%Z eqn:E28; destruct (rank <=? 32)%Z eqn:E32;
    cbn [andb];
    rewrite ?Z.leb_le, ?Z.leb_gt in *;
    (repeat split; intros; try reflexivity; try lia; try lra).
Qed.

(** *** What [generate_projections] returns *)

Lemma with_line_inv (acc : list Projection.t) (line : option Q)
    (block : Q -> result Projection.t) (ps : list Projection.t) :
  with_line acc line block = Ok ps ->
  match line with
  | Some l => exists p, block l = Ok p /\ ps = (acc ++ [p])%list
  | None => ps = acc
  end.
Proof.
  unfold with_line. destruct line as [l|].
  - destruct (block l) as [p|e]; simpl; [|discriminate].
    intro H. injection H as <-. exists p. split; reflexivity.
  - intro H. injection H as <-. reflexivity.
Qed.

(** Everything [_create_projection] stores. *)
Lemma create_projection_inv (player : PlayerData.t) (stat_type : string)
    (projected line : Q) (p : Projection.t) :
  _create_projection player stat_type projected line = Ok p ->
  ~ line == 0 /\
  p = {| Projection.player_name := PlayerData.name player;
         Projection.position := PlayerData.position player;
         Projection.stat_type := stat_type;
         Projection.projected_value := round projected 1;
         Projection.market_line := line;
         Projection.edge := round ((projected - line) / line * 100) 2;
         Projection.recommendation := if Qltb line projected then OVER else UNDER;
         Projection.confidence :=
           round (_calculate_confidence (Qabs ((projected - line) / line * 100))) 1 |}.
Proof.
  unfold _create_projection.
  destruct (div (projected - line) line) as [q|e] eqn:E; simpl; [|discriminate].
  apply div_inv in E. destruct E as [Hnz ->].
  intro H. injection H as <-. split; [exact Hnz | reflexivity].
Qed.

Ltac with_line_cases :=
  repeat match goal with
         | H : with_line _ ?line _ = Ok _ |- _ =>
             apply with_line_inv in H;
             destruct line as [?l|];
             [destruct H as (?p & ?Hp & ->) | subst]
         end.

(** The projections of a player pair off with the posted lines of the
    position, each built by [_create_projection] from its line. *)
Lemma generate_projections_inv (self : PredictionEngine) (player : PlayerData.t)
    (ps : list Projection.t) :
  generate_projections self player = Ok ps ->
  Forall2 (fun p sl =>
             exists projected,
               _create_projection player (fst sl) projected (snd sl) = Ok p)
          ps (posted_lines player).
Proof.
  unfold generate_projections, posted_lines.
  destruct (game_context self) as [ctx|]; [|discriminate].
  destruct (PlayerData.position player), (PlayerData.stats player);
    try discriminate; intro H;
    unfold _project_qb, _project_rb, _project_wr_te in H;
    repeat bind_inv H; with_line_cases;
    cbn [posted app]; repeat constructor; eexists; eassumption.
Qed.


(** X3: a player's projections are exactly the posted lines of the player's
    position, in the order passing yards, rush yards, pass attempts for a
    quarterback, rush yards, rush attempts for a running back, and
    receiving yards, receptions for a receiver or tight end: one projection
    per posted line, filed under that stat type and carrying that line, the
    player's name and position.  Lines posted for another position's stats
    are ignored, and no returned projection has a zero line. *)
Theorem generate_projections_lines (self : PredictionEngine) (player : PlayerData.t)
    (ps : list Projection.t) :
  generate_projections self player = Ok ps ->
  map (fun p => (Projection.stat_type p, Projection.market_line p)) ps
    = posted_lines player /\
  Forall (fun p => Projection.player_name p = PlayerData.name player /\
                   Projection.position p = PlayerData.position player /\
                   ~ Projection.market_line p == 0) ps.
Proof.
  intro H. apply generate_projections_inv in H.
  induction H as [|p [stat_type line] ps sls (projected & Hp) _ [IHmap IHall]].
  - split; [reflexivity | constructor].
  - apply create_projection_inv in Hp. destruct Hp as [Hnz ->].
    cbn [fst snd] in *. split.
    + cbn [map Projection.stat_type Projection.market_line]. now rewrite IHmap.
    + constructor; [|exact IHall]. repeat split. exact Hnz.
Qed.

Lemma generate_projections_lines_witness :
  exists ps,
    generate_projections (set_game_context new_engine (Examples.context 0 44 16))
      Examples.passer = Ok ps /\
    map (fun p => (Projection.stat_type p, Projection.market_line p)) ps
      = [("Passing Yards", 2455 # 10); ("Pass Attempts", 325 # 10)].
Proof.
  destruct (generate_projections (set_game_context new_engine (Examples.context 0 44 16))
              Examples.passer) as [ps|e] eqn:E; [|discriminate E].
  exists ps. split; [reflexivity|].
  exact (proj1 (generate_projections_lines _ _ ps E)).
Defined.

Lemma Qeq_bool_inject_Z (g : Z) : Qeq_bool (inject_Z g) 0 = (g =? 0)%Z.
Proof.
  destruct (g =? 0)%Z eqn:E.
  - apply Z.eqb_eq in E. subst g. reflexivity.
  - apply Z.eqb_neq in E. apply not_true_is_false. intro H.
    apply Qeq_bool_iff in H. unfold Qeq in H. simpl in H. lia.
Qed.

Lemma with_line_posted (acc : list Projection.t) (stat_type : string)
    (line : option Q) (block : Q -> result Projection.t) :
  (forall l, Qeq_bool l 0 = true -> block l = Raise ZeroDivisionError) ->
  (forall l, Qeq_bool l 0 = false -> exists p, block l = Ok p) ->
  if existsb (fun sl => Qeq_bool (snd sl) 0) (posted stat_type line)
  then with_line acc line block = Raise ZeroDivisionError
  else exists ps, with_line acc line block = Ok ps.
Proof.
  intros Hzero Hnonzero. unfold with_line, posted. destruct line as [l|].
  - cbn [existsb snd orb]. rewrite orb_false_r.
    destruct (Qeq_bool l 0) eqn:E.
    + rewrite (Hzero l E). reflexivity.
    + destruct (Hnonzero l E) as [p ->]. simpl. eexists. reflexivity.
  - simpl. eexists. reflexivity.
Qed.

Lemma create_projection_outcome (player : PlayerData.t) (stat_type : string)
    (projected : Q -> Q) :
  (forall l, Qeq_bool l 0 = true ->
     _create_projection player stat_type (projected l) l = Raise ZeroDivisionError) /\
  (forall l, Qeq_bool l 0 = false ->
     exists p, _create_projection player stat_type (projected l) l = Ok p).
Proof.
  split; intros l E; unfold _create_projection, div; rewrite E; simpl.
  - reflexivity.
  - eexists. reflexivity.
Qed.

(** Two optional blocks in a row. *)
Lemma with_line_then (acc : list Projection.t) (stat_type : string)
    (line : option Q) (block : Q -> result Projection.t)
    (rest : list (string * Q)) (k : list Projection.t -> result (list Projection.t)) :
  (forall l, Qeq_bool l 0 = true -> block l = Raise ZeroDivisionError) ->
  (forall l, Qeq_bool l 0 = false -> exists p, block l = Ok p) ->
  (forall acc',
     if existsb (fun sl => Qeq_bool (snd sl) 0) rest
     then k acc' = Raise ZeroDivisionError
     else exists ps, k acc' = Ok ps) ->
  if existsb (fun sl => Qeq_bool (snd sl) 0) (posted stat_type line ++ rest)%list
  then (projections <- with_line acc line block ;; k projections) = Raise ZeroDivisionError
  else exists ps, (projections <- with_line acc line block ;; k projections) = Ok ps.
Proof.
  intros Hzero Hnonzero Hrest.
  pose proof (with_line_posted acc stat_type line block Hzero Hnonzero) as H.
  rewrite existsb_app.
  destruct (existsb _ (posted stat_type line)).
  - rewrite H. reflexivity.
  - destruct H as [ps ->]. cbn [orb bind]. apply Hrest.
Qed.

(** X4: when [generate_projections] raises and when it returns, for a
    player whose stats record is the one of the position.  Without a game
    context it raises ValueError.  With one, it raises ZeroDivisionError
    when a posted line of the position is zero, or when the stats record
    counts zero games (a count that the validation of the stats models
    excludes; then whether or not a line is posted), and it returns a list
    in every other case. *)
Theorem generate_projections_outcome (self : PredictionEngine) (player : PlayerData.t) :
  stats_fit player = true ->
  match game_context self with
  | None =>
      generate_projections self player =
        Raise (ValueError "Game context must be set before generating projections")
  | Some _ =>
      if (games_played_of (PlayerData.stats player) =? 0)%Z
         || existsb (fun sl => Qeq_bool (snd sl) 0) (posted_lines player)
      then generate_projections self player = Raise ZeroDivisionError
      else exists ps, generate_projections self player = Ok ps
  end.
Proof.
  unfold stats_fit, generate_projections, posted_lines.
  destruct (game_context self) as [ctx|]; [|reflexivity].
  destruct (PlayerData.position player), (PlayerData.stats player) as [s|s|s];
    try discriminate; intros _; cbn [games_played_of];
    unfold _project_qb, _project_rb, _project_wr_te, div;
    rewrite !Qeq_bool_inject_Z;
    (destruct (_ =? 0)%Z; [reflexivity|]); cbn [orb bind];
    repeat (apply with_line_then;
            [apply create_projection_outcome with (projected := fun _ => _)
            |apply create_projection_outcome with (projected := fun _ => _)
            |intros ?acc]);
    apply with_line_posted;
    apply create_projection_outcome with (projected := fun _ => _).
Qed.


Lemma generate_projections_outcome_witness :
  exists ps,
    generate_projections (set_game_context new_engine (Examples.context 0 44 16))
      Examples.passer = Ok ps.
Proof.
  exact (generate_projections_outcome
           (set_game_context new_engine (Examples.context 0 44 16))
           Examples.passer eq_refl).
Defined.

(** *** Rounding keeps order *)

Lemma round_half_even_monotone (x y : Q) :
  x <= y -> (round_half_even x <= round_half_even y)%Z.
Proof.
  intro Hxy.
  pose proof (Qfloor_le x) as Hxl. pose proof (Qlt_floor x) as Hxu.
  pose proof (Qfloor_le y) as Hyl. pose proof (Qlt_floor y) as Hyu.
  rewrite inject_Z_plus in Hxu, Hyu. change (inject_Z 1) with 1 in Hxu, Hyu.
  assert (Hx : (Qfloor x <= round_half_even x <= Qfloor x + 1)%Z).
  { apply round_half_even_between; [exact Hxl|].
    rewrite inject_Z_plus. change (inject_Z 1) with 1. lra. }
  assert (Hy : (Qfloor y <= round_half_even y <= Qfloor y + 1)%Z).
  { apply round_half_even_between; [exact Hyl|].
    rewrite inject_Z_plus. change (inject_Z 1) with 1. lra. }
  pose proof (Qfloor_resp_le x y Hxy) as Hf.
  destruct (Z.eq_dec (Qfloor x) (Qfloor y)) as [Heq|Hne]; [|lia].
  clear Hx Hy. unfold round_half_even. rewrite <- Heq in *.
  set (f := Qfloor x) in *.
  destruct (x - inject_Z f ?= 1 # 2)%Q eqn:Ex;
  destruct (y - inject_Z f ?= 1 # 2)%Q eqn:Ey;
    repeat match goal with
           | H : (_ ?= _)%Q = Eq |- _ => apply Qeq_alt in H
           | H : (_ ?= _)%Q = Lt |- _ => apply Qlt_alt in H
           | H : (_ ?= _)%Q = Gt |- _ => apply Qgt_alt in H
           end;
    try (exfalso; lra); destruct (Z.even f); lia.
Qed.

Lemma round_monotone (x y : Q) (n : nat) : x <= y -> round x n <= round y n.
Proof.
  intro Hxy. unfold round. pose proof (pow10_pos n) as Hp.
  assert (H : (round_half_even (x * pow10 n) <= round_half_even (y * pow10 n))%Z).
  { apply round_half_even_monotone. apply Qmult_le_compat_r; lra. }
  rewrite Zle_Qle in H. unfold Qdiv. apply Qmult_le_compat_r; [exact H|].
  apply Qlt_le_weak, Qinv_lt_0_compat, Hp.
Qed.

(** The exact edge of a projection against a positive line. *)
Lemma exact_edge_sign (projected line : Q) :
  0 < line ->
  (line < projected -> 0 <= (projected - line) / line * 100) /\
  (projected <= line -> (projected - line) / line * 100 <= 0) /\
  (line * (95 # 100) <= projected -> - (5) <= (projected - line) / line * 100).
Proof.
  intro Hl.
  assert (E : (projected - line) / line * 100 == (projected / line - 1) * 100).
  { field. lra. }
  rewrite E. repeat split; intro H.
  - assert (1 <= projected / line) by (apply Qle_shift_div_l; lra). lra.
  - assert (projected / line <= 1) by (apply Qle_shift_div_r; lra). lra.
  - assert (95 # 100 <= projected / line) by (apply Qle_shift_div_l; lra). lra.
Qed.

(** X5: the volume floor of a high-volume receiver.  For a receiver or tight
    end with a target share above 28%, the receiving-yards projection
    against a positive line is never taken below 95% of the line: the
    stored edge is at least -5 (percent) and the stored projected value at
    least the line's 95% rounded to one decimal. *)
Theorem volume_floor_edge (self : PredictionEngine) (player : PlayerData.t)
    (stats : WRTEStats.t) (ps : list Projection.t) (p : Projection.t) :
  PlayerData.stats player = OfWRTE stats ->
  28 < WRTEStats.target_share_pct stats ->
  generate_projections self player = Ok ps ->
  In p ps ->
  Projection.stat_type p = "Rec Yards" ->
  0 < Projection.market_line p ->
  - (5) <= Projection.edge p /\
  round (Projection.market_line p * (95 # 100)) 1 <= Projection.projected_value p.
Proof.
  intros Hstats Hshare Hgen Hin Hstat Hline.
  unfold generate_projections in Hgen.
  destruct (game_context self) as [ctx|]; [|discriminate].
  rewrite Hstats in Hgen.
  assert (Hrun : _project_wr_te (strategy self) ctx player stats = Ok ps).
  { destruct (PlayerData.position player); try discriminate; exact Hgen. }
  clear Hgen. unfold _project_wr_te in Hrun.
  repeat bind_inv Hrun. with_line_cases;
    cbn [app] in Hin; repeat (destruct Hin as [<-|Hin]); try contradiction;
    repeat match goal with
           | H : _create_projection _ _ _ _ = Ok _ |- _ =>
               apply create_projection_inv in H; destruct H as [? ->]
           end;
    cbn [Projection.stat_type Projection.market_line Projection.edge
         Projection.projected_value] in *;
    try discriminate.
  all: unfold Config.WR_TARGET_SHARE_THRESHOLD in *;
    apply Qltb_true in Hshare; rewrite Hshare;
    match goal with
    | |- context [max2 ?a ?b] =>
        assert (Hfloor : b <= max2 a b) by (unfold max2; case_Qltb a b; lra)
    end;
    split.
  all: try (apply round_monotone; exact Hfloor).
  all: match goal with
       | |- _ <= round ?e 2 =>
           apply Qle_trans with (round (- (5)) 2); [vm_compute; discriminate|];
           apply round_monotone
       end;
    apply exact_edge_sign; assumption.
Qed.


Lemma volume_floor_edge_witness :
  exists p,
    generate_projections (set_game_context new_engine (Examples.context 0 44 16))
      Examples.volume_receiver = Ok [p] /\
    - (5) <= Projection.edge p /\
    round (Projection.market_line p * (95 # 100)) 1 <= Projection.projected_value p.
Proof.
  eexists. split; [vm_compute; reflexivity|].
  eapply (volume_floor_edge (set_game_context new_engine (Examples.context 0 44 16))
            Examples.volume_receiver Examples.volume_receiver_stats [_] _).
  - reflexivity.
  - reflexivity.
  - vm_compute. reflexivity.
  - left. reflexivity.
  - reflexivity.
  - reflexivity.
Defined.

(** *** Looking projections up *)

Lemma Position_eqb_eq (a b : Position) : Position_eqb a b = true <-> a = b.
Proof. destruct a, b; simpl; split; congruence. Qed.

Lemma BetType_eqb_eq (a b : BetType) : BetType_eqb a b = true <-> a = b.
Proof. destruct a, b; simpl; split; congruence. Qed.

Lemma matches_test (position : Position) (stat_type : string) (p : Projection.t) :
  Position_eqb (Projection.position p) position
  && String.eqb (Projection.stat_type p) stat_type = true
  <-> matches position stat_type p.
Proof.
  unfold matches. rewrite andb_true_iff, Position_eqb_eq, String.eqb_eq. reflexivity.
Qed.

Lemma candidate_test (positions : list Position) (stat_type : string)
    (p : Projection.t) :
  existsb (Position_eqb (Projection.position p)) positions
  && String.eqb (Projection.stat_type p) stat_type = true
  <-> candidate positions stat_type p.
Proof.
  unfold candidate. rewrite andb_true_iff, String.eqb_eq, existsb_exists.
  split; intros [H1 H2]; (split; [|exact H2]).
  - destruct H1 as (x & Hin & Heq). apply Position_eqb_eq in Heq. now subst.
  - eexists. split; [exact H1|]. now apply Position_eqb_eq.
Qed.

(** X6: [_find_projection] returns the first projection of the list with
    the given position and stat type (later ones are never seen), and
    nothing exactly when the list has none. *)
Theorem find_projection_first (projections : list Projection.t)
    (position : Position) (stat_type : string) :
  match _find_projection projections position stat_type with
  | Some p =>
      exists before after,
        projections = (before ++ p :: after)%list /\
        matches position stat_type p /\
        Forall (fun q => ~ matches position stat_type q) before
  | None => Forall (fun q => ~ matches position stat_type q) projections
  end.
Proof.
  unfold _find_projection.
  induction projections as [|q rest IH]; cbn [find]; [constructor|].
  destruct (Position_eqb (Projection.position q) position
            && String.eqb (Projection.stat_type q) stat_type) eqn:E.
  - exists [], rest. split; [reflexivity|]. split; [|constructor].
    now apply matches_test.
  - assert (Hq : ~ matches position stat_type q).
    { intro H. apply matches_test in H. congruence. }
    destruct (find _ rest) as [p|].
    + destruct IH as (before & after & -> & Hp & Hbefore).
      exists (q :: before), after. split; [reflexivity|]. split; [exact Hp|].
      constructor; assumption.
    + constructor; assumption.
Qed.

Lemma find_projection_some (projections : list Projection.t)
    (position : Position) (stat_type : string) (p : Projection.t) :
  _find_projection projections position stat_type = Some p ->
  In p projections /\ matches position stat_type p.
Proof.
  unfold _find_projection. intro H. apply find_some in H.
  destruct H as [Hin H]. split; [exact Hin|]. now apply matches_test.
Qed.

(** [max] with a key returns an element of the list whose key is largest. *)
Lemma max_by_key_spec {A : Type} (key : A -> Q) (xs : list A) (x : A) :
  In (max_by_key key x xs) (x :: xs) /\
  forall y, In y (x :: xs) -> key y <= key (max_by_key key x xs).
Proof.
  unfold max_by_key. revert x.
  induction xs as [|z rest IH]; intro x; cbn [fold_left].
  - split; [left; reflexivity|]. intros y [<-|[]]. lra.
  - destruct (IH (if Qltb (key x) (key z) then z else x)) as [Hin Hmax].
    split.
    + destruct Hin as [Hin|Hin]; [|right; right; exact Hin].
      rewrite <- Hin. destruct (Qltb (key x) (key z)); [right; left|left]; reflexivity.
    + intros y Hy.
      assert (Hstep : key x <= key (if Qltb (key x) (key z) then z else x) /\
                      key z <= key (if Qltb (key x) (key z) then z else x)).
      { case_Qltb (key x) (key z); split; lra. }
      destruct Hstep as [Hx Hz].
      destruct Hy as [<-|[<-|Hy]].
      * eapply Qle_trans; [exact Hx|]. apply Hmax. left. reflexivity.
      * eapply Qle_trans; [exact Hz|]. apply Hmax. left. reflexivity.
      * apply Hmax. right. exact Hy.
Qed.

Lemma find_best_projection_inv (projections : list Projection.t)
    (positions : list Position) (stat_type : string) (preferred : BetType)
    (p : Projection.t) :
  _find_best_projection projections positions stat_type preferred = Some p ->
  let candidates :=
    filter (fun p => existsb (Position_eqb (Projection.position p)) positions
                     && String.eqb (Projection.stat_type p) stat_type) projections in
  let matching :=
    filter (fun c => BetType_eqb (Projection.recommendation c) preferred) candidates in
  (In p matching /\
   forall q, In q matching -> Qabs (Projection.edge q) <= Qabs (Projection.edge p)) \/
  (matching = [] /\ In p candidates /\
   forall q, In q candidates -> Qabs (Projection.edge q) <= Qabs (Projection.edge p)).
Proof.
  unfold _find_best_projection. cbv zeta.
  set (candidates := filter _ projections).
  destruct candidates as [|c cs] eqn:Ec; [discriminate|].
  rewrite <- Ec.
  set (matching := filter _ candidates).
  destruct matching as [|m ms] eqn:Em; intro H; injection H as <-.
  - right. split; [reflexivity|]. rewrite Ec.
    apply (max_by_key_spec (fun p => Qabs (Projection.edge p))).
  - left. apply (max_by_key_spec (fun p => Qabs (Projection.edge p))).
Qed.

Lemma find_best_projection_some (projections : list Projection.t)
    (positions : list Position) (stat_type : string) (preferred : BetType)
    (p : Projection.t) :
  _find_best_projection projections positions stat_type preferred = Some p ->
  In p projections /\ candidate positions stat_type p.
Proof.
  intro H. apply find_best_projection_inv in H. cbv zeta in H.
  assert (Hc : In p (filter (fun p => existsb (Position_eqb (Projection.position p)) positions
                                     && String.eqb (Projection.stat_type p) stat_type)
                            projections)).
  { destruct H as [[H _]|(_ & H & _)]; [|exact H].
    apply filter_In in H. apply H. }
  apply filter_In in Hc. destruct Hc as [Hin Ht].
  split; [exact Hin|]. now apply candidate_test.
Qed.

(** X7: [_find_best_projection] returns nothing exactly when no projection
    has one of the positions and the stat type.  Otherwise it returns such
    a projection; it recommends the preferred direction whenever some such
    projection does, and no such projection with the same recommendation
    has an edge of larger magnitude. *)
Theorem find_best_projection_choice (projections : list Projection.t)
    (positions : list Position) (stat_type : string) (preferred : BetType) :
  match _find_best_projection projections positions stat_type preferred with
  | None => Forall (fun q => ~ candidate positions stat_type q) projections
  | Some p =>
      In p projections /\ candidate positions stat_type p /\
      forall q, In q projections -> candidate positions stat_type q ->
        (Projection.recommendation q = preferred ->
         Projection.recommendation p = preferred) /\
        (Projection.recommendation q = Projection.recommendation p ->
         Qabs (Projection.edge q) <= Qabs (Projection.edge p))
  end.
Proof.
  destruct (_find_best_projection projections positions stat_type preferred)
    as [p|] eqn:E.
  - destruct (find_best_projection_some _ _ _ _ _ E) as [Hin Hcand].
    split; [exact Hin|]. split; [exact Hcand|].
    intros q Hq Hqc.
    apply find_best_projection_inv in E. cbv zeta in E.
    assert (Hqf : In q (filter (fun p => existsb (Position_eqb (Projection.position p))
                                                 positions
                                         && String.eqb (Projection.stat_type p) stat_type)
                               projections)).
    { apply filter_In. split; [exact Hq|]. now apply candidate_test. }
    destruct E as [[Hp Hmax]|(Hnone & Hp & Hmax)].
    + assert (Hrec : Projection.recommendation p = preferred).
      { apply filter_In in Hp. apply BetType_eqb_eq, Hp. }
      split; [intros _; exact Hrec|].
      intro Hsame. apply Hmax. apply filter_In. split; [exact Hqf|].
      apply BetType_eqb_eq. congruence.
    + split; [|intros _; apply Hmax, Hqf].
      intro Hrec. exfalso.
      assert (Hm : In q (filter (fun c => BetType_eqb (Projection.recommendation c) preferred)
                          (filter (fun p => existsb (Position_eqb (Projection.position p))
                                                    positions
                                            && String.eqb (Projection.stat_type p) stat_type)
                                  projections))).
      { apply filter_In. split; [exact Hqf|]. now apply BetType_eqb_eq. }
      rewrite Hnone in Hm. exact Hm.
  - unfold _find_best_projection in E. cbv zeta in E.
    destruct (filter _ projections) as [|c cs] eqn:Ec.
    + apply Forall_forall. intros q Hq Hqc.
      assert (Hqf : In q (filter (fun p => existsb (Position_eqb (Projection.position p))
                                                   positions
                                           && String.eqb (Projection.stat_type p) stat_type)
                                 projections)).
      { apply filter_In. split; [exact Hq|]. now apply candidate_test. }
      rewrite Ec in Hqf. exact Hqf.
    + destruct (filter _ (c :: cs)); discriminate.
Qed.


(** *** Legs of the built parlays *)

Lemma add_leg_Forall (P : ParlayLeg.t -> Prop) (legs : list ParlayLeg.t)
    (found : option Projection.t) (stat_type : string) (direction keep : BetType) :
  Forall P legs ->
  (forall proj, found = Some proj -> P (leg_of proj stat_type direction keep)) ->
  Forall P (add_leg legs found stat_type direction keep).
Proof.
  intros Hlegs Hfound. destruct found as [proj|]; simpl; [|exact Hlegs].
  apply Forall_app. split; [exact Hlegs|].
  constructor; [|constructor]. apply Hfound. reflexivity.
Qed.

Lemma add_leg_template (legs : list ParlayLeg.t) (found : option Projection.t)
    (stat_type : string) (direction keep : BetType) :
  map (fun leg => (ParlayLeg.stat_type leg, ParlayLeg.direction leg))
      (add_leg legs found stat_type direction keep)
  = (map (fun leg => (ParlayLeg.stat_type leg, ParlayLeg.direction leg)) legs
     ++ match found with Some _ => [(stat_type, direction)] | None => [] end)%list.
Proof.
  destruct found as [proj|]; simpl.
  - rewrite map_app. reflexivity.
  - rewrite app_nil_r. reflexivity.
Qed.

Lemma build_trailing_parlay_legs (projections : list Projection.t)
    (parlay : CorrelatedParlay.t) :
  _build_trailing_parlay projections = Some parlay ->
  CorrelatedParlay.game_script parlay = TRAILING /\
  CorrelatedParlay.legs parlay =
    add_leg (add_leg (add_leg []
      (_find_projection projections QB "Pass Attempts") "Pass Attempts" OVER OVER)
      (_find_best_projection projections [WR; TE] "Receptions" OVER) "Receptions" OVER OVER)
      (_find_projection projections RB "Rush Yards") "Rush Yards" UNDER UNDER /\
  (2 <= List.length (CorrelatedParlay.legs parlay))%nat /\
  CorrelatedParlay.combined_confidence parlay =
    _calculate_parlay_confidence (CorrelatedParlay.legs parlay).
Proof.
  unfold _build_trailing_parlay.
  destruct (2 <=? _)%nat eqn:E; [|discriminate].
  apply Nat.leb_le in E. intro H. injection H as <-. repeat split. exact E.
Qed.

Lemma build_leading_parlay_legs (projections : list Projection.t)
    (parlay : CorrelatedParlay.t) :
  _build_leading_parlay projections = Some parlay ->
  CorrelatedParlay.game_script parlay = LEADING /\
  CorrelatedParlay.legs parlay =
    add_leg (add_leg (add_leg []
      (_find_projection projections RB "Rush Attempts") "Rush Attempts" OVER OVER)
      (_find_projection projections RB "Rush Yards") "Rush Yards" OVER OVER)
      (_find_projection projections QB "Pass Attempts") "Pass Attempts" UNDER UNDER /\
  (2 <= List.length (CorrelatedParlay.legs parlay))%nat /\
  CorrelatedParlay.combined_confidence parlay =
    _calculate_parlay_confidence (CorrelatedParlay.legs parlay).
Proof.
  unfold _build_leading_parlay.
  destruct (2 <=? _)%nat eqn:E; [|discriminate].
  apply Nat.leb_le in E. intro H. injection H as <-. repeat split. exact E.
Qed.

Lemma build_explosive_parlay_legs (projections : list Projection.t)
    (parlay : CorrelatedParlay.t) :
  _build_explosive_parlay projections = Some parlay ->
  CorrelatedParlay.game_script parlay = EXPLOSIVE /\
  CorrelatedParlay.legs parlay =
    add_leg (add_leg []
      (_find_projection projections QB "Passing Yards") "Passing Yards" OVER OVER)
      (_find_best_projection projections [WR; TE] "Rec Yards" OVER) "Rec Yards" OVER OVER /\
  (2 <= List.length (CorrelatedParlay.legs parlay))%nat /\
  CorrelatedParlay.combined_confidence parlay =
    _calculate_parlay_confidence (CorrelatedParlay.legs parlay).
Proof.
  unfold _build_explosive_parlay.
  destruct (2 <=? _)%nat eqn:E; [|discriminate].
  apply Nat.leb_le in E. intro H. injection H as <-. repeat split. exact E.
Qed.

(** A property of every leg that a builder can take from the list holds of
    every leg of a built parlay. *)
Lemma built_legs_Forall (P : ParlayLeg.t -> Prop) (projections : list Projection.t)
    (parlay : CorrelatedParlay.t) :
  (forall proj stat_type direction,
     In proj projections -> Projection.stat_type proj = stat_type ->
     P (leg_of proj stat_type direction direction)) ->
  _build_trailing_parlay projections = Some parlay \/
  _build_leading_parlay projections = Some parlay \/
  _build_explosive_parlay projections = Some parlay ->
  Forall P (CorrelatedParlay.legs parlay).
Proof.
  intros HP [H|[H|H]];
    [apply build_trailing_parlay_legs in H
    |apply build_leading_parlay_legs in H
    |apply build_explosive_parlay_legs in H];
    destruct H as (_ & -> & _);
    repeat apply add_leg_Forall; try constructor;
    intros proj Hfound;
    first [apply find_projection_some in Hfound
          |apply find_best_projection_some in Hfound];
    destruct Hfound as [Hin [_ Hstat]]; apply HP; assumption.
Qed.

Lemma built_legs_template (projections : list Projection.t)
    (parlay : CorrelatedParlay.t) :
  _build_trailing_parlay projections = Some parlay \/
  _build_leading_parlay projections = Some parlay \/
  _build_explosive_parlay projections = Some parlay ->
  sublist (map (fun leg => (ParlayLeg.stat_type leg, ParlayLeg.direction leg))
               (CorrelatedParlay.legs parlay))
          (template (CorrelatedParlay.game_script parlay)).
Proof.
  intros [H|[H|H]];
    [apply build_trailing_parlay_legs in H
    |apply build_leading_parlay_legs in H
    |apply build_explosive_parlay_legs in H];
    destruct H as (-> & -> & _);
    rewrite !add_leg_template; cbn [map app template];
    repeat match goal with
           | |- context [match ?found with Some _ => _ | None => _ end] =>
               destruct found
           end;
    cbn [app];
    repeat first [apply sublist_nil | apply sublist_skip | apply sublist_cons].
Qed.

Lemma leg_of_taken (projections : list Projection.t) (proj : Projection.t)
    (stat_type : string) (direction : BetType) :
  In proj projections -> Projection.stat_type proj = stat_type ->
  taken_from projections (leg_of proj stat_type direction direction).
Proof.
  intros Hin Hstat. exists proj. unfold leg_of. cbn.
  repeat split; try assumption; try (symmetry; assumption).
  destruct (BetType_eqb _ _); [reflexivity|]. apply Qabs_opp.
Qed.

(** X8: every leg of every parlay found follows the template of the
    parlay's script.  The stat types and directions of the legs are, in
    order, a sub-sequence of: pass attempts Over, receptions Over, rush
    yards Under for Trailing; rush attempts Over, rush yards Over, pass
    attempts Under for Leading; passing yards Over, receiving yards Over
    for Explosive.  Each leg carries the player name and the market line of
    a projection of the input with the leg's stat type, and the magnitude of
    that projection's edge. *)
Theorem parlay_legs_follow_template (self : CorrelationEngine)
    (projections : list Projection.t) (parlay : CorrelatedParlay.t) :
  In parlay (find_correlated_parlays self projections) ->
  sublist (map (fun leg => (ParlayLeg.stat_type leg, ParlayLeg.direction leg))
               (CorrelatedParlay.legs parlay))
          (template (CorrelatedParlay.game_script parlay)) /\
  Forall (taken_from projections) (CorrelatedParlay.legs parlay).
Proof.
  intro Hin. apply find_correlated_parlays_built in Hin. split.
  - apply built_legs_template with projections. exact Hin.
  - apply built_legs_Forall with projections; [|exact Hin].
    intros proj stat_type direction. apply leg_of_taken.
Qed.

Lemma parlay_legs_follow_template_witness :
  Forall (fun parlay =>
            sublist (map (fun leg => (ParlayLeg.stat_type leg, ParlayLeg.direction leg))
                         (CorrelatedParlay.legs parlay))
                    [("Pass Attempts", OVER); ("Receptions", OVER); ("Rush Yards", UNDER)])
         (find_correlated_parlays {| ce_game_context := Examples.context 8 44 16 |}
            Examples.trailing_projections).
Proof.
  apply Forall_forall. intros parlay Hin.
  pose proof (parlay_legs_follow_template _ _ parlay Hin) as [H _].
  destruct Hin as [<-|[]]. exact H.
Defined.


(** *** Signs of the edges *)

Lemma round_zero (n : nat) : round 0 n == 0.
Proof.
  unfold round. change (0 * pow10 n) with 0. change (round_half_even 0) with 0%Z.
  unfold Qdiv. apply Qmult_0_l.
Qed.

(** Against a positive line the stored edge has the sign of the
    recommendation. *)
Lemma create_projection_agrees (player : PlayerData.t) (stat_type : string)
    (projected line : Q) (p : Projection.t) :
  0 < line ->
  _create_projection player stat_type projected line = Ok p ->
  edge_agrees p.
Proof.
  intros Hline Hp. apply create_projection_inv in Hp. destruct Hp as [_ ->].
  unfold edge_agrees. cbn [Projection.recommendation Projection.edge].
  destruct (exact_edge_sign projected line Hline) as (Hover & Hunder & _).
  case_Qltb line projected.
  - rewrite <- (round_zero 2). apply round_monotone, Hover, Hcmp.
  - rewrite <- (round_zero 2). apply round_monotone, Hunder, Hcmp.
Qed.

Lemma generate_projections_agree (self : PredictionEngine) (player : PlayerData.t)
    (ps : list Projection.t) :
  Forall (fun sl => 0 < snd sl) (posted_lines player) ->
  generate_projections self player = Ok ps ->
  Forall edge_agrees ps.
Proof.
  intros Hpos Hgen. apply generate_projections_inv in Hgen.
  induction Hgen as [|p sl ps sls (projected & Hp) _ IH]; [constructor|].
  inversion Hpos as [|? ? Hsl Hrest]; subst.
  constructor; [|apply IH, Hrest].
  eapply create_projection_agrees; [exact Hsl | exact Hp].
Qed.

Lemma project_players_agree (engine : PredictionEngine) (players : list PlayerData.t) :
  Forall (fun player => Forall (fun sl => 0 < snd sl) (posted_lines player)) players ->
  forall ps, project_players engine players = Ok ps -> Forall edge_agrees ps.
Proof.
  induction 1 as [|player rest Hplayer _ IH]; intros ps Hps; cbn [project_players] in Hps.
  - injection Hps as <-. constructor.
  - repeat bind_inv Hps. injection Hps as <-.
    apply Forall_app. split.
    + eapply generate_projections_agree; eassumption.
    + apply IH. reflexivity.
Qed.

Lemma leg_of_signed (proj : Projection.t) (stat_type : string) (direction : BetType) :
  edge_agrees proj -> leg_edge_signed (leg_of proj stat_type direction direction).
Proof.
  unfold edge_agrees, leg_edge_signed, leg_of. cbn.
  destruct (Projection.recommendation proj), direction; cbn; intro H; lra.
Qed.

Lemma built_legs_signed (projections : list Projection.t) (parlay : CorrelatedParlay.t) :
  Forall edge_agrees projections ->
  _build_trailing_parlay projections = Some parlay \/
  _build_leading_parlay projections = Some parlay \/
  _build_explosive_parlay projections = Some parlay ->
  Forall leg_edge_signed (CorrelatedParlay.legs parlay).
Proof.
  intros Hall Hbuilt. apply built_legs_Forall with projections; [|exact Hbuilt].
  intros proj stat_type direction Hin _. apply leg_of_signed.
  rewrite Forall_forall in Hall. apply Hall, Hin.
Qed.

Lemma run_analysis_inv (game_context : GameContext) (players : list PlayerData.t)
    (parlays : list CorrelatedParlay.t) :
  _run_analysis game_context players = Ok parlays ->
  exists projections,
    project_players (set_game_context new_engine game_context) players = Ok projections /\
    parlays = find_correlated_parlays {| ce_game_context := game_context |} projections.
Proof.
  unfold _run_analysis. intro H. bind_inv H. injection H as <-.
  eexists. split; reflexivity.
Qed.

(** X9: when every posted line is positive, the edge of each leg of each
    parlay of an analysis run has the sign of the leg's direction: an Over
    leg never has a negative edge and an Under leg never a positive one,
    whatever the projection behind it recommends.  So the forced Under leg
    of a Trailing parlay, and the forced pass-attempts Under leg of a
    Leading parlay, never earn the positive-edge bonus. *)
Theorem run_analysis_leg_signs (game_context : GameContext)
    (players : list PlayerData.t) (parlays : list CorrelatedParlay.t) :
  Forall (fun player => Forall (fun sl => 0 < snd sl) (posted_lines player)) players ->
  _run_analysis game_context players = Ok parlays ->
  Forall (fun parlay => Forall leg_edge_signed (CorrelatedParlay.legs parlay)) parlays.
Proof.
  intros Hlines Hrun. apply run_analysis_inv in Hrun.
  destruct Hrun as (projections & Hps & ->).
  apply Forall_forall. intros parlay Hin.
  apply built_legs_signed with projections.
  - apply (project_players_agree _ players Hlines projections Hps).
  - apply find_correlated_parlays_built with {| ce_game_context := game_context |}.
    exact Hin.
Qed.

Lemma run_analysis_leg_signs_witness :
  exists parlays,
    _run_analysis (Examples.context 8 44 16) [Examples.passer; Examples.carrier]
      = Ok parlays /\
    List.length parlays = 1%nat /\
    Forall (fun parlay => Forall leg_edge_signed (CorrelatedParlay.legs parlay)) parlays.
Proof.
  destruct (_run_analysis (Examples.context 8 44 16) [Examples.passer; Examples.carrier])
    as [parlays|e] eqn:E; [|discriminate E].
  exists parlays. split; [reflexivity|]. split.
  - vm_compute in E. injection E as <-. reflexivity.
  - apply (run_analysis_leg_signs (Examples.context 8 44 16)
             [Examples.passer; Examples.carrier] parlays); [|exact E].
    repeat constructor.
Defined.

(** *** Combined confidence *)

Lemma sum_from (xs : list Q) (a : Q) : fold_left Qplus xs a == a + sum xs.
Proof.
  unfold sum. revert a. induction xs as [|x xs IH]; intro a; cbn [fold_left].
  - lra.
  - rewrite (IH (a + x)), (IH (0 + x)). lra.
Qed.

Lemma sum_nonneg (xs : list Q) : Forall (fun x => 0 <= x) xs -> 0 <= sum xs.
Proof.
  induction 1 as [|x xs Hx _ IH].
  - unfold sum. cbn. lra.
  - unfold sum. cbn [fold_left]. rewrite sum_from. lra.
Qed.

Lemma min2_glb (a b c : Q) : c <= a -> c <= b -> c <= min2 a b.
Proof. intros Ha Hb. unfold min2. case_Qltb b a; assumption. Qed.

Lemma length_pos_Q {A : Type} (l : list A) :
  l <> [] -> 0 < inject_Z (Z.of_nat (List.length l)).
Proof.
  intro H. destruct l as [|a l]; [congruence|].
  change 0 with (inject_Z 0). rewrite <- Zlt_Qlt. cbn [List.length]. lia.
Qed.

(** X10: the combined confidence of a parlay.  No legs give 0.  With legs,
    the value is at most 95 and at least the smaller of 50 + 2 * (average
    edge) and 80; so it is at least 50 when no leg has a negative edge, and
    it can only fall below 0 when the average edge is below -25. *)
Theorem parlay_confidence_bounds (legs : list ParlayLeg.t) :
  legs <> [] ->
  let avg_edge :=
    sum (map ParlayLeg.edge legs) / inject_Z (Z.of_nat (List.length legs)) in
  _calculate_parlay_confidence [] = 0 /\
  _calculate_parlay_confidence legs <= 95 /\
  Qmin (50 + 2 * avg_edge) 80 <= _calculate_parlay_confidence legs /\
  (Forall (fun leg => 0 <= ParlayLeg.edge leg) legs ->
   50 <= _calculate_parlay_confidence legs) /\
  (- (25) <= avg_edge -> 0 <= _calculate_parlay_confidence legs).
Proof.
  intros Hne avg_edge.
  split; [reflexivity|]. split; [apply calculate_parlay_confidence_upper|].
  assert (Hlow : Qmin (50 + 2 * avg_edge) 80 <= _calculate_parlay_confidence legs).
  { unfold _calculate_parlay_confidence.
    destruct legs as [|leg legs]; [congruence|].
    fold avg_edge.
    set (bonus := inject_Z (Z.of_nat (List.length (filter _ (leg :: legs)))) * 5).
    assert (Hbonus : 0 <= bonus).
    { unfold bonus. apply Qmult_le_0_compat; [|discriminate].
      change 0 with (inject_Z 0). rewrite <- Zle_Qle. lia. }
    pose proof (Q.le_min_l (50 + 2 * avg_edge) 80) as Hl.
    pose proof (Q.le_min_r (50 + 2 * avg_edge) 80) as Hr.
    apply min2_glb; [|lra].
    assert (Hbase : Qmin (50 + 2 * avg_edge) 80 <= 50 + min2 (avg_edge * 2) 30).
    { assert (H : Qmin (50 + 2 * avg_edge) 80 - 50 <= min2 (avg_edge * 2) 30)
        by (apply min2_glb; lra).
      lra. }
    lra. }
  split; [exact Hlow|]. split.
  - intro Hall.
    assert (Havg : 0 <= avg_edge).
    { unfold avg_edge. apply Qle_shift_div_l; [apply length_pos_Q, Hne|].
      rewrite Qmult_0_l. apply sum_nonneg.
      apply Forall_map. exact Hall. }
    eapply Qle_trans; [|exact Hlow]. apply Q.min_glb; lra.
  - intro Havg. eapply Qle_trans; [|exact Hlow]. apply Q.min_glb; lra.
Qed.

Lemma parlay_confidence_bounds_witness :
  let legs :=
    [ {| ParlayLeg.player_name := "Passer"; ParlayLeg.stat_type := "Pass Attempts";
         ParlayLeg.line := 325 # 10; ParlayLeg.direction := OVER;
         ParlayLeg.edge := 31 # 100 |};
      {| ParlayLeg.player_name := "Receiver"; ParlayLeg.stat_type := "Receptions";
         ParlayLeg.line := 6; ParlayLeg.direction := OVER; ParlayLeg.edge := 5 |} ] in
  50 <= _calculate_parlay_confidence legs /\ _calculate_parlay_confidence legs <= 95.
Proof.
  intro legs.
  destruct (parlay_confidence_bounds legs) as (_ & Hup & _ & Hlow & _).
  - discriminate.
  - split; [|exact Hup]. apply Hlow. repeat constructor; discriminate.
Defined.

Lemma sublist_filter_length {A : Type} (f : A -> bool) (l1 l2 : list A) :
  sublist l1 l2 ->
  (List.length (filter f l1) <= List.length (filter f l2))%nat.
Proof.
  induction 1 as [|x l1 l2 _ IH|x l1 l2 _ IH]; cbn [filter].
  - lia.
  - destruct (f x); cbn [List.length]; lia.
  - destruct (f x); cbn [List.length]; lia.
Qed.

(** Legs with a positive edge are Over legs, when the edges are signed. *)
Lemma positive_legs_are_over (legs : list ParlayLeg.t) :
  Forall leg_edge_signed legs ->
  (List.length (filter (fun leg => Qltb 0 (ParlayLeg.edge leg)) legs)
   <= List.length (filter (fun sd => BetType_eqb (snd sd) OVER)
                          (map (fun leg => (ParlayLeg.stat_type leg, ParlayLeg.direction leg))
                               legs)))%nat.
Proof.
  induction 1 as [|leg legs Hleg _ IH]; cbn [filter map snd]; [cbn; lia|].
  unfold leg_edge_signed in Hleg.
  destruct (ParlayLeg.direction leg); cbn [BetType_eqb].
  - destruct (Qltb 0 (ParlayLeg.edge leg)); cbn [List.length]; lia.
  - assert (E : Qltb 0 (ParlayLeg.edge leg) = false) by (apply Qltb_false; exact Hleg).
    rewrite E. exact IH.
Qed.

Lemma template_over_count (script : GameScript) :
  (List.length (filter (fun sd => BetType_eqb (snd sd) OVER) (template script)) <= 2)%nat.
Proof. destruct script; cbn; lia. Qed.

Lemma built_confidence (projections : list Projection.t) (parlay : CorrelatedParlay.t) :
  _build_trailing_parlay projections = Some parlay \/
  _build_leading_parlay projections = Some parlay \/
  _build_explosive_parlay projections = Some parlay ->
  CorrelatedParlay.legs parlay <> [] /\
  CorrelatedParlay.combined_confidence parlay =
    _calculate_parlay_confidence (CorrelatedParlay.legs parlay).
Proof.
  intro Hbuilt.
  assert (Hlen : (2 <= List.length (CorrelatedParlay.legs parlay))%nat ->
                 CorrelatedParlay.legs parlay <> []).
  { intros Hlen Hnil. rewrite Hnil in Hlen. cbn in Hlen. lia. }
  destruct Hbuilt as [H|[H|H]];
    [apply build_trailing_parlay_legs in H
    |apply build_leading_parlay_legs in H
    |apply build_explosive_parlay_legs in H];
    destruct H as (_ & _ & H2 & Hc); split; auto.
Qed.

(** With signed edges at most two legs earn the bonus, so a built parlay
    stays at or below 90. *)
Lemma built_confidence_upper (projections : list Projection.t)
    (parlay : CorrelatedParlay.t) :
  Forall edge_agrees projections ->
  _build_trailing_parlay projections = Some parlay \/
  _build_leading_parlay projections = Some parlay \/
  _build_explosive_parlay projections = Some parlay ->
  CorrelatedParlay.combined_confidence parlay <= 90.
Proof.
  intros Hagree Hbuilt.
  pose proof (built_legs_signed projections parlay Hagree Hbuilt) as Hsigned.
  pose proof (built_legs_template projections parlay Hbuilt) as Htemplate.
  destruct (built_confidence projections parlay Hbuilt) as [Hne ->].
  assert (Hpositive :
            (List.length (filter (fun leg => Qltb 0 (ParlayLeg.edge leg))
                                 (CorrelatedParlay.legs parlay)) <= 2)%nat).
  { eapply Nat.le_trans; [apply positive_legs_are_over, Hsigned|].
    eapply Nat.le_trans; [apply sublist_filter_length, Htemplate|].
    apply template_over_count. }
  unfold _calculate_parlay_confidence.
  destruct (CorrelatedParlay.legs parlay) as [|leg legs]; [congruence|].
  cbv zeta.
  set (avg_edge := sum (map ParlayLeg.edge (leg :: legs))
                   / inject_Z (Z.of_nat (List.length (leg :: legs)))).
  set (positive := List.length (filter _ (leg :: legs))) in *.
  assert (Hbonus : inject_Z (Z.of_nat positive) * 5 <= 10).
  { assert (H2 : inject_Z (Z.of_nat positive) <= 2).
    { change 2 with (inject_Z 2). rewrite <- Zle_Qle. lia. }
    lra. }
  pose proof (min2_le_r (avg_edge * 2) 30) as Hbase.
  eapply Qle_trans; [apply min2_le_l|]. lra.
Qed.

Lemma sublist_In {A : Type} (l1 l2 : list A) (x : A) :
  sublist l1 l2 -> In x l1 -> In x l2.
Proof.
  induction 1 as [|y l1 l2 _ IH|y l1 l2 _ IH]; intro Hin.
  - exact Hin.
  - destruct Hin as [<-|Hin]; [left; reflexivity | right; apply IH, Hin].
  - right. apply IH, Hin.
Qed.

(** X11: an Explosive parlay of an analysis run over positive posted lines
    has a combined confidence between 50 and 90: both of its legs are Over
    legs, whose edges are never negative. *)
Theorem explosive_parlay_confidence (game_context : GameContext)
    (players : list PlayerData.t) (parlays : list CorrelatedParlay.t)
    (parlay : CorrelatedParlay.t) :
  Forall (fun player => Forall (fun sl => 0 < snd sl) (posted_lines player)) players ->
  _run_analysis game_context players = Ok parlays ->
  In parlay parlays ->
  CorrelatedParlay.game_script parlay = EXPLOSIVE ->
  50 <= CorrelatedParlay.combined_confidence parlay /\
  CorrelatedParlay.combined_confidence parlay <= 90.
Proof.
  intros Hlines Hrun Hin Hscript. apply run_analysis_inv in Hrun.
  destruct Hrun as (projections & Hps & ->).
  pose proof (project_players_agree _ players Hlines projections Hps) as Hagree.
  pose proof (find_correlated_parlays_built _ _ _ Hin) as Hbuilt.
  split; [|exact (built_confidence_upper projections parlay Hagree Hbuilt)].
  pose proof (built_legs_signed projections parlay Hagree Hbuilt) as Hsigned.
  pose proof (built_legs_template projections parlay Hbuilt) as Htemplate.
  destruct (built_confidence projections parlay Hbuilt) as [Hne ->].
  rewrite Hscript in Htemplate. cbn [template] in Htemplate.
  assert (Hover : Forall (fun leg => ParlayLeg.direction leg = OVER)
                         (CorrelatedParlay.legs parlay)).
  { apply Forall_forall. intros leg Hleg.
    assert (Hmem : In (ParlayLeg.stat_type leg, ParlayLeg.direction leg)
                      [("Passing Yards", OVER); ("Rec Yards", OVER)]).
    { eapply sublist_In; [exact Htemplate|].
      apply (in_map (fun leg => (ParlayLeg.stat_type leg, ParlayLeg.direction leg))).
      exact Hleg. }
    destruct Hmem as [H|[H|[]]]; congruence. }
  unfold _calculate_parlay_confidence.
  destruct (CorrelatedParlay.legs parlay) as [|leg legs] eqn:El; [congruence|].
  cbv zeta.
  assert (Hall : Forall (fun leg => 0 <= ParlayLeg.edge leg) (leg :: legs)).
  { rewrite Forall_forall in *. intros l Hl.
    specialize (Hsigned l Hl). specialize (Hover l Hl).
    unfold leg_edge_signed in Hsigned. rewrite Hover in Hsigned. exact Hsigned. }
  assert (Havg : 0 <= sum (map ParlayLeg.edge (leg :: legs))
                      / inject_Z (Z.of_nat (List.length (leg :: legs)))).
  { apply Qle_shift_div_l; [apply length_pos_Q; discriminate|].
    rewrite Qmult_0_l. apply sum_nonneg. apply Forall_map. exact Hall. }
  set (bonus := inject_Z (Z.of_nat (List.length (filter _ (leg :: legs)))) * 5).
  assert (Hbonus : 0 <= bonus).
  { unfold bonus. apply Qmult_le_0_compat; [|discriminate].
    change 0 with (inject_Z 0). rewrite <- Zle_Qle. lia. }
  apply min2_glb; [|discriminate].
  assert (0 <= min2 (sum (map ParlayLeg.edge (leg :: legs))
                     / inject_Z (Z.of_nat (List.length (leg :: legs))) * 2) 30)
    by (apply min2_glb; lra).
  lra.
Qed.

Lemma explosive_parlay_confidence_witness :
  exists parlay,
    _run_analysis (Examples.context 0 52 16) [Examples.passer; Examples.receiver]
      = Ok [parlay] /\
    50 <= CorrelatedParlay.combined_confidence parlay /\
    CorrelatedParlay.combined_confidence parlay <= 90.
Proof.
  eexists. split; [vm_compute; reflexivity|].
  eapply (explosive_parlay_confidence (Examples.context 0 52 16)
            [Examples.passer; Examples.receiver] [_] _).
  - repeat constructor.
  - vm_compute. reflexivity.
  - left. reflexivity.
  - reflexivity.
Defined.


(** *** Which parlays are found *)

Lemma explosive_script_total (self : CorrelationEngine) :
  determine_game_script self = EXPLOSIVE ->
  495 # 10 < total (ce_game_context self).
Proof.
  unfold determine_game_script. unfold_config.
  destruct (Qltb (65 # 10) _); [discriminate|].
  destruct (Qltb _ (- (65 # 10))); [discriminate|].
  destruct (Qltb (495 # 10) _) eqn:E; [|discriminate].
  intros _. now apply Qltb_true.
Qed.

Ltac script_of_built :=
  repeat match goal with
         | H : _build_trailing_parlay _ = Some _ |- _ =>
             apply build_trailing_parlay_legs in H; destruct H as (H & _)
         | H : _build_leading_parlay _ = Some _ |- _ =>
             apply build_leading_parlay_legs in H; destruct H as (H & _)
         | H : _build_explosive_parlay _ = Some _ |- _ =>
             apply build_explosive_parlay_legs in H; destruct H as (H & _)
         end.

(** X12: which parlays [find_correlated_parlays] returns.  At most two: the
    parlay of the game script first (none for a Neutral script), then an
    Explosive parlay, which is only looked for when the total is above 47
    and the script is not already Explosive; so no script appears twice,
    and a Neutral game with a total of at most 47 gives no parlay.  No
    projections give no parlay. *)
Theorem find_correlated_parlays_shape (self : CorrelationEngine)
    (projections : list Projection.t) :
  sublist (map CorrelatedParlay.game_script (find_correlated_parlays self projections))
          [determine_game_script self; EXPLOSIVE] /\
  NoDup (map CorrelatedParlay.game_script (find_correlated_parlays self projections)) /\
  Forall (fun parlay =>
            CorrelatedParlay.game_script parlay <> NEUTRAL /\
            (CorrelatedParlay.game_script parlay = EXPLOSIVE ->
             47 < total (ce_game_context self)))
         (find_correlated_parlays self projections) /\
  (determine_game_script self = NEUTRAL -> total (ce_game_context self) <= 47 ->
   find_correlated_parlays self projections = []) /\
  find_correlated_parlays self [] = [].
Proof.
  split; [|split; [|split; [|split]]].
  - unfold find_correlated_parlays.
    destruct (determine_game_script self); cbn [is_explosive negb andb];
      try match goal with
          | |- context [Qltb 47 ?t] => destruct (Qltb 47 t)
          end;
      repeat match goal with
             | |- context [add_parlay _ ?b] => destruct b eqn:?; cbn [add_parlay app]
             end;
      script_of_built; cbn [add_parlay app map];
      repeat match goal with H : CorrelatedParlay.game_script _ = _ |- _ => rewrite H end;
      repeat first [apply sublist_nil | apply sublist_skip | apply sublist_cons].
  - unfold find_correlated_parlays.
    destruct (determine_game_script self); cbn [is_explosive negb andb];
      try match goal with
          | |- context [Qltb 47 ?t] => destruct (Qltb 47 t)
          end;
      repeat match goal with
             | |- context [add_parlay _ ?b] => destruct b eqn:?; cbn [add_parlay app]
             end;
      script_of_built; cbn [add_parlay app map];
      repeat match goal with H : CorrelatedParlay.game_script _ = _ |- _ => rewrite H end;
      repeat (constructor; [cbn; intuition discriminate|]); constructor.
  - apply Forall_forall. intros parlay Hin.
    assert (Hbuilt := find_correlated_parlays_built _ _ _ Hin).
    split.
    + destruct Hbuilt as [H|[H|H]]; script_of_built; rewrite H; discriminate.
    + intro Hscript. unfold find_correlated_parlays in Hin.
      destruct (Qltb_cases 47 (total (ce_game_context self))) as [[E Ht]|[E Ht]];
        [exact Ht|].
      rewrite E, andb_false_r in Hin.
      destruct (determine_game_script self) eqn:Es;
        cbn [add_parlay] in Hin;
        try (apply in_add_parlay in Hin; destruct Hin as [[]|Hin]);
        try contradiction;
        script_of_built; try congruence.
      apply explosive_script_total in Es. lra.
  - intros Hs Ht. unfold find_correlated_parlays. rewrite Hs.
    apply Qltb_false in Ht. rewrite Ht. reflexivity.
  - unfold find_correlated_parlays.
    destruct (determine_game_script self); destruct (Qltb 47 _); reflexivity.
Qed.


(** *** The cap of the combined confidence *)

(** X29: in an analysis run over positive posted lines the combined
    confidence of every parlay is at most 90, so the cap of 95 is never
    reached: the base is at most 80, and at most two legs (the Over legs of
    the template) can have a positive edge and earn the bonus of 5. *)
Theorem run_analysis_confidence_below_cap (game_context : GameContext)
    (players : list PlayerData.t) (parlays : list CorrelatedParlay.t) :
  Forall (fun player => Forall (fun sl => 0 < snd sl) (posted_lines player)) players ->
  _run_analysis game_context players = Ok parlays ->
  Forall (fun parlay => CorrelatedParlay.combined_confidence parlay <= 90) parlays.
Proof.
  intros Hlines Hrun. apply run_analysis_inv in Hrun.
  destruct Hrun as (projections & Hps & ->).
  apply Forall_forall. intros parlay Hin.
  apply built_confidence_upper with projections.
  - apply (project_players_agree _ players Hlines projections Hps).
  - apply find_correlated_parlays_built with {| ce_game_context := game_context |}.
    exact Hin.
Qed.

Lemma run_analysis_confidence_below_cap_witness :
  exists parlays,
    _run_analysis (Examples.context 0 52 16) [Examples.passer; Examples.receiver]
      = Ok parlays /\
    List.length parlays = 1%nat /\
    Forall (fun parlay => CorrelatedParlay.combined_confidence parlay <= 90) parlays.
Proof.
  destruct (_run_analysis (Examples.context 0 52 16) [Examples.passer; Examples.receiver])
    as [parlays|e] eqn:E; [|discriminate E].
  exists parlays. split; [reflexivity|]. split.
  - vm_compute in E. injection E as <-. reflexivity.
  - apply (run_analysis_confidence_below_cap (Examples.context 0 52 16)
             [Examples.passer; Examples.receiver] parlays); [|exact E].
    repeat constructor.
Defined.

End NFL_pre_spec.

(** ** Properties of advanced_analytics.py *)

Module advanced_analytics_spec.
Import Py PyFacts advanced_analytics Notions.

(** *** Kelly sizing *)

Section Kelly.
Import KellyCriterion.

Lemma kelly_guards_pass (p d : Q) :
  0 < p -> p < 1 -> 1 < d ->
  negb (Qltb 0 p && Qltb p 1) = false /\ Qle_bool d 1 = false.
Proof.
  intros Hp0 Hp1 Hd. split.
  - apply Qltb_true in Hp0, Hp1. rewrite Hp0, Hp1. reflexivity.
  - apply Qltb_true in Hd. unfold Qltb in Hd. now apply negb_true_iff in Hd.
Qed.

Lemma kelly_unfold (p d fk : Q) :
  0 < p -> p < 1 -> 1 < d ->
  calculate_kelly_fraction p d fk =
    let full := ((d - 1) * p - (1 - p)) / (d - 1) in
    if Qle_bool full 0 then Ok 0 else Ok (min2 (full * fk) (20 # 100)).
Proof.
  intros Hp0 Hp1 Hd. unfold calculate_kelly_fraction.
  destruct (kelly_guards_pass p d Hp0 Hp1 Hd) as [-> ->].
  rewrite div_ok by lra. reflexivity.
Qed.

(** C7: for 0 < p < 1 and decimal odds d > 1, with b = d - 1 and
    full = (b*p - (1-p)) / b, the Kelly fraction is 0 when full <= 0 and
    otherwise full * fractionalKelly capped at 0.20; at p = 0.50 with odds
    1.91 it is 0, and at p = 0.60 with odds 1.91 it is positive and at most
    0.20. *)
Theorem kelly_fraction_rule (p d fk : Q) :
  0 < p -> p < 1 -> 1 < d ->
  let b := d - 1 in
  let full := (b * p - (1 - p)) / b in
  (full <= 0 -> calculate_kelly_fraction p d fk = Ok 0) /\
  (0 < full ->
     calculate_kelly_fraction p d fk = Ok (min2 (full * fk) (20 # 100)) /\
     min2 (full * fk) (20 # 100) == Qmin (full * fk) (20 # 100) /\
     min2 (full * fk) (20 # 100) <= 20 # 100) /\
  calculate_kelly_fraction (50 # 100) (191 # 100) default_fractional_kelly = Ok 0 /\
  (exists f,
     calculate_kelly_fraction (60 # 100) (191 # 100) default_fractional_kelly = Ok f /\
     0 < f /\ f <= 20 # 100).
Proof.
  intros Hp0 Hp1 Hd b full.
  rewrite (kelly_unfold p d fk Hp0 Hp1 Hd). fold b. fold full. cbv zeta.
  split; [|split; [|split]].
  - intro Hfull. apply Qle_bool_iff in Hfull. rewrite Hfull. reflexivity.
  - intro Hfull.
    assert (E : Qle_bool full 0 = false).
    { apply not_true_is_false. intro H. apply Qle_bool_iff in H. lra. }
    rewrite E. split; [reflexivity|]. split.
    + unfold min2. case_Qltb (20 # 100) (full * fk).
      * rewrite Q.min_r; [reflexivity | lra].
      * rewrite Q.min_l; [reflexivity | lra].
    + unfold min2. case_Qltb (20 # 100) (full * fk); lra.
  - reflexivity.
  - eexists. split; [reflexivity|]. split; [reflexivity|].
    apply Qle_bool_iff. reflexivity.
Qed.

Lemma kelly_fraction_rule_witness :
  let b := (2 # 1) - 1 in
  let full := (b * (60 # 100) - (1 - (60 # 100))) / b in
  (full <= 0 -> calculate_kelly_fraction (60 # 100) 2 1 = Ok 0) /\
  (0 < full ->
     calculate_kelly_fraction (60 # 100) 2 1 = Ok (min2 (full * 1) (20 # 100)) /\
     min2 (full * 1) (20 # 100) == Qmin (full * 1) (20 # 100) /\
     min2 (full * 1) (20 # 100) <= 20 # 100) /\
  calculate_kelly_fraction (50 # 100) (191 # 100) default_fractional_kelly = Ok 0 /\
  (exists f,
     calculate_kelly_fraction (60 # 100) (191 # 100) default_fractional_kelly = Ok f /\
     0 < f /\ f <= 20 # 100).
Proof.
  apply (kelly_fraction_rule (60 # 100) 2 1); reflexivity.
Defined.

(** Outside the stated domain the function raises. *)
Lemma kelly_rejects_bad_input (p d fk : Q) :
  (p <= 0 \/ 1 <= p \/ d <= 1) ->
  exists msg, calculate_kelly_fraction p d fk = Raise (ValueError msg).
Proof.
  intro H. unfold calculate_kelly_fraction.
  case_Qltb 0 p; [case_Qltb p 1|]; simpl; try (eexists; reflexivity).
  destruct (Qle_bool d 1) eqn:E; [eexists; reflexivity|].
  exfalso. destruct H as [H|[H|H]]; try lra.
  apply Qle_bool_iff in H. congruence.
Qed.

End Kelly.

(** *** Calibration bins *)

Section Calibration.
Import ModelEvaluator.

Lemma filter_all {A : Type} (f : A -> bool) (l : list A) :
  Forall (fun a => f a = true) l -> filter f l = l.
Proof.
  induction 1 as [|a l Ha _ IH]; simpl; [reflexivity|].
  rewrite Ha, IH. reflexivity.
Qed.

Lemma filter_length_pos {A : Type} (f : A -> bool) (l : list A) (a : A) :
  In a l -> f a = true -> (0 < List.length (filter f l))%nat.
Proof.
  induction l as [|b l IH]; simpl; [tauto|].
  intros [->|Hin] Ha.
  - rewrite Ha. simpl. lia.
  - destruct (f b); simpl; [lia|]. now apply IH.
Qed.

Lemma filter_length_lt {A : Type} (f : A -> bool) (l : list A) (a : A) :
  In a l -> f a = false -> (List.length (filter f l) < List.length l)%nat.
Proof.
  induction l as [|b l IH]; simpl; [tauto|].
  intros [->|Hin] Ha.
  - rewrite Ha. pose proof (filter_length f l). lia.
  - specialize (IH Hin Ha). destruct (f b); simpl; lia.
Qed.

Lemma bin_edges_length (n : nat) : List.length (bin_edges n) = (n + 1)%nat.
Proof. unfold bin_edges. rewrite length_map, length_seq. reflexivity. Qed.

Lemma in_bin_edges (n i : nat) :
  (i <= n)%nat ->
  In (inject_Z (Z.of_nat i) / inject_Z (Z.of_nat n)) (bin_edges n).
Proof.
  intro H. unfold bin_edges.
  apply (in_map (fun i => inject_Z (Z.of_nat i) / inject_Z (Z.of_nat n))).
  apply in_seq. lia.
Qed.

(** No edge of the grid is above 1. *)
Lemma bin_edges_le_one (n : nat) :
  Forall (fun b => Qle_bool b 1 = true) (bin_edges n).
Proof.
  unfold bin_edges. apply Forall_map, Forall_forall. intros i Hi.
  apply in_seq in Hi. apply Qle_bool_iff.
  destruct n as [|n].
  - assert (i = 0%nat) by lia. subst i. discriminate.
  - apply Qle_shift_div_r.
    + change 0 with (inject_Z 0). rewrite <- Zlt_Qlt. lia.
    + rewrite Qmult_1_l, <- Zle_Qle. lia.
Qed.

(** A prediction of exactly 1 lies at or above every edge, so it is given
    the index [n_bins], one past the last bin. *)
Lemma digitize_one (n : nat) : digitize (bin_edges n) 1 = (n + 1)%nat.
Proof.
  unfold digitize. rewrite (filter_all _ _ (bin_edges_le_one n)).
  apply bin_edges_length.
Qed.

Lemma one_in_no_bin (n i : nat) :
  (i < n)%nat -> bin_mask (bin_indices [1] n) i = [false].
Proof.
  intro Hi. unfold bin_mask, bin_indices. simpl. rewrite digitize_one.
  replace (Z.of_nat (n + 1) - 1 =? Z.of_nat i)%Z with false; [reflexivity|].
  symmetry. apply Z.eqb_neq. lia.
Qed.

(** A prediction in [0, 1) is given the index of one of the [n_bins] bins. *)
Lemma digitize_in_range (n : nat) (x : Q) :
  (0 < n)%nat -> 0 <= x -> x < 1 ->
  (0 <= Z.of_nat (digitize (bin_edges n) x) - 1 < Z.of_nat n)%Z.
Proof.
  intros Hn H0 H1. unfold digitize.
  assert (Hpos : 0 < inject_Z (Z.of_nat n)).
  { change 0 with (inject_Z 0). rewrite <- Zlt_Qlt. lia. }
  pose proof (filter_length_pos (fun b => Qle_bool b x) (bin_edges n) _
                (in_bin_edges n 0 ltac:(lia))) as Hlo.
  pose proof (filter_length_lt (fun b => Qle_bool b x) (bin_edges n) _
                (in_bin_edges n n ltac:(lia))) as Hhi.
  rewrite bin_edges_length in Hhi.
  cbv beta in Hlo, Hhi.
  assert (E0 : Qle_bool (inject_Z (Z.of_nat 0) / inject_Z (Z.of_nat n)) x = true).
  { apply Qle_bool_iff. change (inject_Z (Z.of_nat 0)) with 0.
    unfold Qdiv. rewrite Qmult_0_l. exact H0. }
  assert (E1 : Qle_bool (inject_Z (Z.of_nat n) / inject_Z (Z.of_nat n)) x = false).
  { apply not_true_is_false. intro H. apply Qle_bool_iff in H.
    assert (E : inject_Z (Z.of_nat n) / inject_Z (Z.of_nat n) == 1) by (field; lra).
    rewrite E in H. lra. }
  specialize (Hlo E0). specialize (Hhi E1). lia.
Qed.

(** C10 fails on the code.  With ten bins a prediction of exactly 1.0 is
    given bin index 10, which [range(10)] never visits: for the single
    prediction 1.0 with outcome 0 the calibration curve is empty and the
    expected calibration error is 0, although the prediction is off by 1. *)
Theorem calibration_drops_prediction_one :
  bin_indices [1] 10 = [10%Z] /\
  (forall i, (i < 10)%nat -> count_true (bin_mask (bin_indices [1] 10) i) = 0%nat) /\
  calibration_curve [0] [1] 10 = ([], []) /\
  expected_calibration_error [0] [1] 10 == 0.
Proof.
  split; [reflexivity|]. split; [|split; reflexivity].
  intros i Hi. rewrite (one_in_no_bin 10 i Hi). reflexivity.
Qed.

End Calibration.

(** *** Parlay simulation *)

Section ResultLists.
Context {A B : Type}.

Lemma map_result_inv (f : A -> result B) (xs : list A) (ys : list B) :
  map_result f xs = Ok ys -> Forall2 (fun x y => f x = Ok y) xs ys.
Proof.
  revert ys. induction xs as [|x xs IH]; simpl; intros ys H.
  - injection H as <-. constructor.
  - destruct (f x) as [y|] eqn:Ey; simpl in H; [|discriminate].
    destruct (map_result f xs) as [ys'|]; simpl in H; [|discriminate].
    injection H as <-. constructor; [exact Ey | now apply IH].
Qed.

Lemma map_result_ok (f : A -> result B) (g : A -> B) (xs : list A) :
  Forall (fun x => f x = Ok (g x)) xs -> map_result f xs = Ok (map g xs).
Proof.
  induction 1 as [|x xs Hx _ IH]; simpl; [reflexivity|].
  rewrite Hx, IH. reflexivity.
Qed.

End ResultLists.

Lemma broadcast_inv {C : Type} (f : Q -> Q -> C) (row v : list Q) (r : list C) :
  broadcast f row v = Ok r ->
  List.length row = List.length v /\ r = zip_with f row v.
Proof.
  unfold broadcast. destruct (List.length row =? List.length v)%nat eqn:E;
    [|discriminate].
  apply Nat.eqb_eq in E. intro H. injection H as <-. split; [exact E|reflexivity].
Qed.

Lemma broadcast_ok {C : Type} (f : Q -> Q -> C) (row v : list Q) :
  List.length row = List.length v -> broadcast f row v = Ok (zip_with f row v).
Proof.
  intro H. unfold broadcast. apply Nat.eqb_eq in H. rewrite H. reflexivity.
Qed.

Lemma zip_with_length_eq {X Y Z : Type} (f : X -> Y -> Z) (xs : list X) (ys : list Y) :
  List.length xs = List.length ys -> List.length (zip_with f xs ys) = List.length xs.
Proof.
  revert ys. induction xs as [|x xs IH]; intros [|y ys] H; simpl in *;
    try discriminate; [reflexivity|].
  f_equal. apply IH. lia.
Qed.

Lemma zip_with_nth {X Y Z : Type} (f : X -> Y -> Z) (xs : list X) (ys : list Y)
    (j : nat) (dx : X) (dy : Y) (dz : Z) :
  List.length xs = List.length ys -> (j < List.length xs)%nat ->
  nth j (zip_with f xs ys) dz = f (nth j xs dx) (nth j ys dy).
Proof.
  revert ys j. induction xs as [|x xs IH]; intros [|y ys] j Hlen Hj; simpl in *;
    try discriminate; try lia.
  destruct j as [|j]; [reflexivity|]. apply IH; lia.
Qed.

Lemma exceeds_inv (simulated : matrix) (lines : list Q) (hits : list (list bool)) :
  MonteCarloSimulator.exceeds simulated lines = Ok hits ->
  Forall (fun row => List.length row = List.length lines) simulated /\
  hits = map (hit_row lines) simulated.
Proof.
  unfold MonteCarloSimulator.exceeds. intro H. apply map_result_inv in H.
  induction H as [|row h simulated hits Hrow _ IH].
  - split; [constructor|reflexivity].
  - apply broadcast_inv in Hrow. destruct Hrow as [Hlen ->].
    destruct IH as [Hall ->]. split; [constructor; assumption|reflexivity].
Qed.

Lemma hit_row_nth (lines row : list Q) (j : nat) (d : bool) :
  List.length row = List.length lines -> (j < List.length lines)%nat ->
  nth j (hit_row lines row) d = leg_hits lines row j.
Proof.
  intros Hlen Hj. unfold hit_row, leg_hits.
  apply (zip_with_nth (fun x l => Qltb l x) row lines j 0 0 d); lia.
Qed.

Lemma hit_row_length (lines row : list Q) :
  List.length row = List.length lines ->
  List.length (hit_row lines row) = List.length lines.
Proof.
  intro H. unfold hit_row. rewrite zip_with_length_eq; assumption.
Qed.

Lemma forallb_of_map {X Y : Type} (f : Y -> bool) (g : X -> Y) (l : list X) :
  forallb f (map g l) = forallb (fun x => f (g x)) l.
Proof.
  induction l as [|x l IH]; simpl; [reflexivity|]. rewrite IH. reflexivity.
Qed.

Lemma forallb_nth (l : list bool) :
  forallb holds l = forallb (fun j => nth j l true) (seq 0 (List.length l)).
Proof.
  induction l as [|b l IH]; [reflexivity|].
  cbn [List.length seq forallb nth]. unfold holds at 1. f_equal.
  rewrite IH, <- seq_shift, forallb_of_map. reflexivity.
Qed.

Lemma forallb_ext_in {X : Type} (f g : X -> bool) (l : list X) :
  (forall x, In x l -> f x = g x) -> forallb f l = forallb g l.
Proof.
  induction l as [|x l IH]; intro H; simpl; [reflexivity|].
  rewrite (H x (or_introl eq_refl)), IH; [reflexivity|].
  intros y Hy. apply H. now right.
Qed.

(** [np.all(..., axis=1)] on a row is "every leg exceeds its line". *)
Lemma all_hit_row (lines row : list Q) :
  List.length row = List.length lines ->
  forallb holds (hit_row lines row) = all_legs_hit lines row.
Proof.
  intro Hlen. rewrite forallb_nth, (hit_row_length _ _ Hlen).
  unfold all_legs_hit. apply forallb_ext_in. intros j Hj.
  apply in_seq in Hj. apply hit_row_nth; [exact Hlen|lia].
Qed.

Lemma fold_zip_plus (rows : matrix) (acc : list Q) :
  Forall (fun r => List.length r = List.length acc) rows ->
  List.length (fold_left (zip_with Qplus) rows acc) = List.length acc /\
  forall j, (j < List.length acc)%nat ->
    nth j (fold_left (zip_with Qplus) rows acc) 0 == nth j acc 0 + column_sum j rows.
Proof.
  revert acc. induction rows as [|r rows IH]; intros acc Hall; simpl.
  - split; [reflexivity|]. intros j _. lra.
  - inversion Hall as [|? ? Hr Hrows]; subst.
    assert (Hz : List.length (zip_with Qplus acc r) = List.length acc).
    { apply zip_with_length_eq. lia. }
    destruct (IH (zip_with Qplus acc r)) as [Hlen Hnth].
    { rewrite Hz. exact Hrows. }
    split; [lia|]. intros j Hj.
    rewrite Hnth by lia.
    rewrite (zip_with_nth Qplus acc r j 0 0 0) by lia. lra.
Qed.

Lemma inject_succ (n : nat) :
  inject_Z (Z.of_nat (S n)) == 1 + inject_Z (Z.of_nat n).
Proof.
  rewrite Nat2Z.inj_succ. unfold Z.succ. rewrite inject_Z_plus.
  change (inject_Z 1) with 1. lra.
Qed.

Lemma column_sum_bools (j : nat) (hits : list (list bool)) :
  column_sum j (map (map bool_to_Q) hits) ==
  inject_Z (Z.of_nat (List.length (filter (fun h => nth j h false) hits))).
Proof.
  induction hits as [|h hits IH]; simpl; [reflexivity|].
  change 0 with (bool_to_Q false) at 1. rewrite map_nth, IH.
  destruct (nth j h false); simpl.
  - rewrite inject_succ. reflexivity.
  - lra.
Qed.

Lemma filter_hit_rows (lines : list Q) (simulated : matrix) (j : nat) :
  Forall (fun row => List.length row = List.length lines) simulated ->
  (j < List.length lines)%nat ->
  List.length (filter (fun h => nth j h false) (map (hit_row lines) simulated)) =
  List.length (filter (fun row => leg_hits lines row j) simulated).
Proof.
  intros Hall Hj. induction Hall as [|row simulated Hrow _ IH]; simpl;
    [reflexivity|].
  rewrite (hit_row_nth lines row j false Hrow Hj).
  destruct (leg_hits lines row j); simpl; rewrite IH; reflexivity.
Qed.

Lemma filter_all_hit_rows (lines : list Q) (simulated : matrix) :
  Forall (fun row => List.length row = List.length lines) simulated ->
  count_true (map (forallb holds) (map (hit_row lines) simulated)) =
  List.length (filter (all_legs_hit lines) simulated).
Proof.
  unfold count_true.
  induction 1 as [|row simulated Hrow _ IH]; simpl; [reflexivity|].
  rewrite (all_hit_row lines row Hrow).
  destruct (all_legs_hit lines row); simpl; [f_equal|]; exact IH.
Qed.

Lemma Forall2_Qeq_nth (l : list Q) (k : nat) (g : nat -> Q) :
  List.length l = k ->
  (forall j, (j < k)%nat -> nth j l 0 == g j) ->
  Forall2 Qeq l (map g (seq 0 k)).
Proof.
  revert k g. induction l as [|x l IH]; intros k g Hlen Hnth; simpl in Hlen; subst k.
  - constructor.
  - cbn [seq map]. constructor.
    + apply (Hnth 0%nat). lia.
    + rewrite <- seq_shift, map_map. apply IH; [reflexivity|].
      intros j Hj. apply (Hnth (S j)). lia.
Qed.

Lemma fold_left_Qmult (xs ys : list Q) :
  Forall2 Qeq xs ys ->
  forall a b, a == b -> fold_left Qmult xs a == b * fold_right Qmult 1 ys.
Proof.
  induction 1 as [|x y xs ys Hxy _ IH]; intros a b Hab; simpl.
  - lra.
  - rewrite (IH (a * x) (b * y)).
    + ring.
    + rewrite Hab, Hxy. reflexivity.
Qed.

Lemma np_prod_Qeq (xs ys : list Q) :
  Forall2 Qeq xs ys -> np_prod xs == fold_right Qmult 1 ys.
Proof.
  intro H. unfold np_prod. rewrite (fold_left_Qmult xs ys H 1 1); [lra|reflexivity].
Qed.

(** [np.mean(simulated > lines, axis=0)] lists the marginal
    over-probabilities of the legs. *)
Lemma mean_axis0_marginals (lines : list Q) (simulated : matrix) :
  Forall (fun row => List.length row = List.length lines) simulated ->
  Forall2 Qeq
    (np_mean_axis0 (List.length lines) (map (hit_row lines) simulated))
    (map (marginal simulated lines) (seq 0 (List.length lines))).
Proof.
  intro Hall. unfold np_mean_axis0.
  set (rows := map (map bool_to_Q) (map (hit_row lines) simulated)).
  destruct (fold_zip_plus rows (repeat 0 (List.length lines))) as [Hlen Hnth].
  { unfold rows. rewrite repeat_length. apply Forall_map, Forall_map.
    eapply Forall_impl; [|exact Hall]. intros row Hrow. cbv beta.
    rewrite length_map. now apply hit_row_length. }
  rewrite repeat_length in Hlen, Hnth.
  apply Forall2_Qeq_nth.
  - rewrite length_map. exact Hlen.
  - intros j Hj.
    set (n := inject_Z (Z.of_nat (List.length (map (hit_row lines) simulated)))).
    rewrite (nth_indep _ 0 ((fun t => t / n) 0)) by (rewrite length_map; lia).
    rewrite (map_nth (fun t => t / n)). cbv beta.
    rewrite (Hnth j Hj). rewrite nth_repeat.
    unfold rows. rewrite column_sum_bools, (filter_hit_rows lines simulated j Hall Hj).
    unfold marginal, fraction_of_draws, n. rewrite length_map.
    unfold Qdiv. ring.
Qed.

Section Simulation.
Import MonteCarloSimulator.
Context {RNG : Type}.
Variable next_normal : RNG -> Q * RNG.
Variable linalg_factor : matrix -> matrix.

Lemma draw_row_length (k : nat) (g : RNG) :
  List.length (fst (draw_row next_normal k g)) = k.
Proof.
  revert g. induction k as [|k IH]; intro g; simpl; [reflexivity|].
  destruct (next_normal g) as [x g1]. specialize (IH g1).
  destruct (draw_row next_normal k g1) as [xs g2]. simpl in *. lia.
Qed.

Lemma standard_normal_shape (n k : nat) (g : RNG) :
  List.length (fst (standard_normal next_normal n k g)) = n /\
  Forall (fun row => List.length row = k) (fst (standard_normal next_normal n k g)).
Proof.
  revert g. induction n as [|n IH]; intro g; simpl.
  - split; [reflexivity|constructor].
  - pose proof (draw_row_length k g) as Hrow.
    destruct (draw_row next_normal k g) as [row g1]. specialize (IH g1).
    destruct (standard_normal next_normal n k g1) as [rows g2]. simpl in *.
    destruct IH as [Hlen Hall]. split; [lia|]. constructor; assumption.
Qed.

Lemma map_result_length {A B : Type} (f : A -> result B) (xs : list A) (ys : list B) :
  map_result f xs = Ok ys -> List.length ys = List.length xs.
Proof.
  intro H. apply map_result_inv in H. symmetry. exact (Forall2_length H).
Qed.

(** A returned sample matrix has one row per simulation. *)
Lemma simulate_correlated_props_rows (self self' : t) (means stds : list Q)
    (correlation_matrix simulated : matrix) :
  simulate_correlated_props next_normal linalg_factor self means stds correlation_matrix
    = Ok (simulated, self') ->
  List.length simulated = n_simulations self /\
  n_simulations self' = n_simulations self.
Proof.
  unfold simulate_correlated_props.
  pose proof (standard_normal_shape (n_simulations self) (List.length means) (rng self))
    as [Hn _].
  destruct (standard_normal next_normal _ _ _) as [uncorrelated g]. simpl in Hn.
  destruct (matmul_T uncorrelated _) as [correlated|] eqn:Em; simpl; [|discriminate].
  destruct (map_result _ correlated) as [scaled|] eqn:Es; simpl; [|discriminate].
  intro H. injection H as <- <-. simpl.
  apply map_result_length in Em, Es. rewrite length_map. split; [lia|reflexivity].
Qed.

(** C8: when a parlay simulation returns, its report is computed from the
    sample matrix of that run (one row per simulation, with at least one
    simulation): the independent probability is the product of the per-leg
    marginal over-probabilities, the true probability is the fraction of
    draws in which every leg strictly exceeds its line, and the correlation
    advantage is their difference. *)
Theorem simulate_parlay_report (self self' : t) (props : list PropProjection.t)
    (correlation_matrix : option matrix) (stats : ParlayStats) :
  (0 < n_simulations self)%nat ->
  simulate_parlay next_normal linalg_factor self props correlation_matrix
    = Ok (stats, self') ->
  exists simulated,
    let lines := map PropProjection.line props in
    simulate_correlated_props next_normal linalg_factor self
      (map PropProjection.mean props) (map PropProjection.std props)
      (match correlation_matrix with
       | Some m => m
       | None => np_eye (List.length props)
       end) = Ok (simulated, self') /\
    List.length simulated = n_simulations self /\
    Forall2 Qeq (individual_probabilities stats)
      (map (marginal simulated lines) (seq 0 (List.length props))) /\
    independent_probability stats == product_of_marginals simulated lines /\
    true_probability stats == joint_frequency simulated lines /\
    correlation_advantage stats ==
      joint_frequency simulated lines - product_of_marginals simulated lines.
Proof.
  intros _ H. unfold simulate_parlay in H.
  destruct (simulate_correlated_props _ _ _ _ _ _) as [[simulated self1]|] eqn:Es;
    simpl in H; [|discriminate].
  destruct (exceeds simulated _) as [hits|] eqn:Eh; simpl in H; [|discriminate].
  injection H as <- <-. exists simulated. cbv zeta. simpl.
  destruct (exceeds_inv _ _ _ Eh) as [Hshape ->].
  destruct (simulate_correlated_props_rows _ _ _ _ _ _ Es) as [Hrows _].
  set (lines := map PropProjection.line props) in *.
  assert (Hk : List.length props = List.length lines).
  { unfold lines. rewrite length_map. reflexivity. }
  pose proof (mean_axis0_marginals lines simulated Hshape) as Hind.
  rewrite <- Hk in Hind.
  assert (Hprod : np_prod (np_mean_axis0 (List.length props) (map (hit_row lines) simulated))
                  == product_of_marginals simulated lines).
  { unfold product_of_marginals. rewrite <- Hk. apply np_prod_Qeq, Hind. }
  assert (Htrue : np_mean_bool (map (forallb holds) (map (hit_row lines) simulated))
                  == joint_frequency simulated lines).
  { unfold np_mean_bool, joint_frequency, fraction_of_draws.
    rewrite (filter_all_hit_rows lines simulated Hshape), !length_map. reflexivity. }
  split; [reflexivity|]. split; [exact Hrows|]. split; [exact Hind|].
  split; [exact Hprod|]. split; [exact Htrue|].
  rewrite Hprod, Htrue. reflexivity.
Qed.

(** The run does return when the factor of the correlation matrix is
    square of the size of the parlay. *)
Lemma simulate_parlay_returns (self : t) (props : list PropProjection.t)
    (correlation_matrix : option matrix) :
  let k := List.length props in
  let L := linalg_factor (match correlation_matrix with
                          | Some m => m
                          | None => np_eye k
                          end) in
  List.length L = k -> Forall (fun v => List.length v = k) L ->
  exists stats self',
    simulate_parlay next_normal linalg_factor self props correlation_matrix
      = Ok (stats, self').
Proof.
  intros k L HL HLrows. unfold simulate_parlay, simulate_correlated_props.
  rewrite length_map. fold k. fold L.
  pose proof (standard_normal_shape (n_simulations self) k (rng self)) as [_ Hu].
  destruct (standard_normal next_normal _ k _) as [uncorrelated g]. simpl in Hu.
  assert (Em : matmul_T uncorrelated L =
               Ok (map (fun u => map (fun v => dot u v) L) uncorrelated)).
  { unfold matmul_T. apply map_result_ok.
    eapply Forall_impl; [|exact Hu]. intros u Hlen. cbv beta in Hlen |- *.
    apply map_result_ok. eapply Forall_impl; [|exact HLrows].
    intros v Hv. cbv beta in Hv |- *. replace (List.length u =? List.length v)%nat with true;
      [reflexivity|]. symmetry. apply Nat.eqb_eq. lia. }
  rewrite Em. simpl.
  set (correlated := map _ uncorrelated).
  assert (Hc : Forall (fun row => List.length row = k) correlated).
  { unfold correlated. apply Forall_map, Forall_forall. intros u _.
    rewrite length_map. exact HL. }
  set (stds := map PropProjection.std props).
  set (means := map PropProjection.mean props).
  set (lines := map PropProjection.line props).
  assert (Hs : List.length stds = k) by (unfold stds; rewrite length_map; reflexivity).
  assert (Hm : List.length means = k) by (unfold means; rewrite length_map; reflexivity).
  assert (Hl : List.length lines = k) by (unfold lines; rewrite length_map; reflexivity).
  assert (Es : map_result (fun row => r <- broadcast Qmult row stds ;; broadcast Qplus r means)
                 correlated
               = Ok (map (fun row => zip_with Qplus (zip_with Qmult row stds) means) correlated)).
  { apply map_result_ok. eapply Forall_impl; [|exact Hc]. intros row Hrow. cbv beta in Hrow |- *.
    rewrite broadcast_ok by lia. simpl. rewrite broadcast_ok; [reflexivity|].
    rewrite zip_with_length_eq; lia. }
  rewrite Es. simpl.
  set (scaled := map (map _) _).
  assert (Hsc : Forall (fun row => List.length row = k) scaled).
  { unfold scaled. apply Forall_map, Forall_map.
    eapply Forall_impl; [|exact Hc]. intros row Hrow. cbv beta in Hrow |- *.
    rewrite length_map, zip_with_length_eq; rewrite zip_with_length_eq; lia. }
  assert (Eh : exceeds scaled lines = Ok (map (hit_row lines) scaled)).
  { unfold exceeds. apply map_result_ok. eapply Forall_impl; [|exact Hsc].
    intros row Hrow. cbv beta in Hrow |- *. apply broadcast_ok. lia. }
  rewrite Eh. simpl. eexists _, _. reflexivity.
Qed.

End Simulation.

Lemma simulate_parlay_report_witness :
  exists stats self' simulated,
    MonteCarloSimulator.simulate_parlay Examples.counting_normal Examples.identity_factor
      Examples.small_simulator Examples.two_props None = Ok (stats, self') /\
    List.length simulated = 6%nat /\
    MonteCarloSimulator.independent_probability stats
      == product_of_marginals simulated [245; 82] /\
    MonteCarloSimulator.true_probability stats == joint_frequency simulated [245; 82] /\
    MonteCarloSimulator.correlation_advantage stats
      == joint_frequency simulated [245; 82] - product_of_marginals simulated [245; 82].
Proof.
  destruct (MonteCarloSimulator.simulate_parlay Examples.counting_normal
              Examples.identity_factor Examples.small_simulator Examples.two_props None)
    as [[stats self']|e] eqn:E; [|vm_compute in E; discriminate E].
  assert (Hn : (0 < MonteCarloSimulator.n_simulations Examples.small_simulator)%nat)
    by (simpl; lia).
  destruct (simulate_parlay_report Examples.counting_normal Examples.identity_factor
              Examples.small_simulator self' Examples.two_props None stats Hn E)
    as (simulated & _ & Hrows & _ & Hind & Htrue & Hadv).
  exists stats, self', simulated.
  split; [reflexivity|]. split; [exact Hrows|]. split; [exact Hind|].
  split; [exact Htrue|exact Hadv].
Defined.

(** On that run four of the six draws clear both lines: the true
    probability is 2/3, the independent product 4/9, the advantage 2/9. *)
Example simulate_parlay_sample :
  exists stats self',
    MonteCarloSimulator.simulate_parlay Examples.counting_normal Examples.identity_factor
      Examples.small_simulator Examples.two_props None = Ok (stats, self') /\
    MonteCarloSimulator.true_probability stats == 2 # 3 /\
    MonteCarloSimulator.independent_probability stats == 4 # 9 /\
    MonteCarloSimulator.correlation_advantage stats == 2 # 9.
Proof.
  eexists _, _. split; [vm_compute; reflexivity|].
  repeat split.
Qed.

(** *** Adversarial validation and the caller's frames *)

Section Validation.
Import AdversarialValidator.
Context `{Sklearn}.

(** What [df[name] = value] leaves and what it writes. *)
Lemma set_scalar_effect (df : DataFrame.t) (name : string) (value : Q) :
  DataFrame.nrows (DataFrame.set_scalar df name value) = DataFrame.nrows df /\
  DataFrame.columns (DataFrame.set_scalar df name value) !! name
    = Some (repeat (Some value) (DataFrame.nrows df)) /\
  (forall c, c <> name ->
     DataFrame.columns (DataFrame.set_scalar df name value) !! c
       = DataFrame.columns df !! c).
Proof.
  unfold DataFrame.set_scalar. simpl. split; [reflexivity|]. split.
  - apply lookup_insert_eq.
  - intros c Hc. apply lookup_insert_ne. congruence.
Qed.

(** Writing a column that was not there changes the frame. *)
Lemma set_scalar_changes (df : DataFrame.t) (name : string) (value : Q) :
  DataFrame.columns df !! name = None ->
  Some (DataFrame.set_scalar df name value) <> Some df.
Proof.
  intros Hnone E.
  assert (E' : DataFrame.set_scalar df name value = df) by congruence.
  destruct (set_scalar_effect df name value) as (_ & Hl & _).
  rewrite E', Hnone in Hl. discriminate Hl.
Qed.

(** The heap that [validate] leaves, for two distinct frames. *)
Lemma validate_heap (self : t) (h : heap) (train test : nat)
    (dtr dte : DataFrame.t) :
  train <> test -> h !! train = Some dtr -> h !! test = Some dte ->
  exists report,
    validate self h train test =
      Ok (report,
          <[test := DataFrame.set_scalar dte "is_test" 1]>
            (<[train := DataFrame.set_scalar dtr "is_test" 0]> h)).
Proof.
  intros Hne Htr Hte. unfold validate, assign, deref.
  rewrite Htr. simpl.
  rewrite lookup_insert_ne by exact Hne. rewrite Hte. simpl.
  rewrite lookup_insert_ne by congruence. rewrite lookup_insert_eq. simpl.
  rewrite lookup_insert_eq. simpl.
  eexists. reflexivity.
Qed.

(** Passing one frame as both arguments labels it twice; the second label
    stays. *)
Lemma validate_heap_aliased (self : t) (h : heap) (a : nat) (df : DataFrame.t) :
  h !! a = Some df ->
  exists report h',
    validate self h a a = Ok (report, h') /\
    h' !! a = Some (DataFrame.set_scalar (DataFrame.set_scalar df "is_test" 0) "is_test" 1).
Proof.
  intro Ha. unfold validate, assign, deref.
  rewrite Ha. simpl. rewrite lookup_insert_eq. simpl.
  rewrite !lookup_insert_eq. simpl.
  eexists _, _. split; [reflexivity|]. apply lookup_insert_eq.
Qed.


End Validation.



(** *** The normal distribution function *)

Section NormalFacts.
Import Normal.
Local Open Scope R_scope.

Lemma dlim_ext (f g : R -> R) (x l l' : R) :
  (forall y, f y = g y) -> l = l' ->
  derivable_pt_lim f x l -> derivable_pt_lim g x l'.
Proof.
  intros Hfg <- H eps Heps. destruct (H eps Heps) as [d Hd].
  exists d. intros h Hh Hd'. rewrite <- !Hfg. now apply Hd.
Qed.

Lemma INR_S_neq_0 (k : nat) : INR (S k) <> 0.
Proof. apply not_0_INR. discriminate. Qed.

Lemma term_derivative (k : nat) (u : R) :
  derivable_pt_lim (term k) u (dterm k u).
Proof.
  induction k as [|k IH].
  - simpl. apply (dlim_ext (fct_cte 1) _ u 0 0); [reflexivity | reflexivity |].
    apply derivable_pt_lim_const.
  - pose proof (INR_S_neq_0 k) as Hk.
    apply (dlim_ext (mult_real_fct (/ INR (S k)) (term k * id)%F) _ u
             (/ INR (S k) * (dterm k u * id u + term k u * 1))).
    + intro y. unfold mult_real_fct, mult_fct, id.
      change (term (S k) y) with (term k y * y / INR (S k)). field. exact Hk.
    + unfold id. destruct k as [|k].
      * simpl. field.
      * cbn [dterm]. 
        assert (E : term (S k) u = term k u * u / INR (S k)) by reflexivity.
        rewrite E. rewrite (S_INR (S k)).
        pose proof (INR_S_neq_0 k) as Hk'. rewrite (S_INR (S k)) in Hk.
        field. split; assumption.
    + apply derivable_pt_lim_scal, derivable_pt_lim_mult;
        [exact IH | apply derivable_pt_lim_id].
Qed.

Lemma taylor_derivative (n : nat) (u : R) :
  derivable_pt_lim (taylor (S n)) u (taylor n u).
Proof.
  induction n as [|n IH].
  - apply (dlim_ext (fct_cte 1 + term 1)%F _ u (0 + dterm 1 u)).
    + intro y. reflexivity.
    + simpl. ring.
    + apply derivable_pt_lim_plus;
        [apply derivable_pt_lim_const | apply term_derivative].
  - apply (dlim_ext (taylor (S n) + term (S (S n)))%F _ u
             (taylor n u + dterm (S (S n)) u)).
    + intro y. reflexivity.
    + reflexivity.
    + apply derivable_pt_lim_plus; [exact IH | apply term_derivative].
Qed.

Lemma term_0 (k : nat) : term (S k) 0 = 0.
Proof. simpl. unfold Rdiv. ring. Qed.

Lemma taylor_0 (n : nat) : taylor n 0 = 1.
Proof.
  induction n as [|n IH]; [reflexivity|].
  cbn [taylor]. rewrite IH, term_0. ring.
Qed.

Lemma exp_le_1 (u : R) : u <= 0 -> exp u <= 1.
Proof.
  intros [H| ->].
  - left. rewrite <- exp_0. now apply exp_increasing.
  - rewrite exp_0. Lra.lra.
Qed.

(** Partial sums of the exponential series bracket [exp] on the negative
    axis: even ones from above, odd ones from below. *)
Lemma exp_taylor_bounds (n : nat) (u : R) :
  u <= 0 ->
  if Nat.even n then exp u <= taylor n u else taylor n u <= exp u.
Proof.
  revert u. induction n as [|n IH]; intros u Hu.
  - simpl. now apply exp_le_1.
  - destruct Hu as [Hu| ->];
      [|rewrite taylor_0, exp_0; destruct (Nat.even (S n)); Lra.lra].
    destruct (MVT_cor3 (fun v => exp v - taylor (S n) v)
                (fun v => exp v - taylor n v) u 0 Hu) as (c & Hc1 & Hc2 & Hc).
    { intros v _ _. apply derivable_pt_lim_minus;
        [apply derivable_pt_lim_exp | apply taylor_derivative]. }
    cbv beta in Hc. rewrite exp_0, taylor_0 in Hc.
    specialize (IH c Hc2).
    rewrite Nat.even_succ, <- Nat.negb_even.
    destruct (Nat.even n); cbn [negb].
    + assert (0 <= (taylor n c - exp c) * (- u)) by (apply Rmult_le_pos; Lra.lra).
      Lra.lra.
    + assert (0 <= (exp c - taylor n c) * (- u)) by (apply Rmult_le_pos; Lra.lra).
      Lra.lra.
Qed.

Lemma poly_derivative (cs : list R) (x : R) :
  derivable_pt_lim (poly cs) x (dpoly cs x).
Proof.
  induction cs as [|c q IH].
  - apply (dlim_ext (fct_cte 0) _ x 0 0); [reflexivity | reflexivity |].
    apply derivable_pt_lim_const.
  - apply (dlim_ext (fct_cte c + id * poly q)%F _ x
             (0 + (1 * poly q x + id x * dpoly q x))).
    + intro y. reflexivity.
    + unfold id. simpl. ring.
    + apply derivable_pt_lim_plus; [apply derivable_pt_lim_const|].
      apply derivable_pt_lim_mult; [apply derivable_pt_lim_id | exact IH].
Qed.

Lemma gauss_lower_derivative (x : R) :
  dpoly gauss_lower_coefficients x = taylor 7 (- (x * x) / 2).
Proof.
  unfold gauss_lower_coefficients. simpl. field.
Qed.

Lemma gauss_lower_bound (x : R) : taylor 7 (- (x * x) / 2) <= gauss x.
Proof.
  unfold gauss.
  apply (exp_taylor_bounds 7 (- (x * x) / 2)).
  Lra.nra.
Qed.

Lemma gauss_pos (x : R) : 0 < gauss x.
Proof. apply exp_pos. Qed.

(** The integral of [gauss] over [0, 2] is at least 1.1956. *)
Lemma gauss_integral_0_2 : 11956 / 10000 <= RiemannInt (gauss_integrable 0 2).
Proof.
  assert (h : 0 <= 2) by Lra.lra.
  pose (C0 := fun (x : R) (_ : 0 <= x <= 2) => gauss_continuity x).
  rewrite (RiemannInt_P20 h (FTC_P1 h C0) (gauss_integrable 0 2)).
  set (prim := primitive h (FTC_P1 h C0)).
  destruct (MVT_cor3 (fun x => prim x - poly gauss_lower_coefficients x)
              (fun x => gauss x - dpoly gauss_lower_coefficients x) 0 2)
    as (c & _ & _ & Hc).
  - Lra.lra.
  - intros x Hx0 Hx2. apply derivable_pt_lim_minus.
    + apply (RiemannInt_P28 h C0). split; assumption.
    + apply poly_derivative.
  - cbv beta in Hc. rewrite gauss_lower_derivative in Hc.
    pose proof (gauss_lower_bound c) as Hg.
    assert (E0 : poly gauss_lower_coefficients 0 = 0).
    { cbv [poly gauss_lower_coefficients]. ring. }
    assert (E2 : 11956 / 10000 <= poly gauss_lower_coefficients 2).
    { cbv [poly gauss_lower_coefficients]. Lra.lra. }
    rewrite E0 in Hc.
    assert (0 <= (gauss c - taylor 7 (- (c * c) / 2)) * (2 - 0))
      by (apply Rmult_le_pos; Lra.lra).
    Lra.lra.
Qed.

(** Machin's series, cut after three terms. *)
Lemma PI_upper : PI <= 31421 / 10000.
Proof.
  destruct (PI_2_3_7_ineq 1) as [_ H].
  cbv [Nat.mul Nat.add sum_f_R0 tg_alt PI_2_3_7_tg Ratan_seq pow INR] in H.
  Lra.lra.
Qed.

Lemma sqrt_2PI_upper : sqrt (2 * PI) <= 2507 / 1000.
Proof.
  pose proof PI_upper as Hpi.
  rewrite <- (sqrt_square (2507 / 1000)) by Lra.lra.
  apply sqrt_le_1_alt. Lra.lra.
Qed.

Lemma sqrt_2PI_pos : 0 < sqrt (2 * PI).
Proof. apply sqrt_lt_R0. pose proof PI_RGT_0. Lra.lra. Qed.

(** The integral grows with its upper end. *)
Lemma gauss_integral_monotone (x y : R) :
  x <= y -> RiemannInt (gauss_integrable 0 x) <= RiemannInt (gauss_integrable 0 y).
Proof.
  intro Hxy.
  rewrite <- (RiemannInt_P26 (gauss_integrable 0 x) (gauss_integrable x y)
                (gauss_integrable 0 y)).
  assert (0 <= RiemannInt (gauss_integrable x y)); [|Lra.lra].
  rewrite <- (Rmult_0_l (y - x)).
  rewrite <- (RiemannInt_P15 (RiemannInt_P14 x y 0)).
  apply RiemannInt_P19; [exact Hxy|].
  intros t _. unfold fct_cte. left. apply gauss_pos.
Qed.

(** Two standard deviations out, the upper tail is below 2.5 percent. *)
Lemma norm_cdf_tail (x : R) : 2 <= x -> 975 / 1000 < norm_cdf x.
Proof.
  intro Hx. unfold norm_cdf.
  pose proof (gauss_integral_monotone 2 x Hx) as Hmono.
  pose proof gauss_integral_0_2 as H2.
  pose proof sqrt_2PI_upper as Hs.
  pose proof sqrt_2PI_pos as Hp.
  set (I := RiemannInt (gauss_integrable 0 x)) in *.
  set (s := sqrt (2 * PI)) in *.
  assert (475 / 1000 < I / s); [|Lra.lra].
  apply Rmult_lt_reg_r with s; [exact Hp|].
  unfold Rdiv at 2. rewrite Rmult_assoc, Rinv_l by Lra.lra.
  Lra.lra.
Qed.

Lemma norm_cdf_0 : norm_cdf 0 = 1 / 2.
Proof.
  unfold norm_cdf. rewrite RiemannInt_P9. unfold Rdiv. ring.
Qed.

(** The density is at most 1, so the integral is at most its length. *)
Lemma gauss_le_1 (x : R) : gauss x <= 1.
Proof.
  unfold gauss. apply exp_le_1.
  assert (0 <= x * x) by apply Rle_0_sqr. Lra.lra.
Qed.

Lemma gauss_integral_upper (x : R) :
  0 <= x -> RiemannInt (gauss_integrable 0 x) <= x.
Proof.
  intro Hx. apply Rle_trans with (RiemannInt (RiemannInt_P14 0 x 1)).
  - apply RiemannInt_P19; [exact Hx|].
    intros t _. unfold fct_cte. apply gauss_le_1.
  - rewrite RiemannInt_P15. Lra.lra.
Qed.

Lemma sqrt_2PI_lower : 24 / 10 <= sqrt (2 * PI).
Proof.
  pose proof PI2_3_2 as Hpi.
  rewrite <- (sqrt_square (24 / 10)) by Lra.lra.
  apply sqrt_le_1_alt. Lra.lra.
Qed.

(** Within one standard deviation the distribution function stays below
    0.92. *)
Lemma norm_cdf_near (x : R) : 0 <= x -> x <= 1 -> norm_cdf x <= 92 / 100.
Proof.
  intros H0 H1. unfold norm_cdf.
  pose proof (gauss_integral_upper x H0) as Hup.
  pose proof sqrt_2PI_lower as Hs.
  set (I := RiemannInt (gauss_integrable 0 x)) in *.
  set (s := sqrt (2 * PI)) in *.
  assert (I / s <= 42 / 100); [|Lra.lra].
  apply Rmult_le_reg_r with s; [Lra.lra|].
  unfold Rdiv at 1. rewrite Rmult_assoc, Rinv_l by Lra.lra.
  Lra.lra.
Qed.

End NormalFacts.

(** *** Significant pairs *)

Section Significance.
Import Normal PropCorrelationEngine.
Local Open Scope R_scope.

Section Sorting.
Context {A : Type} (key : A -> R).

Lemma insert_desc_perm (x : A) (l : list A) :
  Permutation (insert_desc key x l) (x :: l).
Proof.
  induction l as [|y l IH]; simpl; [reflexivity|].
  destruct (Rlt_dec (key x) (key y)); [|reflexivity].
  rewrite IH. apply perm_swap.
Qed.

Lemma sort_desc_perm (l : list A) : Permutation (sort_desc key l) l.
Proof.
  induction l as [|x l IH]; simpl; [reflexivity|].
  rewrite insert_desc_perm. now constructor.
Qed.

Lemma insert_desc_hd (a x : A) (l : list A) :
  decreasing key a x -> HdRel (decreasing key) a l ->
  HdRel (decreasing key) a (insert_desc key x l).
Proof.
  intros Hax Hal. destruct l as [|y l]; simpl; [now constructor|].
  destruct (Rlt_dec (key x) (key y)).
  - constructor. now inversion Hal.
  - now constructor.
Qed.

Lemma insert_desc_sorted (x : A) (l : list A) :
  Sorted (decreasing key) l -> Sorted (decreasing key) (insert_desc key x l).
Proof.
  induction 1 as [|y l Hl IH Hy]; simpl.
  - repeat constructor.
  - destruct (Rlt_dec (key x) (key y)) as [Hlt|Hge].
    + constructor; [exact IH|].
      apply insert_desc_hd; [|exact Hy]. unfold decreasing. Lra.lra.
    + constructor; [now constructor|].
      constructor. unfold decreasing. Lra.lra.
Qed.

Lemma sort_desc_sorted (l : list A) : Sorted (decreasing key) (sort_desc key l).
Proof.
  induction l as [|x l IH]; simpl; [constructor|].
  now apply insert_desc_sorted.
Qed.

Lemma decreasing_transitive : Relations_1.Transitive (decreasing key).
Proof.
  intros a b c Hab Hbc. unfold decreasing in *. Lra.lra.
Qed.

(** The sort yields decreasing keys, each element at or above all later
    ones. *)
Lemma sort_desc_strongly_sorted (l : list A) :
  StronglySorted (decreasing key) (sort_desc key l).
Proof.
  apply Sorted_StronglySorted; [exact decreasing_transitive|].
  apply sort_desc_sorted.
Qed.

(** Equal keys keep their original order. *)
Lemma insert_desc_stable (x : A) (l : list A) :
  Forall (fun y => key y <= key x) l -> insert_desc key x l = x :: l.
Proof.
  destruct l as [|y l]; [reflexivity|]. intro H. inversion H; subst. simpl.
  destruct (Rlt_dec (key x) (key y)); [Lra.lra|reflexivity].
Qed.

End Sorting.

Lemma test_pair_retained (self : t) (m : Matrix) (min_correlation : R)
    (props : string * string) (pr : CorrelatedPair) :
  In props (unique_pairs (labels m)) ->
  In pr (test_pair self m min_correlation props) ->
  retained self m min_correlation pr.
Proof.
  destruct props as [a b]. intros Hin. unfold test_pair.
  destruct (Rlt_dec (Rabs (loc m a b)) min_correlation) as [Hweak|Hstrong];
    [intros []|].
  destruct (Rlt_dec (fisher_p_value (min_sample_size self) (loc m a b))
              (significance_level self)) as [Hsig|Hnot]; [|intros []].
  intros [<-|[]]. unfold retained. simpl.
  repeat split; try assumption; try reflexivity. Lra.lra.
Qed.

(** The loop body on a pair that passes both tests. *)
Lemma test_pair_keeps (self : t) (m : Matrix) (min_correlation : R) (a b : string) :
  min_correlation <= Rabs (loc m a b) ->
  fisher_p_value (min_sample_size self) (loc m a b) < significance_level self ->
  test_pair self m min_correlation (a, b) =
    [ {| prop1 := a; prop2 := b; correlation := loc m a b;
         covariance := match covariance_matrix self with
                       | Some c => loc c a b
                       | None => 0
                       end;
         p_value := fisher_p_value (min_sample_size self) (loc m a b);
         sample_size := min_sample_size self |} ].
Proof.
  intros Hstrong Hsig. unfold test_pair.
  destruct (Rlt_dec (Rabs (loc m a b)) min_correlation); [Lra.lra|].
  destruct (Rlt_dec (fisher_p_value (min_sample_size self) (loc m a b))
              (significance_level self)); [reflexivity|contradiction].
Qed.

Lemma find_significant_pairs_inv (self : t) (arg : option Matrix)
    (min_correlation : R) (pairs : list CorrelatedPair) :
  find_significant_pairs self arg min_correlation = Ok pairs ->
  exists m,
    match arg with Some a => Some a | None => correlation_matrix self end = Some m /\
    pairs = sort_desc (fun x => Rabs (correlation x))
              (flat_map (test_pair self m min_correlation) (unique_pairs (labels m))).
Proof.
  unfold find_significant_pairs.
  destruct (match arg with Some a => Some a | None => correlation_matrix self end)
    as [m|]; [|discriminate].
  intro H. injection H as <-. exists m. split; reflexivity.
Qed.

(** Discovery returns as soon as a correlation matrix is at hand. *)
Lemma find_significant_pairs_returns (self : t) (arg : option Matrix)
    (min_correlation : R) (m : Matrix) :
  match arg with Some a => Some a | None => correlation_matrix self end = Some m ->
  exists pairs, find_significant_pairs self arg min_correlation = Ok pairs.
Proof.
  intro H. unfold find_significant_pairs. rewrite H. eexists. reflexivity.
Qed.


End Significance.

Section FourGames.
Import Normal PropCorrelationEngine.
Local Open Scope R_scope.

Lemma ln_nondecreasing (x y : R) : 0 < x -> x <= y -> ln x <= ln y.
Proof.
  intros Hx [Hlt| ->]; [|Lra.lra]. left. now apply ln_increasing.
Qed.

Lemma ln_3_lower : 1 <= ln 3.
Proof.
  rewrite <- (ln_exp 1) at 1.
  apply ln_nondecreasing; [apply exp_pos | apply exp_le_3].
Qed.

Lemma ln_3_upper : ln 3 <= 2.
Proof.
  rewrite <- (ln_exp 2). apply ln_nondecreasing; [Lra.lra|].
  replace 2 with (1 + 1) by ring. rewrite exp_plus.
  pose proof (exp_ineq1_le 1). Lra.nra.
Qed.

Lemma sqrt_27_lower : 5 <= sqrt 27.
Proof.
  rewrite <- (sqrt_square 5) by Lra.lra. apply sqrt_le_1_alt. Lra.lra.
Qed.

Lemma fisher_z_half : fisher_z (1 / 2) = (5 / 10) * ln 3.
Proof.
  unfold fisher_z. replace ((1 + 1 / 2) / (1 - 1 / 2)) with 3 by field.
  reflexivity.
Qed.

(** A correlation of 1/2 is significant at 5 percent over 30 games. *)
Lemma fisher_p_value_30 : fisher_p_value 30 (1 / 2) < 5 / 100.
Proof.
  unfold fisher_p_value. rewrite fisher_z_half.
  pose proof ln_3_lower as Hln. pose proof sqrt_27_lower as Hs.
  replace (30 - 3) with 27 by ring.
  rewrite Rabs_pos_eq by Lra.lra.
  assert (E : (5 / 10) * ln 3 / (1 / sqrt 27) = (5 / 10) * ln 3 * sqrt 27)
    by (field; Lra.lra).
  rewrite E.
  assert (Hx : 2 <= (5 / 10) * ln 3 * sqrt 27) by Lra.nra.
  pose proof (norm_cdf_tail _ Hx). Lra.lra.
Qed.

(** It is not significant over 4 games. *)
Lemma fisher_p_value_4 : 5 / 100 <= fisher_p_value 4 (1 / 2).
Proof.
  unfold fisher_p_value. rewrite fisher_z_half.
  pose proof ln_3_lower as Hlo. pose proof ln_3_upper as Hhi.
  replace (4 - 3) with 1 by ring. rewrite sqrt_1.
  rewrite Rabs_pos_eq by Lra.lra.
  replace ((5 / 10) * ln 3 / (1 / 1)) with ((5 / 10) * ln 3) by field.
  assert (H0 : 0 <= (5 / 10) * ln 3) by Lra.lra.
  assert (H1 : (5 / 10) * ln 3 <= 1) by Lra.lra.
  pose proof (norm_cdf_near _ H0 H1). Lra.lra.
Qed.

Lemma four_games_columns :
  column_of Examples.four_games "QB_Pass_Yards" = [0; 1; 2; 1] /\
  column_of Examples.four_games "WR1_Rec_Yards" = [0; 1; 1; 2].
Proof. split; reflexivity. Qed.

Lemma four_games_pearson : pearson [0; 1; 2; 1] [0; 1; 1; 2] = 1 / 2.
Proof.
  assert (Eab : sample_cov [0; 1; 2; 1] [0; 1; 1; 2] = 1 / 3).
  { unfold sample_cov, Rmean, Rsum. cbn [zip_with fold_right List.length INR]. field. }
  assert (Eaa : sample_cov [0; 1; 2; 1] [0; 1; 2; 1] = 2 / 3).
  { unfold sample_cov, Rmean, Rsum. cbn [zip_with fold_right List.length INR]. field. }
  assert (Ebb : sample_cov [0; 1; 1; 2] [0; 1; 1; 2] = 2 / 3).
  { unfold sample_cov, Rmean, Rsum. cbn [zip_with fold_right List.length INR]. field. }
  unfold pearson. rewrite Eab, Eaa, Ebb, sqrt_sqrt by Lra.lra. field.
Qed.

Lemma four_games_correlations :
  calculate_prop_correlations Examples.default_engine Examples.four_games
    ["QB_Pass_Yards"; "WR1_Rec_Yards"]
  = Ok (Examples.four_games_matrix, Examples.four_games_engine,
        ["Sample size below minimum. Correlations may be unreliable."]).
Proof. reflexivity. Qed.

Lemma four_games_correlation :
  loc Examples.four_games_matrix "QB_Pass_Yards" "WR1_Rec_Yards" = 1 / 2.
Proof.
  cbn [loc Examples.four_games_matrix].
  destruct four_games_columns as [-> ->]. apply four_games_pearson.
Qed.

Lemma four_games_pairs :
  find_significant_pairs Examples.four_games_engine None default_min_correlation
  = Ok [Examples.four_games_pair].
Proof.
  unfold find_significant_pairs. cbn [correlation_matrix Examples.four_games_engine].
  cbn [labels Examples.four_games_matrix unique_pairs map app flat_map].
  rewrite test_pair_keeps.
  - reflexivity.
  - rewrite four_games_correlation. unfold default_min_correlation.
    rewrite Rabs_pos_eq; Lra.lra.
  - rewrite four_games_correlation. cbn [min_sample_size Examples.four_games_engine
      significance_level]. apply fisher_p_value_30.
Qed.

End FourGames.




(** *** Odds, stakes and expected value *)

Section Odds.
Import KellyCriterion.

(** The guards of [calculate_kelly_fraction], read off a returned value. *)
Lemma kelly_ok_inv (p d fk f : Q) :
  calculate_kelly_fraction p d fk = Ok f -> 0 < p /\ p < 1 /\ 1 < d.
Proof.
  intro H.
  destruct (Qlt_le_dec 0 p) as [H0|H0];
    [destruct (Qlt_le_dec p 1) as [H1|H1];
     [destruct (Qlt_le_dec 1 d) as [Hd|Hd]; [tauto|]|]|];
    destruct (kelly_rejects_bad_input p d fk) as [msg Hraise]; try tauto;
    rewrite Hraise in H; discriminate.
Qed.

(** The full Kelly fraction in terms of the product of probability and
    odds. *)
Lemma kelly_full_form (p d : Q) :
  1 < d -> ((d - 1) * p - (1 - p)) / (d - 1) == (p * d - 1) / (d - 1).
Proof. intro Hd. field. lra. Qed.

Lemma kelly_full_sign (p d : Q) :
  1 < d ->
  (((d - 1) * p - (1 - p)) / (d - 1) <= 0 <-> p * d <= 1) /\
  (0 < ((d - 1) * p - (1 - p)) / (d - 1) <-> 1 < p * d).
Proof.
  intro Hd. rewrite (kelly_full_form p d Hd).
  assert (Hb : 0 < d - 1) by lra.
  split; split; intro H.
  - destruct (Qlt_le_dec 1 (p * d)) as [Hgt|Hle]; [|exact Hle].
    assert (0 < (p * d - 1) / (d - 1)) by (apply Qlt_shift_div_l; lra). lra.
  - apply Qle_shift_div_r; lra.
  - destruct (Qlt_le_dec 1 (p * d)) as [Hgt|Hle]; [exact Hgt|].
    assert ((p * d - 1) / (d - 1) <= 0) by (apply Qle_shift_div_r; lra). lra.
  - apply Qlt_shift_div_l; lra.
Qed.

Lemma min2_Qeq (a a' b : Q) : a == a' -> min2 a b == min2 a' b.
Proof. intro E. unfold min2. case_Qltb b a; case_Qltb b a'; lra. Qed.

(** What [calculate_kelly_fraction] returns on its domain. *)
Lemma kelly_cases (p d fk : Q) :
  0 < p -> p < 1 -> 1 < d ->
  exists f,
    calculate_kelly_fraction p d fk = Ok f /\
    ((p * d <= 1 /\ f == 0) \/
     (1 < p * d /\ f == min2 ((p * d - 1) / (d - 1) * fk) (20 # 100))).
Proof.
  intros H0 H1 Hd. rewrite (kelly_unfold p d fk H0 H1 Hd). cbv zeta.
  destruct (kelly_full_sign p d Hd) as [Hle Hlt].
  destruct (Qle_bool _ 0) eqn:E.
  - exists 0. split; [reflexivity|]. left. split; [|reflexivity].
    apply Hle. now apply Qle_bool_iff.
  - eexists. split; [reflexivity|]. right.
    assert (Hpos : 0 < ((d - 1) * p - (1 - p)) / (d - 1)).
    { apply Qnot_le_lt. intro Hc. apply Qle_bool_iff in Hc. congruence. }
    split; [now apply Hlt|]. apply min2_Qeq.
    rewrite (kelly_full_form p d Hd). reflexivity.
Qed.

Lemma kelly_sign (p d fk : Q) :
  0 < p -> p < 1 -> 1 < d -> 0 <= fk ->
  exists f,
    calculate_kelly_fraction p d fk = Ok f /\
    0 <= f /\ f <= 20 # 100 /\ (0 < f <-> 1 < p * d /\ 0 < fk).
Proof.
  intros H0 H1 Hd Hfk.
  destruct (kelly_cases p d fk H0 H1 Hd) as (f & Hf & Hcase).
  exists f. split; [exact Hf|].
  destruct Hcase as [[Hc E]|[Hc E]]; rewrite E.
  - repeat split; try lra.
  - assert (Hfull : 0 < (p * d - 1) / (d - 1)) by (apply Qlt_shift_div_l; lra).
    assert (Hstake : 0 <= (p * d - 1) / (d - 1) * fk)
      by (apply Qmult_le_0_compat; lra).
    split; [apply NFL_pre_spec.min2_glb; lra|]. split; [apply NFL_pre_spec.min2_le_r|].
    split.
    + intro Hpos. split; [exact Hc|].
      destruct (Qlt_le_dec 0 fk) as [Hk|Hk]; [exact Hk|].
      assert (Hz : fk == 0) by lra.
      assert (Hm : min2 ((p * d - 1) / (d - 1) * fk) (20 # 100) == min2 0 (20 # 100)).
      { apply min2_Qeq. rewrite Hz. ring. }
      rewrite Hm in Hpos. discriminate Hpos.
    + intros [_ Hk].
      assert (0 < (p * d - 1) / (d - 1) * fk) by (apply Qmult_lt_0_compat; assumption).
      unfold min2. case_Qltb (20 # 100) ((p * d - 1) / (d - 1) * fk); lra.
Qed.






(** X16: [minimum_edge_required] never uses the odds it is given beyond
    dividing by them: for non-zero odds it returns twice the standard
    deviation, the same value whatever the odds, and for odds of zero it
    raises ZeroDivisionError. *)
Theorem minimum_edge_ignores_odds (decimal_odds other_odds confidence_std : Q) :
  (decimal_odds == 0 ->
   minimum_edge_required decimal_odds confidence_std = Raise ZeroDivisionError) /\
  (~ decimal_odds == 0 ->
   minimum_edge_required decimal_odds confidence_std = Ok (2 * confidence_std)) /\
  (~ decimal_odds == 0 -> ~ other_odds == 0 ->
   minimum_edge_required decimal_odds confidence_std
   = minimum_edge_required other_odds confidence_std).
Proof.
  unfold minimum_edge_required. repeat split.
  - intro Hz. unfold div. apply Qeq_bool_iff in Hz. rewrite Hz. reflexivity.
  - intro Hnz. rewrite (div_ok _ _ Hnz). reflexivity.
  - intros Hnz Hnz'. rewrite (div_ok _ _ Hnz), (div_ok _ _ Hnz'). reflexivity.
Qed.

End Odds.


(** *** Frequencies over simulated samples *)

Lemma count_true_map {A : Type} (f : A -> bool) (l : list A) :
  count_true (map f l) = List.length (filter f l).
Proof.
  unfold count_true. induction l as [|a l IH]; cbn [map filter]; [reflexivity|].
  change (holds (f a)) with (f a). destruct (f a); cbn [List.length]; rewrite IH;
    reflexivity.
Qed.

Lemma filter_map_length {A B : Type} (f : B -> bool) (g : A -> B) (l : list A) :
  List.length (filter f (map g l)) = List.length (filter (fun a => f (g a)) l).
Proof.
  induction l as [|a l IH]; cbn [map filter]; [reflexivity|].
  destruct (f (g a)); cbn [List.length]; rewrite IH; reflexivity.
Qed.

Lemma filter_length_mono {A : Type} (f g : A -> bool) (l : list A) :
  (forall a, In a l -> f a = true -> g a = true) ->
  (List.length (filter f l) <= List.length (filter g l))%nat.
Proof.
  induction l as [|a l IH]; intro H; cbn [filter]; [lia|].
  assert (IH' : (List.length (filter f l) <= List.length (filter g l))%nat).
  { apply IH. intros b Hb. apply H. right. exact Hb. }
  destruct (f a) eqn:Ef.
  - rewrite (H a (or_introl eq_refl) Ef). cbn [List.length]. lia.
  - destruct (g a); cbn [List.length]; lia.
Qed.

Lemma filter_length_bound {A : Type} (f : A -> bool) (l : list A) :
  (List.length (filter f l) <= List.length l)%nat.
Proof.
  induction l as [|a l IH]; cbn [filter]; [lia|].
  destruct (f a); cbn [List.length]; lia.
Qed.

Lemma filter_none {A : Type} (f : A -> bool) (l : list A) :
  Forall (fun a => f a = false) l -> filter f l = [].
Proof.
  induction 1 as [|a l Ha _ IH]; cbn [filter]; [reflexivity|].
  rewrite Ha. exact IH.
Qed.

(** Ratios of counts to a common total. *)
Lemma count_ratio_le (a b n : nat) :
  (a <= b)%nat ->
  inject_Z (Z.of_nat a) / inject_Z (Z.of_nat n)
  <= inject_Z (Z.of_nat b) / inject_Z (Z.of_nat n).
Proof.
  intro H. unfold Qdiv. apply Qmult_le_compat_r.
  - rewrite <- Zle_Qle. lia.
  - apply Qinv_le_0_compat. change 0 with (inject_Z 0). rewrite <- Zle_Qle. lia.
Qed.

Lemma count_pos (n : nat) : (0 < n)%nat -> 0 < inject_Z (Z.of_nat n).
Proof. intro H. change 0 with (inject_Z 0). rewrite <- Zlt_Qlt. lia. Qed.

Lemma count_ratio_range (a n : nat) :
  (a <= n)%nat -> (0 < n)%nat ->
  0 <= inject_Z (Z.of_nat a) / inject_Z (Z.of_nat n) /\
  inject_Z (Z.of_nat a) / inject_Z (Z.of_nat n) <= 1.
Proof.
  intros Ha Hn. pose proof (count_pos n Hn) as Hp.
  assert (H0 : 0 <= inject_Z (Z.of_nat a)).
  { change 0 with (inject_Z 0). rewrite <- Zle_Qle. lia. }
  assert (H1 : inject_Z (Z.of_nat a) <= inject_Z (Z.of_nat n)).
  { rewrite <- Zle_Qle. lia. }
  split.
  - apply Qle_shift_div_l; lra.
  - apply Qle_shift_div_r; lra.
Qed.

Section Frequencies.

Context {RNG : Type}.
Variable next_normal : RNG -> Q * RNG.
Variable linalg_factor : matrix -> matrix.

Import MonteCarloSimulator.

(** X17: the over-probability of a non-empty sample is a fraction between 0
    and 1: the share of the values strictly above the line.  It does not
    increase when the line is raised, it is the complement of the share of
    the values at or below the line, it is 1 when every value is above the
    line and 0 when none is. *)
Theorem probability_over_range (self : t (RNG := RNG)) (simulated_values : list Q)
    (line higher_line : Q) :
  simulated_values <> [] -> line <= higher_line ->
  0 <= calculate_probability_over self simulated_values line /\
  calculate_probability_over self simulated_values line <= 1 /\
  calculate_probability_over self simulated_values higher_line
    <= calculate_probability_over self simulated_values line /\
  calculate_probability_over self simulated_values line
    + np_mean_bool (map (fun x => Qle_bool x line) simulated_values) == 1 /\
  (Forall (fun x => line < x) simulated_values ->
   calculate_probability_over self simulated_values line == 1) /\
  (Forall (fun x => x <= line) simulated_values ->
   calculate_probability_over self simulated_values line == 0).
Proof.
  intros Hne Hlines. unfold calculate_probability_over, np_mean_bool.
  rewrite !count_true_map, !length_map.
  assert (Hn : (0 < List.length simulated_values)%nat).
  { destruct simulated_values; [congruence | cbn; lia]. }
  pose proof (count_pos _ Hn) as Hp.
  destruct (count_ratio_range (List.length (filter (fun x => Qltb line x) simulated_values))
              (List.length simulated_values) (filter_length_bound _ _) Hn) as [H0 H1].
  split; [exact H0|]. split; [exact H1|]. split; [|split; [|split]].
  - apply count_ratio_le, filter_length_mono.
    intros x _ Hx. apply Qltb_true in Hx. apply Qltb_true. lra.
  - assert (Hsplit : (List.length (filter (fun x => Qltb line x) simulated_values)
                      + List.length (filter (fun x => Qle_bool x line) simulated_values)
                      = List.length simulated_values)%nat).
    { clear. induction simulated_values as [|x l IH]; cbn [filter]; [reflexivity|].
      unfold Qltb at 1. destruct (Qle_bool x line); cbn [negb List.length]; lia. }
    assert (Hq : inject_Z (Z.of_nat (List.length simulated_values))
                 == inject_Z (Z.of_nat (List.length
                                          (filter (fun x => Qltb line x) simulated_values)))
                    + inject_Z (Z.of_nat (List.length
                                            (filter (fun x => Qle_bool x line)
                                                    simulated_values)))).
    { rewrite <- inject_Z_plus, <- Nat2Z.inj_add, Hsplit. reflexivity. }
    set (qn := inject_Z (Z.of_nat (List.length simulated_values))) in *.
    set (qa := inject_Z (Z.of_nat (List.length (filter (fun x => Qltb line x) _)))) in *.
    set (qb := inject_Z (Z.of_nat (List.length (filter (fun x => Qle_bool x line) _)))) in *.
    assert (E : qa / qn + qb / qn == (qa + qb) / qn) by (field; lra).
    rewrite E, <- Hq. field. lra.
  - intro Hall. rewrite filter_all.
    + field. lra.
    + eapply Forall_impl; [|exact Hall]. intros x Hx. now apply Qltb_true.
  - intro Hall. rewrite filter_none.
    + cbn. unfold Qdiv. ring.
    + eapply Forall_impl; [|exact Hall]. intros x Hx. now apply Qltb_false.
Qed.

End Frequencies.


Lemma probability_over_range_witness :
  0 <= MonteCarloSimulator.calculate_probability_over
         Examples.small_simulator [240; 250; 260] 245 /\
  MonteCarloSimulator.calculate_probability_over
    Examples.small_simulator [240; 250; 260] 245 <= 1 /\
  MonteCarloSimulator.calculate_probability_over
    Examples.small_simulator [240; 250; 260] 255
  <= MonteCarloSimulator.calculate_probability_over
       Examples.small_simulator [240; 250; 260] 245.
Proof.
  destruct (probability_over_range Examples.small_simulator [240; 250; 260] 245 255)
    as (H0 & H1 & Hmono & _); [discriminate | discriminate |].
  split; [exact H0|]. split; [exact H1 | exact Hmono].
Defined.

(** *** The sample matrix and the report of a parlay simulation *)

Lemma max2_floor (x : Q) : 0 <= max2 x 0.
Proof. unfold max2. case_Qltb x 0; lra. Qed.

Lemma Forall2_Qeq_Forall (P : Q -> Prop) (xs ys : list Q) :
  (forall a b, a == b -> P b -> P a) ->
  Forall2 Qeq xs ys -> Forall P ys -> Forall P xs.
Proof.
  intros HP H. induction H as [|x y xs ys Hxy _ IH]; intro Hall; [constructor|].
  inversion Hall as [|? ? Hy Hys]; subst.
  constructor; [exact (HP x y Hxy Hy) | exact (IH Hys)].
Qed.

Lemma Forall2_Qeq_length (xs ys : list Q) :
  Forall2 Qeq xs ys -> List.length xs = List.length ys.
Proof. induction 1; cbn [List.length]; congruence. Qed.

Section SampleMatrix.

Context {RNG : Type}.
Variable next_normal : RNG -> Q * RNG.
Variable linalg_factor : matrix -> matrix.

Import MonteCarloSimulator.


Lemma simulate_parlay_inv (self self' : t) (props : list PropProjection.t)
    (correlation_matrix : option matrix) (stats : ParlayStats) :
  simulate_parlay next_normal linalg_factor self props correlation_matrix
    = Ok (stats, self') ->
  exists simulated,
    simulate_correlated_props next_normal linalg_factor self
      (map PropProjection.mean props) (map PropProjection.std props)
      (match correlation_matrix with
       | Some m => m
       | None => np_eye (List.length props)
       end) = Ok (simulated, self') /\
    Forall (fun row => List.length row = List.length (map PropProjection.line props))
           simulated /\
    true_probability stats =
      np_mean_bool (map (forallb holds)
                        (map (hit_row (map PropProjection.line props)) simulated)) /\
    individual_probabilities stats =
      np_mean_axis0 (List.length props)
                    (map (hit_row (map PropProjection.line props)) simulated) /\
    independent_probability stats = np_prod (individual_probabilities stats) /\
    correlation_advantage stats
      = true_probability stats - independent_probability stats.
Proof.
  intro H. unfold simulate_parlay in H.
  destruct (simulate_correlated_props _ _ _ _ _ _) as [[simulated self1]|] eqn:Es;
    simpl in H; [|discriminate].
  destruct (exceeds simulated _) as [hits|] eqn:Eh; simpl in H; [|discriminate].
  injection H as <- <-. exists simulated.
  destruct (exceeds_inv _ _ _ Eh) as [Hshape ->].
  split; [reflexivity|]. split; [exact Hshape|]. repeat split.
Qed.

(** With at least one draw, the joint frequency is at most every marginal
    frequency, and all of them are fractions. *)
Lemma joint_le_marginal (simulated : matrix) (lines : list Q) (j : nat) :
  (0 < List.length simulated)%nat -> (j < List.length lines)%nat ->
  0 <= joint_frequency simulated lines /\
  joint_frequency simulated lines <= marginal simulated lines j /\
  marginal simulated lines j <= 1.
Proof.
  intros Hn Hj. unfold joint_frequency, marginal, fraction_of_draws.
  split; [|split].
  - apply (count_ratio_range _ _ (filter_length_bound _ _) Hn).
  - apply count_ratio_le, filter_length_mono.
    intros row _ Hrow. unfold all_legs_hit in Hrow.
    rewrite forallb_forall in Hrow. apply Hrow. apply in_seq. lia.
  - apply (count_ratio_range _ _ (filter_length_bound _ _) Hn).
Qed.

(** X19: in the report of a parlay simulation with at least one draw, the
    probability that all legs hit is a fraction between 0 and 1 and is at
    most the individual probability of every leg; there is one individual
    probability per prop, each at most 1. *)
Theorem parlay_probability_bounds (self self' : t) (props : list PropProjection.t)
    (correlation_matrix : option matrix) (stats : ParlayStats) :
  (0 < n_simulations self)%nat ->
  simulate_parlay next_normal linalg_factor self props correlation_matrix
    = Ok (stats, self') ->
  0 <= true_probability stats /\ true_probability stats <= 1 /\
  List.length (individual_probabilities stats) = List.length props /\
  Forall (fun q => true_probability stats <= q /\ q <= 1)
         (individual_probabilities stats).
Proof.
  intros Hn H. apply simulate_parlay_inv in H.
  destruct H as (simulated & Hsim & Hshape & Htrue & Hind & _).
  destruct (simulate_correlated_props_rows _ _ _ _ _ _ _ _ Hsim) as [Hrows _].
  set (lines := map PropProjection.line props) in *.
  assert (Hk : List.length props = List.length lines).
  { unfold lines. rewrite length_map. reflexivity. }
  assert (Hdraws : (0 < List.length simulated)%nat) by lia.
  assert (Hjoint : true_probability stats == joint_frequency simulated lines).
  { rewrite Htrue. unfold np_mean_bool, joint_frequency, fraction_of_draws.
    rewrite (filter_all_hit_rows lines simulated Hshape), !length_map. reflexivity. }
  pose proof (mean_axis0_marginals lines simulated Hshape) as Hmarg.
  rewrite <- Hk, <- Hind in Hmarg.
  assert (H0 : 0 <= joint_frequency simulated lines /\ joint_frequency simulated lines <= 1).
  { unfold joint_frequency, fraction_of_draws.
    apply (count_ratio_range _ _ (filter_length_bound _ _) Hdraws). }
  split; [rewrite Hjoint; apply H0|]. split; [rewrite Hjoint; apply H0|].
  split.
  - rewrite (Forall2_Qeq_length _ _ Hmarg), length_map, length_seq. reflexivity.
  - eapply Forall2_Qeq_Forall; [|exact Hmarg|].
    + intros a b Hab [Hb1 Hb2]. rewrite Hab. split; assumption.
    + apply Forall_map, Forall_forall. intros j Hj. apply in_seq in Hj.
      rewrite Hjoint.
      destruct (joint_le_marginal simulated lines j Hdraws) as (_ & H1 & H2); [lia|].
      split; assumption.
Qed.

Lemma marginal_probability_over (self : t (RNG := RNG)) (simulated : matrix)
    (lines : list Q)
    (j : nat) :
  marginal simulated lines j =
  calculate_probability_over self (map (fun row => nth j row 0) simulated)
                             (nth j lines 0).
Proof.
  unfold marginal, fraction_of_draws, calculate_probability_over, np_mean_bool, leg_hits.
  rewrite count_true_map, filter_map_length, !length_map. reflexivity.
Qed.

(** X20: the individual probabilities in the report of a parlay simulation
    are the over-probabilities that [calculate_probability_over] gives for
    the columns of the sample matrix of the same run, each against the line
    of its prop. *)
Theorem individual_probabilities_by_column (self self' : t)
    (props : list PropProjection.t) (correlation_matrix : option matrix)
    (stats : ParlayStats) :
  simulate_parlay next_normal linalg_factor self props correlation_matrix
    = Ok (stats, self') ->
  exists simulated,
    simulate_correlated_props next_normal linalg_factor self
      (map PropProjection.mean props) (map PropProjection.std props)
      (match correlation_matrix with
       | Some m => m
       | None => np_eye (List.length props)
       end) = Ok (simulated, self') /\
    Forall2 Qeq (individual_probabilities stats)
      (map (fun j =>
              calculate_probability_over self'
                (map (fun row => nth j row 0) simulated)
                (nth j (map PropProjection.line props) 0))
           (seq 0 (List.length props))).
Proof.
  intro H. apply simulate_parlay_inv in H.
  destruct H as (simulated & Hsim & Hshape & _ & Hind & _).
  exists simulated. split; [exact Hsim|].
  pose proof (mean_axis0_marginals _ simulated Hshape) as Hmarg.
  rewrite length_map, <- Hind in Hmarg.
  erewrite map_ext; [exact Hmarg|].
  intro j. symmetry. apply marginal_probability_over.
Qed.

End SampleMatrix.


Lemma parlay_probability_bounds_witness :
  exists stats self',
    MonteCarloSimulator.simulate_parlay Examples.counting_normal Examples.identity_factor
      Examples.small_simulator Examples.two_props None = Ok (stats, self') /\
    0 <= MonteCarloSimulator.true_probability stats /\
    Forall (fun q => MonteCarloSimulator.true_probability stats <= q /\ q <= 1)
           (MonteCarloSimulator.individual_probabilities stats).
Proof.
  destruct (MonteCarloSimulator.simulate_parlay Examples.counting_normal
              Examples.identity_factor Examples.small_simulator Examples.two_props None)
    as [[stats self']|e] eqn:E; [|discriminate E].
  exists stats, self'. split; [reflexivity|].
  destruct (parlay_probability_bounds Examples.counting_normal Examples.identity_factor
              Examples.small_simulator self' Examples.two_props None stats
              (Nat.lt_0_succ 5) E)
    as (H0 & _ & _ & Hall).
  split; [exact H0 | exact Hall].
Defined.

Lemma individual_probabilities_by_column_witness :
  exists stats self' simulated,
    MonteCarloSimulator.simulate_parlay Examples.counting_normal Examples.identity_factor
      Examples.small_simulator Examples.two_props None = Ok (stats, self') /\
    Forall2 Qeq (MonteCarloSimulator.individual_probabilities stats)
      [ MonteCarloSimulator.calculate_probability_over self'
          (map (fun row => nth 0 row 0) simulated) 245;
        MonteCarloSimulator.calculate_probability_over self'
          (map (fun row => nth 1 row 0) simulated) 82 ].
Proof.
  destruct (MonteCarloSimulator.simulate_parlay Examples.counting_normal
              Examples.identity_factor Examples.small_simulator Examples.two_props None)
    as [[stats self']|e] eqn:E; [|discriminate E].
  destruct (individual_probabilities_by_column _ _ _ _ _ _ _ E)
    as (simulated & _ & Hall).
  exists stats, self', simulated. split; [reflexivity | exact Hall].
Defined.


(** *** The report of the adversarial validator, and a second call *)

Section Reports.

Import AdversarialValidator.
Context `{Sklearn}.

(** X21: the report of [validate].  The check passes exactly when the mean
    AUC is below 0.7; the warning is the high-risk one exactly when the
    mean AUC is above 0.7, the moderate one when it is above 0.6 and at
    most 0.7, and the low-risk one when it is at most 0.6.  So a passed
    check never carries the high-risk warning, and at a mean AUC of exactly
    0.7 the check fails with the moderate warning. *)
Theorem validate_report_consistent (self : t) (h h' : heap)
    (train_features test_features : nat) (report : Report) :
  validate self h train_features test_features = Ok (report, h') ->
  (passed report = true <-> mean_auc report < 7 # 10) /\
  (warning report
     = "HIGH RISK: Significant covariate shift detected. Model may not generalize."
   <-> 7 # 10 < mean_auc report) /\
  (warning report = "MODERATE RISK: Some distribution shift present. Use caution."
   <-> 6 # 10 < mean_auc report /\ mean_auc report <= 7 # 10) /\
  (warning report = "LOW RISK: Train and test distributions are similar."
   <-> mean_auc report <= 6 # 10) /\
  (passed report = false /\
   warning report = "MODERATE RISK: Some distribution shift present. Use caution."
   <-> mean_auc report == 7 # 10).
Proof.
  intro Hv. unfold validate in Hv.
  repeat NFL_pre_spec.bind_inv Hv. injection Hv as <- _.
  cbn [passed warning mean_auc].
  set (m := np_mean _).
  destruct (Qltb_cases m (7 # 10)) as [[Ep Hp]|[Ep Hp]]; rewrite Ep;
  destruct (Qltb_cases (7 # 10) m) as [[Eh Hh]|[Eh Hh]]; rewrite Eh;
  destruct (Qltb_cases (6 # 10) m) as [[El Hl]|[El Hl]]; rewrite ?El;
    try (exfalso; lra);
    repeat split; intros; try discriminate; try reflexivity; try lra;
    repeat match goal with H : _ /\ _ |- _ => destruct H end;
    try discriminate; try lra.
Qed.

Lemma set_scalar_twice (df : DataFrame.t) (name : string) (value : Q) :
  DataFrame.set_scalar (DataFrame.set_scalar df name value) name value
  = DataFrame.set_scalar df name value.
Proof.
  unfold DataFrame.set_scalar. cbn [DataFrame.nrows DataFrame.columns].
  rewrite insert_insert_eq. reflexivity.
Qed.

Lemma validate_frames (self : t) (h h' : heap) (train test : nat) (report : Report) :
  validate self h train test = Ok (report, h') ->
  exists dtr dte,
    h !! train = Some dtr /\
    (<[train := DataFrame.set_scalar dtr "is_test" 0]> h) !! test = Some dte.
Proof.
  unfold validate, assign. intro Hv.
  destruct (h !! train) as [dtr|] eqn:Htr; [|discriminate]. cbn [bind] in Hv.
  destruct ((<[train := DataFrame.set_scalar dtr "is_test" 0]> h) !! test)
    as [dte|] eqn:Hte; [|discriminate].
  exists dtr, dte. split; [reflexivity | exact Hte].
Qed.

(** The report depends on the frames only through their labelled
    versions. *)
Lemma validate_report_of_frames (self : t) (h1 h2 h1' h2' : heap) (train test : nat)
    (dtr1 dte1 dtr2 dte2 : DataFrame.t) (r1 r2 : Report) :
  train <> test ->
  h1 !! train = Some dtr1 -> h1 !! test = Some dte1 ->
  h2 !! train = Some dtr2 -> h2 !! test = Some dte2 ->
  DataFrame.set_scalar dtr1 "is_test" 0 = DataFrame.set_scalar dtr2 "is_test" 0 ->
  DataFrame.set_scalar dte1 "is_test" 1 = DataFrame.set_scalar dte2 "is_test" 1 ->
  validate self h1 train test = Ok (r1, h1') ->
  validate self h2 train test = Ok (r2, h2') ->
  r1 = r2.
Proof.
  intros Hne Htr1 Hte1 Htr2 Hte2 Etr Ete H1 H2.
  unfold validate, assign, deref in H1, H2.
  rewrite Htr1 in H1. rewrite Htr2 in H2. cbn [bind] in H1, H2.
  rewrite lookup_insert_ne in H1, H2 by exact Hne.
  rewrite Hte1 in H1. rewrite Hte2 in H2. cbn [bind] in H1, H2.
  rewrite lookup_insert_ne in H1, H2 by congruence.
  rewrite lookup_insert_eq in H1, H2. cbn [bind] in H1, H2.
  rewrite lookup_insert_eq in H1, H2. cbn [bind] in H1, H2.
  rewrite Etr, Ete in H1. congruence.
Qed.

(** X22: a second call of [validate] on the same two (distinct) frames
    changes nothing more: it returns the same report and leaves the
    caller's heap as the first call left it. *)
Theorem validate_idempotent (self : t) (h h' : heap) (train_features test_features : nat)
    (report : Report) :
  train_features <> test_features ->
  validate self h train_features test_features = Ok (report, h') ->
  validate self h' train_features test_features = Ok (report, h').
Proof.
  intros Hne Hv.
  destruct (validate_frames _ _ _ _ _ _ Hv) as (dtr & dte & Htr & Hte).
  rewrite lookup_insert_ne in Hte by exact Hne.
  destruct (validate_heap self h train_features test_features dtr dte Hne Htr Hte)
    as [r Hr].
  rewrite Hr in Hv. injection Hv as <- <-.
  set (A := DataFrame.set_scalar dtr "is_test" 0) in *.
  set (B := DataFrame.set_scalar dte "is_test" 1) in *.
  set (h2 := <[test_features := B]> (<[train_features := A]> h)) in *.
  assert (HA : h2 !! train_features = Some A).
  { unfold h2. rewrite lookup_insert_ne by congruence. apply lookup_insert_eq. }
  assert (HB : h2 !! test_features = Some B).
  { unfold h2. apply lookup_insert_eq. }
  destruct (validate_heap self h2 train_features test_features A B Hne HA HB)
    as [r2 Hr2].
  assert (EA : DataFrame.set_scalar A "is_test" 0 = A) by apply set_scalar_twice.
  assert (EB : DataFrame.set_scalar B "is_test" 1 = B) by apply set_scalar_twice.
  assert (Hr2' := Hr2).
  rewrite EA, EB, (insert_id h2 train_features A HA),
    (insert_id h2 test_features B HB) in Hr2.
  rewrite Hr2. f_equal. f_equal.
  exact (validate_report_of_frames self h2 h _ _ train_features test_features
           A B dtr dte r2 r Hne HA HB Htr Hte EA EB Hr2' Hr).
Qed.

End Reports.

Lemma validate_report_consistent_witness :
  exists report h',
    AdversarialValidator.validate (H := Examples.coin_flip)
      Examples.validator Examples.caller_heap 0 1 = Ok (report, h') /\
    (AdversarialValidator.passed report = true
     <-> AdversarialValidator.mean_auc report < 7 # 10).
Proof.
  destruct (AdversarialValidator.validate (H := Examples.coin_flip)
              Examples.validator Examples.caller_heap 0 1)
    as [[report h']|e] eqn:E; [|discriminate E].
  exists report, h'. split; [reflexivity|].
  exact (proj1 (validate_report_consistent _ _ _ _ _ _ E)).
Defined.

Lemma validate_idempotent_witness :
  exists report h',
    AdversarialValidator.validate (H := Examples.coin_flip)
      Examples.validator Examples.caller_heap 0 1 = Ok (report, h') /\
    AdversarialValidator.validate (H := Examples.coin_flip)
      Examples.validator h' 0 1 = Ok (report, h').
Proof.
  destruct (AdversarialValidator.validate (H := Examples.coin_flip)
              Examples.validator Examples.caller_heap 0 1)
    as [[report h']|e] eqn:E; [|discriminate E].
  exists report, h'. split; [reflexivity|].
  apply (validate_idempotent (H := Examples.coin_flip) Examples.validator
           Examples.caller_heap h' 0 1 report); [discriminate | exact E].
Defined.


(** *** Equal-width bins *)

Section Bins.
Import ModelEvaluator.

Lemma count_upto (m : nat) (k : Z) :
  List.length (filter (fun i => (Z.of_nat i <=? k)%Z) (seq 0 m))
  = Z.to_nat (Z.min (Z.of_nat m) (k + 1)).
Proof.
  induction m as [|m IH]; [cbn; lia|].
  rewrite seq_S, filter_app, length_app, IH. cbn [filter Nat.add].
  destruct (Z.of_nat m <=? k)%Z eqn:E; cbn [List.length].
  - apply Z.leb_le in E. lia.
  - apply Z.leb_gt in E. lia.
Qed.

(** An integer is at most a rational exactly when it is at most its
    floor. *)
Lemma le_floor_iff (z : Z) (q : Q) : inject_Z z <= q <-> (z <= Qfloor q)%Z.
Proof.
  split; intro H.
  - rewrite <- (Qfloor_Z z). apply Qfloor_resp_le, H.
  - apply Qle_trans with (inject_Z (Qfloor q)); [|apply Qfloor_le].
    rewrite <- Zle_Qle. exact H.
Qed.

Lemma edge_le_iff (n i : nat) (x : Q) :
  (0 < n)%nat ->
  Qle_bool (inject_Z (Z.of_nat i) / inject_Z (Z.of_nat n)) x
  = (Z.of_nat i <=? Qfloor (x * inject_Z (Z.of_nat n)))%Z.
Proof.
  intro Hn. pose proof (count_pos n Hn) as Hp.
  apply eq_iff_eq_true. rewrite Qle_bool_iff, Z.leb_le, <- le_floor_iff.
  split; intro H.
  - assert (E : inject_Z (Z.of_nat i)
                == inject_Z (Z.of_nat i) / inject_Z (Z.of_nat n) * inject_Z (Z.of_nat n))
      by (field; lra).
    rewrite E. apply Qmult_le_compat_r; lra.
  - apply Qle_shift_div_r; assumption.
Qed.

Lemma digitize_bin_edges (n : nat) (x : Q) :
  (0 < n)%nat ->
  digitize (bin_edges n) x
  = Z.to_nat (Z.min (Z.of_nat (n + 1)) (Qfloor (x * inject_Z (Z.of_nat n)) + 1)).
Proof.
  intro Hn. unfold digitize, bin_edges. rewrite filter_map_length.
  rewrite (filter_ext _ (fun i => (Z.of_nat i <=? Qfloor (x * inject_Z (Z.of_nat n)))%Z)).
  - apply count_upto.
  - intro i. apply edge_le_iff, Hn.
Qed.

(** The floor of a rational is a given integer exactly when the rational is
    in the unit interval that starts there. *)
Lemma floor_eq_iff (z : Z) (q : Q) :
  Qfloor q = z <-> inject_Z z <= q /\ q < inject_Z (z + 1).
Proof.
  split.
  - intros <-. split; [apply Qfloor_le | apply Qlt_floor].
  - intros [Hlo Hhi]. apply le_floor_iff in Hlo.
    assert (Hup : (Qfloor q < z + 1)%Z).
    { apply Z.nle_gt. intro Hc. apply le_floor_iff in Hc.
      apply (Qlt_irrefl q). eapply Qlt_le_trans; eassumption. }
    lia.
Qed.

(** Membership in bin [i], prediction by prediction. *)
Lemma bin_index_test (n_bins i : nat) (x : Q) :
  (0 < n_bins)%nat -> (i < n_bins)%nat ->
  (Z.of_nat (digitize (bin_edges n_bins) x) - 1 =? Z.of_nat i)%Z
  = Qle_bool (inject_Z (Z.of_nat i) / inject_Z (Z.of_nat n_bins)) x
    && Qltb x (inject_Z (Z.of_nat (i + 1)) / inject_Z (Z.of_nat n_bins)).
Proof.
  intros Hn Hi.
  rewrite (digitize_bin_edges n_bins x Hn).
  pose proof (count_pos n_bins Hn) as Hp.
  set (f := Qfloor (x * inject_Z (Z.of_nat n_bins))).
  apply eq_iff_eq_true.
  rewrite Z.eqb_eq, andb_true_iff, Qle_bool_iff, Qltb_true.
  assert (Hf : f = Z.of_nat i <->
               inject_Z (Z.of_nat i) / inject_Z (Z.of_nat n_bins) <= x /\
               x < inject_Z (Z.of_nat (i + 1)) / inject_Z (Z.of_nat n_bins)).
  { unfold f. rewrite floor_eq_iff.
    replace (Z.of_nat i + 1)%Z with (Z.of_nat (i + 1)) by lia.
    split; intros [Hlo Hhi]; split.
    - apply Qle_shift_div_r; assumption.
    - apply Qlt_shift_div_l; assumption.
    - assert (E : inject_Z (Z.of_nat i)
                  == inject_Z (Z.of_nat i) / inject_Z (Z.of_nat n_bins)
                     * inject_Z (Z.of_nat n_bins)) by (field; lra).
      rewrite E. apply Qmult_le_compat_r; lra.
    - assert (E : inject_Z (Z.of_nat (i + 1))
                  == inject_Z (Z.of_nat (i + 1)) / inject_Z (Z.of_nat n_bins)
                     * inject_Z (Z.of_nat n_bins)) by (field; lra).
      rewrite E. apply Qmult_lt_compat_r; lra. }
  rewrite <- Hf. lia.
Qed.



End Bins.


(** *** The calibration curve *)

Section Curve.
Import ModelEvaluator.

Lemma select_map {A : Type} (f : A -> bool) (xs : list A) :
  select (map f xs) xs = filter f xs.
Proof.
  unfold select. induction xs as [|a xs IH]; cbn [map combine filter fst]; [reflexivity|].
  destruct (f a); cbn [map snd]; rewrite IH; reflexivity.
Qed.

Lemma sum_cons (x : Q) (xs : list Q) : sum (x :: xs) == x + sum xs.
Proof.
  unfold sum. cbn [fold_left]. rewrite (NFL_pre_spec.sum_from xs (0 + x)).
  unfold sum. lra.
Qed.

Lemma sum_between (lo hi : Q) (xs : list Q) :
  Forall (fun x => lo <= x /\ x < hi) xs ->
  lo * inject_Z (Z.of_nat (List.length xs)) <= sum xs /\
  sum xs <= hi * inject_Z (Z.of_nat (List.length xs)).
Proof.
  induction 1 as [|x xs [Hlo Hhi] _ [IHlo IHhi]].
  - unfold sum. cbn [List.length fold_left]. change (inject_Z (Z.of_nat 0)) with 0.
    split; lra.
  - rewrite sum_cons. cbn [List.length]. rewrite inject_succ. split; lra.
Qed.

(** The mean of a non-empty list lies where all its elements do. *)
Lemma mean_between (lo hi : Q) (xs : list Q) :
  xs <> [] -> Forall (fun x => lo <= x /\ x < hi) xs ->
  lo <= np_mean xs /\ np_mean xs < hi.
Proof.
  intros Hne Hall. unfold np_mean.
  destruct xs as [|x xs]; [congruence|].
  inversion Hall as [|? ? [Hlo Hhi] Hrest]; subst.
  destruct (sum_between lo hi xs Hrest) as [Hslo Hshi].
  assert (Hp : 0 < inject_Z (Z.of_nat (List.length (x :: xs))))
    by (apply count_pos; cbn; lia).
  rewrite sum_cons. cbn [List.length] in *. rewrite inject_succ in *.
  split.
  - apply Qle_shift_div_l; [exact Hp|]. lra.
  - apply Qlt_shift_div_r; [exact Hp|]. lra.
Qed.

Lemma curve_fold (mean_predicted mean_true : nat -> Q) (occupied : nat -> bool)
    (bins : list nat) (bin_means true_freqs : list Q) :
  fold_left (fun '(bin_means, true_freqs) i =>
               if occupied i
               then (bin_means ++ [mean_predicted i], true_freqs ++ [mean_true i])%list
               else (bin_means, true_freqs))
            bins (bin_means, true_freqs)
  = ((bin_means ++ map mean_predicted (filter occupied bins))%list,
     (true_freqs ++ map mean_true (filter occupied bins))%list).
Proof.
  revert bin_means true_freqs.
  induction bins as [|i rest IH]; intros bin_means true_freqs; cbn [fold_left filter].
  - cbn [map]. rewrite !app_nil_r. reflexivity.
  - destruct (occupied i); rewrite IH; cbn [map]; rewrite <- ?app_assoc; reflexivity.
Qed.

(** The two arrays of the curve: one entry per non-empty bin, in bin
    order. *)
Lemma calibration_curve_unfold (true_outcomes predicted_probs : list Q) (n_bins : nat) :
  calibration_curve true_outcomes predicted_probs n_bins =
  (map (fun i => np_mean (select (bin_mask (bin_indices predicted_probs n_bins) i)
                                 predicted_probs))
       (filter (fun i => (0 <? count_true (bin_mask (bin_indices predicted_probs n_bins) i))%nat)
               (seq 0 n_bins)),
   map (fun i => np_mean (select (bin_mask (bin_indices predicted_probs n_bins) i)
                                 true_outcomes))
       (filter (fun i => (0 <? count_true (bin_mask (bin_indices predicted_probs n_bins) i))%nat)
               (seq 0 n_bins))).
Proof.
  exact (curve_fold
           (fun i => np_mean (select (bin_mask (bin_indices predicted_probs n_bins) i)
                                     predicted_probs))
           (fun i => np_mean (select (bin_mask (bin_indices predicted_probs n_bins) i)
                                     true_outcomes))
           (fun i => (0 <? count_true (bin_mask (bin_indices predicted_probs n_bins) i))%nat)
           (seq 0 n_bins) [] []).
Qed.

(** The mean prediction of a non-empty bin lies in the bin. *)
Lemma bin_mean_in_bin (predicted_probs : list Q) (n_bins i : nat) :
  (0 < n_bins)%nat -> (i < n_bins)%nat ->
  (0 <? count_true (bin_mask (bin_indices predicted_probs n_bins) i))%nat = true ->
  inject_Z (Z.of_nat i) / inject_Z (Z.of_nat n_bins)
  <= np_mean (select (bin_mask (bin_indices predicted_probs n_bins) i) predicted_probs) /\
  np_mean (select (bin_mask (bin_indices predicted_probs n_bins) i) predicted_probs)
  < inject_Z (Z.of_nat (i + 1)) / inject_Z (Z.of_nat n_bins).
Proof.
  intros Hn Hi Hocc.
  assert (Hmask : bin_mask (bin_indices predicted_probs n_bins) i
                  = map (fun x =>
                           Qle_bool (inject_Z (Z.of_nat i) / inject_Z (Z.of_nat n_bins)) x
                           && Qltb x (inject_Z (Z.of_nat (i + 1))
                                      / inject_Z (Z.of_nat n_bins)))
                        predicted_probs).
  { unfold bin_mask, bin_indices. rewrite map_map.
    apply map_ext. intro x. apply bin_index_test; assumption. }
  rewrite Hmask in *. rewrite select_map. rewrite count_true_map in Hocc.
  apply Nat.ltb_lt in Hocc.
  apply mean_between.
  - intro Hnil. rewrite Hnil in Hocc. cbn in Hocc. lia.
  - apply Forall_forall. intros x Hx. apply filter_In in Hx.
    destruct Hx as [_ Hx]. apply andb_true_iff in Hx. destruct Hx as [Hlo Hhi].
    split; [now apply Qle_bool_iff | now apply Qltb_true].
Qed.

Lemma curve_means_sorted (predicted_probs : list Q) (n_bins : nat) :
  (0 < n_bins)%nat ->
  forall len start, (start + len <= n_bins)%nat ->
  StronglySorted Qlt
    (map (fun i => np_mean (select (bin_mask (bin_indices predicted_probs n_bins) i)
                                   predicted_probs))
         (filter (fun i => (0 <? count_true
                                   (bin_mask (bin_indices predicted_probs n_bins) i))%nat)
                 (seq start len))) /\
  Forall (fun m => inject_Z (Z.of_nat start) / inject_Z (Z.of_nat n_bins) <= m /\ m < 1)
    (map (fun i => np_mean (select (bin_mask (bin_indices predicted_probs n_bins) i)
                                   predicted_probs))
         (filter (fun i => (0 <? count_true
                                   (bin_mask (bin_indices predicted_probs n_bins) i))%nat)
                 (seq start len))).
Proof.
  intro Hn. pose proof (count_pos n_bins Hn) as Hp.
  induction len as [|len IH]; intros start Hle; cbn [seq filter].
  - split; constructor.
  - destruct (IH (S start)) as [IHsorted IHall]; [lia|].
    assert (Hstep : inject_Z (Z.of_nat start) / inject_Z (Z.of_nat n_bins)
                    <= inject_Z (Z.of_nat (S start)) / inject_Z (Z.of_nat n_bins)).
    { apply count_ratio_le. lia. }
    assert (Hweak : Forall (fun m => inject_Z (Z.of_nat start) / inject_Z (Z.of_nat n_bins)
                                     <= m /\ m < 1)
                      (map (fun i => np_mean (select (bin_mask (bin_indices predicted_probs
                                                                             n_bins) i)
                                                     predicted_probs))
                           (filter (fun i => (0 <? count_true
                                                     (bin_mask (bin_indices predicted_probs
                                                                            n_bins) i))%nat)
                                   (seq (S start) len)))).
    { eapply Forall_impl; [|exact IHall]. cbv beta. intros m [Hlo Hhi]. split; lra. }
    destruct (0 <? count_true (bin_mask (bin_indices predicted_probs n_bins) start))%nat
      eqn:Hocc; [|split; assumption].
    cbn [map].
    destruct (bin_mean_in_bin predicted_probs n_bins start Hn) as [Hlo Hhi];
      [lia | exact Hocc |].
    replace (start + 1)%nat with (S start) in Hhi by lia.
    assert (Hone : inject_Z (Z.of_nat (S start)) / inject_Z (Z.of_nat n_bins) <= 1).
    { apply Qle_shift_div_r; [exact Hp|]. rewrite Qmult_1_l, <- Zle_Qle. lia. }
    split.
    + constructor; [exact IHsorted|].
      eapply Forall_impl; [|exact IHall]. cbv beta. intros m [Hm _]. lra.
    + constructor; [split; lra | exact Hweak].
Qed.




(** *** The expected calibration error *)

Lemma select_In {A : Type} (mask : list bool) (values : list A) (x : A) :
  In x (select mask values) -> In x values.
Proof.
  unfold select. intro H. apply in_map_iff in H.
  destruct H as ([b v] & Hx & Hin). cbn [snd] in Hx. subst v.
  apply filter_In in Hin. destruct Hin as [Hin _].
  eapply in_combine_r. exact Hin.
Qed.

Lemma sum_within (lo hi : Q) (xs : list Q) :
  Forall (fun x => lo <= x /\ x <= hi) xs ->
  lo * inject_Z (Z.of_nat (List.length xs)) <= sum xs /\
  sum xs <= hi * inject_Z (Z.of_nat (List.length xs)).
Proof.
  induction 1 as [|x xs [Hlo Hhi] _ [IHlo IHhi]].
  - unfold sum. cbn [List.length fold_left]. change (inject_Z (Z.of_nat 0)) with 0.
    split; lra.
  - rewrite sum_cons. cbn [List.length]. rewrite inject_succ. split; lra.
Qed.

(** The mean of values in [0, 1] is in [0, 1]; of no values it is 0. *)
Lemma mean_within_unit (xs : list Q) :
  Forall (fun x => 0 <= x /\ x <= 1) xs -> 0 <= np_mean xs /\ np_mean xs <= 1.
Proof.
  intro Hall. unfold np_mean. destruct xs as [|x xs].
  - split; discriminate.
  - destruct (sum_within 0 1 (x :: xs) Hall) as [Hlo Hhi].
    assert (Hp : 0 < inject_Z (Z.of_nat (List.length (x :: xs))))
      by (apply count_pos; cbn; lia).
    split.
    + apply Qle_shift_div_l; [exact Hp|]. lra.
    + apply Qle_shift_div_r; [exact Hp|]. lra.
Qed.

Lemma below_step (m : nat) (indices : list Z) :
  List.length (filter (below (S m)) indices)
  = (List.length (filter (below m) indices)
     + List.length (filter (fun b => (b =? Z.of_nat m)%Z) indices))%nat.
Proof.
  induction indices as [|b rest IH]; cbn [filter]; [reflexivity|].
  destruct (below (S m) b) eqn:E1; destruct (below m b) eqn:E2;
  destruct (b =? Z.of_nat m)%Z eqn:E3;
    cbn [List.length]; rewrite ?IH; try lia; exfalso;
    unfold below in E1, E2;
    rewrite ?andb_true_iff, ?andb_false_iff, ?Z.leb_le, ?Z.leb_gt, ?Z.ltb_lt,
      ?Z.ltb_ge, ?Z.eqb_eq, ?Z.eqb_neq in *;
    lia.
Qed.

(** A prediction with a bin number in range is in [0, 1). *)
Lemma below_unit (n_bins : nat) (x : Q) :
  (0 < n_bins)%nat ->
  below n_bins (Z.of_nat (digitize (bin_edges n_bins) x) - 1) = true ->
  Qle_bool 0 x && Qltb x 1 = true.
Proof.
  intros Hn H. unfold below in H. apply andb_true_iff in H. destruct H as [H0 H1].
  apply Z.leb_le in H0. apply Z.ltb_lt in H1.
  rewrite (digitize_bin_edges n_bins x Hn) in H0, H1.
  pose proof (count_pos n_bins Hn) as Hp.
  pose proof (Qfloor_le (x * inject_Z (Z.of_nat n_bins))) as Hlo.
  pose proof (Qlt_floor (x * inject_Z (Z.of_nat n_bins))) as Hhi.
  set (f := Qfloor (x * inject_Z (Z.of_nat n_bins))) in *.
  assert (Hf : (0 <= f < Z.of_nat n_bins)%Z) by lia.
  destruct Hf as [Hf0 Hf1].
  rewrite Zle_Qle in Hf0. change (inject_Z 0) with 0 in Hf0.
  assert (Hf2 : inject_Z (f + 1) <= inject_Z (Z.of_nat n_bins))
    by (rewrite <- Zle_Qle; lia).
  apply andb_true_iff. split.
  - apply Qle_bool_iff.
    destruct (Qlt_le_dec x 0) as [Hneg|Hpos]; [|exact Hpos].
    exfalso.
    assert (x * inject_Z (Z.of_nat n_bins) < 0 * inject_Z (Z.of_nat n_bins))
      by (apply Qmult_lt_compat_r; assumption).
    lra.
  - apply Qltb_true.
    destruct (Qlt_le_dec x 1) as [Hlt|Hge]; [exact Hlt|].
    exfalso.
    assert (1 * inject_Z (Z.of_nat n_bins) <= x * inject_Z (Z.of_nat n_bins)).
    { apply Qmult_le_compat_r; lra. }
    lra.
Qed.

Lemma ece_prefix (true_outcomes predicted_probs : list Q) (n_bins : nat) :
  (0 < n_bins)%nat ->
  Forall (fun o => 0 <= o /\ o <= 1) true_outcomes ->
  forall m, (m <= n_bins)%nat ->
    fold_left
      (fun ece i =>
         let mask := bin_mask (bin_indices predicted_probs n_bins) i in
         let n_bin := count_true mask in
         if (0 <? n_bin)%nat then
           let bin_acc := np_mean (select mask true_outcomes) in
           let bin_conf := np_mean (select mask predicted_probs) in
           ece + (inject_Z (Z.of_nat n_bin)
                  / inject_Z (Z.of_nat (List.length predicted_probs)))
                 * Qabs (bin_acc - bin_conf)
         else ece) (seq 0 m) 0
    <= inject_Z (Z.of_nat (List.length (filter (below m)
                                              (bin_indices predicted_probs n_bins))))
       / inject_Z (Z.of_nat (List.length predicted_probs)).
Proof.
  intros Hn Houtcomes.
  induction m as [|m IH]; intro Hm.
  - cbn [seq fold_left].
    pose proof (count_ratio_le 0 (List.length (filter (below 0)
                                                 (bin_indices predicted_probs n_bins)))
                  (List.length predicted_probs) (Nat.le_0_l _)) as H.
    eapply Qle_trans; [|exact H].
    change (inject_Z (Z.of_nat 0)) with 0. unfold Qdiv. rewrite Qmult_0_l. lra.
  - rewrite seq_S, fold_left_app. cbn [fold_left Nat.add]. cbv zeta.
    specialize (IH ltac:(lia)).
    rewrite below_step, Nat2Z.inj_add, inject_Z_plus.
    set (prev := fold_left _ (seq 0 m) 0) in *.
    assert (Hcount : count_true (bin_mask (bin_indices predicted_probs n_bins) m)
                     = List.length (filter (fun b => (b =? Z.of_nat m)%Z)
                                           (bin_indices predicted_probs n_bins))).
    { unfold bin_mask. apply count_true_map. }
    rewrite <- Hcount.
    set (n_bin := count_true (bin_mask (bin_indices predicted_probs n_bins) m)) in *.
    set (A := inject_Z (Z.of_nat (List.length (filter (below m) _)))) in *.
    set (N := inject_Z (Z.of_nat (List.length predicted_probs))) in *.
    assert (Hsplit : (A + inject_Z (Z.of_nat n_bin)) / N
                     == A / N + inject_Z (Z.of_nat n_bin) / N).
    { unfold Qdiv. ring. }
    rewrite Hsplit.
    assert (Hw : 0 <= inject_Z (Z.of_nat n_bin) / N).
    { pose proof (count_ratio_le 0 n_bin (List.length predicted_probs) (Nat.le_0_l _))
        as H. fold N in H. eapply Qle_trans; [|exact H].
      change (inject_Z (Z.of_nat 0)) with 0. unfold Qdiv. rewrite Qmult_0_l. lra. }
    destruct (0 <? n_bin)%nat eqn:Hocc; [|lra].
    destruct (bin_mean_in_bin predicted_probs n_bins m Hn) as [Hlo Hhi];
      [lia | exact Hocc |].
    pose proof (count_pos n_bins Hn) as Hp.
    assert (H0 : 0 <= inject_Z (Z.of_nat m) / inject_Z (Z.of_nat n_bins)).
    { apply Qle_shift_div_l; [exact Hp|]. rewrite Qmult_0_l.
      change 0 with (inject_Z 0). rewrite <- Zle_Qle. lia. }
    assert (H1 : inject_Z (Z.of_nat (m + 1)) / inject_Z (Z.of_nat n_bins) <= 1).
    { apply Qle_shift_div_r; [exact Hp|]. rewrite Qmult_1_l, <- Zle_Qle. lia. }
    assert (Hacc : 0 <= np_mean (select (bin_mask (bin_indices predicted_probs n_bins) m)
                                        true_outcomes) /\
                   np_mean (select (bin_mask (bin_indices predicted_probs n_bins) m)
                                   true_outcomes) <= 1).
    { apply mean_within_unit. apply Forall_forall. intros o Ho.
      apply select_In in Ho. rewrite Forall_forall in Houtcomes. apply Houtcomes, Ho. }
    destruct Hacc as [Hacc0 Hacc1].
    set (bin_acc := np_mean (select _ true_outcomes)) in *.
    set (bin_conf := np_mean (select _ predicted_probs)) in *.
    assert (Hd : Qabs (bin_acc - bin_conf) <= 1).
    { apply Qabs_Qle_condition. split; lra. }
    pose proof (Qabs_nonneg (bin_acc - bin_conf)) as Hd0.
    assert (Hterm : Qabs (bin_acc - bin_conf) * (inject_Z (Z.of_nat n_bin) / N)
                    <= 1 * (inject_Z (Z.of_nat n_bin) / N))
      by (apply Qmult_le_compat_r; assumption).
    lra.
Qed.


(** X30: the expected calibration error of as many outcomes as predictions,
    over at least one bin, is never negative.  For outcomes in [0, 1] it is
    at most the share of the predictions that lie in [0, 1) (the only ones
    the bins collect), hence at most 1. *)
Theorem expected_calibration_error_range (true_outcomes predicted_probs : list Q)
    (n_bins : nat) :
  (0 < n_bins)%nat ->
  List.length true_outcomes = List.length predicted_probs ->
  0 <= expected_calibration_error true_outcomes predicted_probs n_bins /\
  (Forall (fun o => 0 <= o /\ o <= 1) true_outcomes ->
   expected_calibration_error true_outcomes predicted_probs n_bins
     <= np_mean_bool (map (fun x => Qle_bool 0 x && Qltb x 1) predicted_probs) /\
   expected_calibration_error true_outcomes predicted_probs n_bins <= 1).
Proof.
  intros Hn _. unfold expected_calibration_error. split.
  - assert (Hfold : forall bins ece, 0 <= ece ->
              0 <= fold_left
                     (fun ece i =>
                        let mask := bin_mask (bin_indices predicted_probs n_bins) i in
                        let n_bin := count_true mask in
                        if (0 <? n_bin)%nat then
                          let bin_acc := np_mean (select mask true_outcomes) in
                          let bin_conf := np_mean (select mask predicted_probs) in
                          ece + (inject_Z (Z.of_nat n_bin)
                                 / inject_Z (Z.of_nat (List.length predicted_probs)))
                                * Qabs (bin_acc - bin_conf)
                        else ece) bins ece).
    { induction bins as [|i rest IH]; intros ece Hece; cbn [fold_left]; [exact Hece|].
      apply IH. cbv zeta.
      destruct (0 <? count_true _)%nat; [|exact Hece].
      assert (Hw : 0 <= inject_Z (Z.of_nat (count_true
                                              (bin_mask (bin_indices predicted_probs n_bins)
                                                        i)))
                        / inject_Z (Z.of_nat (List.length predicted_probs))).
      { unfold Qdiv. apply Qmult_le_0_compat.
        - change 0 with (inject_Z 0). rewrite <- Zle_Qle. lia.
        - apply Qinv_le_0_compat. change 0 with (inject_Z 0). rewrite <- Zle_Qle. lia. }
      pose proof (Qabs_nonneg
                    (np_mean (select (bin_mask (bin_indices predicted_probs n_bins) i)
                                     true_outcomes)
                     - np_mean (select (bin_mask (bin_indices predicted_probs n_bins) i)
                                       predicted_probs))) as Ha.
      pose proof (Qmult_le_0_compat _ _ Hw Ha). lra. }
    apply Hfold. discriminate.
  - intro Houtcomes.
    pose proof (ece_prefix true_outcomes predicted_probs n_bins Hn Houtcomes n_bins
                  (Nat.le_refl _)) as Hprefix.
    assert (Hshare :
              inject_Z (Z.of_nat (List.length (filter (below n_bins)
                                                      (bin_indices predicted_probs n_bins))))
              / inject_Z (Z.of_nat (List.length predicted_probs))
              <= np_mean_bool (map (fun x => Qle_bool 0 x && Qltb x 1) predicted_probs)).
    { unfold np_mean_bool. rewrite count_true_map, length_map.
      apply count_ratio_le. unfold bin_indices. rewrite filter_map_length.
      apply filter_length_mono. intros x _. apply below_unit, Hn. }
    split; [eapply Qle_trans; eassumption|].
    eapply Qle_trans; [exact Hprefix|]. eapply Qle_trans; [exact Hshare|].
    unfold np_mean_bool. rewrite count_true_map, length_map.
    destruct predicted_probs as [|x rest]; [discriminate|].
    apply (count_ratio_range _ _ (filter_length_bound _ _)). cbn. lia.
Qed.

Lemma expected_calibration_error_range_witness :
  0 <= expected_calibration_error [0; 1; 1; 1] [5 # 100; 55 # 100; 1; 59 # 100] 10 /\
  expected_calibration_error [0; 1; 1; 1] [5 # 100; 55 # 100; 1; 59 # 100] 10 <= 1.
Proof.
  destruct (expected_calibration_error_range [0; 1; 1; 1]
              [5 # 100; 55 # 100; 1; 59 # 100] 10) as [H0 H1]; [lia | reflexivity |].
  split; [exact H0|]. apply H1. repeat constructor; discriminate.
Defined.

End Curve.


(** *** The correlation matrix and the pairs found in it *)

Section Correlations.
Import Normal PropCorrelationEngine.
Local Open Scope R_scope.

Lemma centred_products_swap (mx my : R) (xs ys : list R) :
  zip_with (fun x y => (x - mx) * (y - my)) xs ys
  = zip_with (fun y x => (y - my) * (x - mx)) ys xs.
Proof.
  revert ys. induction xs as [|x xs IH]; intros [|y ys]; cbn [zip_with];
    try reflexivity.
  rewrite IH. f_equal. ring.
Qed.

Lemma sample_cov_sym (xs ys : list R) :
  List.length xs = List.length ys -> sample_cov xs ys = sample_cov ys xs.
Proof.
  intro Hlen. unfold sample_cov. rewrite Hlen.
  rewrite (centred_products_swap (Rmean xs) (Rmean ys) xs ys). reflexivity.
Qed.

Lemma pearson_sym (xs ys : list R) :
  List.length xs = List.length ys -> pearson xs ys = pearson ys xs.
Proof.
  intro Hlen. unfold pearson. rewrite (sample_cov_sym xs ys Hlen).
  rewrite (Rmult_comm (sqrt (sample_cov xs xs))). reflexivity.
Qed.

Lemma pearson_diag (xs : list R) : 0 < sample_cov xs xs -> pearson xs xs = 1.
Proof.
  intro Hvar. unfold pearson. rewrite sqrt_sqrt by Lra.lra. field. Lra.lra.
Qed.

Lemma calculate_prop_correlations_inv (self self' : t) (historical_data : HistoricalData)
    (props : list string) (m : Matrix) (warnings : list string) :
  calculate_prop_correlations self historical_data props = Ok (m, self', warnings) ->
  (2 <= List.length (filter (fun p => bool_decide (is_Some (series historical_data !! p)))
                            props))%nat /\
  m = {| labels := filter (fun p => bool_decide (is_Some (series historical_data !! p)))
                          props;
         loc := fun a b => pearson (column_of historical_data a)
                                   (column_of historical_data b) |} /\
  correlation_matrix self' = Some m /\
  min_sample_size self' = min_sample_size self /\
  significance_level self' = significance_level self /\
  warnings = (if (Z.of_nat (n_games historical_data) <? min_sample_size self)%Z
              then ["Sample size below minimum. Correlations may be unreliable."%string]
              else []).
Proof.
  unfold calculate_prop_correlations.
  destruct (List.length _ <? 2)%nat eqn:E; [discriminate|].
  apply Nat.ltb_ge in E. intro H. injection H as <- <- <-.
  repeat split. exact E.
Qed.

(** X25: the correlation matrix that [calculate_prop_correlations] returns.
    Its labels are the requested props that the data has a series for, in
    the requested order (props without a series are dropped), and there are
    at least two.  The matrix is symmetric for series of equal length, and
    its diagonal is 1 wherever the series has a positive variance.  The
    engine that comes back stores the matrix and keeps its configuration. *)
Theorem correlation_matrix_shape (self self' : t) (historical_data : HistoricalData)
    (props : list string) (m : Matrix) (warnings : list string) :
  calculate_prop_correlations self historical_data props = Ok (m, self', warnings) ->
  labels m = filter (fun p => bool_decide (is_Some (series historical_data !! p))) props /\
  (2 <= List.length (labels m))%nat /\
  (forall a b,
     List.length (column_of historical_data a) = List.length (column_of historical_data b) ->
     loc m a b = loc m b a) /\
  (forall a,
     0 < sample_cov (column_of historical_data a) (column_of historical_data a) ->
     loc m a a = 1) /\
  correlation_matrix self' = Some m /\
  min_sample_size self' = min_sample_size self /\
  significance_level self' = significance_level self.
Proof.
  intro H. apply calculate_prop_correlations_inv in H.
  destruct H as (Hlen & -> & Hstored & Hn & Hs & _).
  cbn [labels loc].
  split; [reflexivity|]. split; [exact Hlen|].
  split; [intros a b; apply pearson_sym|].
  split; [intro a; apply pearson_diag|].
  split; [exact Hstored|]. split; assumption.
Qed.


Lemma test_pair_length (self : t) (m : Matrix) (min_correlation : R)
    (props : string * string) :
  (List.length (test_pair self m min_correlation props) <= 1)%nat.
Proof.
  destruct props as [a b]. unfold test_pair.
  destruct (Rlt_dec _ _); [cbn; lia|].
  destruct (Rlt_dec _ _); cbn; lia.
Qed.

Lemma flat_map_length_le {A B : Type} (f : A -> list B) (l : list A) :
  (forall a, (List.length (f a) <= 1)%nat) ->
  (List.length (flat_map f l) <= List.length l)%nat.
Proof.
  intro Hf. induction l as [|a l IH]; cbn [flat_map List.length]; [lia|].
  rewrite length_app. specialize (Hf a). lia.
Qed.

Lemma unique_pairs_length (props : list string) :
  (2 * List.length (unique_pairs props)
   = List.length props * (List.length props - 1))%nat.
Proof.
  induction props as [|p rest IH]; cbn [unique_pairs List.length]; [reflexivity|].
  rewrite length_app, length_map. nia.
Qed.


Lemma norm_cdf_monotone (x y : R) : x <= y -> norm_cdf x <= norm_cdf y.
Proof.
  intro Hxy. unfold norm_cdf.
  pose proof (gauss_integral_monotone x y Hxy) as Hmono.
  pose proof sqrt_2PI_pos as Hp.
  assert (RiemannInt (gauss_integrable 0 x) / sqrt (2 * PI)
          <= RiemannInt (gauss_integrable 0 y) / sqrt (2 * PI)); [|Lra.lra].
  unfold Rdiv. apply Rmult_le_compat_r; [|exact Hmono].
  left. apply Rinv_0_lt_compat, Hp.
Qed.

(** X28: the p-value of a correlation does not increase with the sample size
    it is computed for, and is at most 1 (it is 1 for a correlation of 0).
    Since [find_significant_pairs] computes it for the engine's minimum
    sample size, the reported p-value is at least the p-value at any larger
    number of games and at most the p-value at any smaller one. *)
Theorem fisher_p_value_decreasing (n n' : Z) (corr : R) :
  (3 < n)%Z -> (n <= n')%Z ->
  fisher_p_value n' corr <= fisher_p_value n corr /\
  fisher_p_value n corr <= 1 /\
  fisher_p_value n 0 = 1.
Proof.
  intros Hn Hnn'.
  assert (Hx : forall k, (3 < k)%Z ->
            Rabs (fisher_z corr) / (1 / sqrt (IZR k - 3))
            = Rabs (fisher_z corr) * sqrt (IZR k - 3) /\ 0 < sqrt (IZR k - 3)).
  { intros k Hk.
    assert (Hpos : 0 < IZR k - 3).
    { apply Rlt_0_minus. apply (IZR_lt 3 k). exact Hk. }
    pose proof (sqrt_lt_R0 _ Hpos) as Hs.
    split; [field; Lra.lra | exact Hs]. }
  destruct (Hx n Hn) as [En Hsn].
  assert (Hn' : (3 < n')%Z) by lia.
  destruct (Hx n' Hn') as [En' Hsn'].
  pose proof (Rabs_pos (fisher_z corr)) as Hz.
  unfold fisher_p_value. cbv zeta. split; [|split].
  - rewrite En, En'.
    assert (Hs : sqrt (IZR n - 3) <= sqrt (IZR n' - 3)).
    { apply sqrt_le_1_alt. apply IZR_le in Hnn'. Lra.lra. }
    assert (Hle : Rabs (fisher_z corr) * sqrt (IZR n - 3)
                  <= Rabs (fisher_z corr) * sqrt (IZR n' - 3)).
    { apply Rmult_le_compat_l; assumption. }
    pose proof (norm_cdf_monotone _ _ Hle). Lra.lra.
  - rewrite En.
    assert (H0 : 0 <= Rabs (fisher_z corr) * sqrt (IZR n - 3)).
    { apply Rmult_le_pos; Lra.lra. }
    pose proof (norm_cdf_monotone _ _ H0) as Hm. rewrite norm_cdf_0 in Hm. Lra.lra.
  - assert (Ez : fisher_z 0 = 0).
    { unfold fisher_z. replace ((1 + 0) / (1 - 0)) with 1 by field.
      rewrite ln_1. ring. }
    rewrite Ez, Rabs_R0. unfold Rdiv at 1. rewrite Rmult_0_l, norm_cdf_0. field.
Qed.

End Correlations.

Lemma correlation_matrix_shape_witness :
  exists m engine warnings,
    PropCorrelationEngine.calculate_prop_correlations Examples.default_engine
      Examples.four_games ["QB_Pass_Yards"; "Unknown"; "WR1_Rec_Yards"]
      = Ok (m, engine, warnings) /\
    PropCorrelationEngine.labels m = ["QB_Pass_Yards"; "WR1_Rec_Yards"] /\
    PropCorrelationEngine.correlation_matrix engine = Some m.
Proof.
  destruct (PropCorrelationEngine.calculate_prop_correlations Examples.default_engine
              Examples.four_games ["QB_Pass_Yards"; "Unknown"; "WR1_Rec_Yards"])
    as [[[m engine] warnings]|e] eqn:E; [|discriminate E].
  exists m, engine, warnings. split; [reflexivity|].
  destruct (correlation_matrix_shape _ _ _ _ _ _ E) as (Hlabels & _ & _ & _ & Hstored & _).
  split; [rewrite Hlabels; reflexivity | exact Hstored].
Defined.


Lemma fisher_p_value_decreasing_witness :
  (PropCorrelationEngine.fisher_p_value 40 (1 / 2)
   <= PropCorrelationEngine.fisher_p_value 30 (1 / 2))%R.
Proof.
  apply (fisher_p_value_decreasing 30 40 (1 / 2)%R); [reflexivity | discriminate].
Defined.

End advanced_analytics_spec.
